(** * The room engine of the trivia-racing server

    A shallow embedding of the [GameRoom] class of the realtime server
    (types, question bank, scoring constants and every method of the class),
    followed by the properties of the engine that the specification states.

    Conventions of the embedding.
    - A JavaScript [number] that the program only ever uses as an integer
      (countdown, question index, score, streak, choice index) is a [Z],
      which is what binary64 arithmetic computes on integers below [2^53];
      the progress of a player is a rational [Q].
    - The arithmetic of [join] and [answer] comes twice.  The methods [join]
      and [answer] compute with exact rationals: they serve the properties
      that do not depend on how a result is rounded.  The methods [join_r]
      and [answer_r] round the result of every operation with a function
      [rnd], and take the rendering of a number in radix 36 as a second
      parameter; with [round64], the rounding to the nearest binary64
      number, and [toString36_v8], the rendering of the engine the server
      runs on, they compute what the program computes.  With no rounding
      and the exact expansion they are [join] and [answer].
    - [Map<string, Player>] is an association list in insertion order, which
      is the order in which a JavaScript [Map] enumerates; [Set<string>] is a
      list of its members.
    - The methods run in a small state monad over a [World]: the room object
      itself ([this]) together with the resources of the event loop that the
      class touches: the messages emitted on the socket server, the live
      interval timers, the pending time-outs and the stream read by
      [Math.random]. *)

From Stdlib Require Import List String Ascii ZArith QArith Qround Qminmax Qabs Qpower
  Qreduction Bool Lia Lqa.
From Stdlib Require DecimalString.
Import ListNotations.

Local Open Scope string_scope.
Local Open Scope list_scope.
Local Open Scope Z_scope.

(** ** Types *)

Module Player.
Record t : Type := mk {
  id : string;
  name : string;
  color : string;
  avatar : string;
  progress : Q;
  score : Z;
  streak : Z;
  socketId : option string
}.

Definition with_progress (v : Q) (p : t) : t :=
  mk (id p) (name p) (color p) (avatar p) v (score p) (streak p) (socketId p).
Definition with_score (v : Z) (p : t) : t :=
  mk (id p) (name p) (color p) (avatar p) (progress p) v (streak p) (socketId p).
Definition with_streak (v : Z) (p : t) : t :=
  mk (id p) (name p) (color p) (avatar p) (progress p) (score p) v (socketId p).
End Player.

Module MCQ.
Record t : Type := mk {
  id : string;
  q : string;
  choices : list string;
  answerIndex : Z
}.
End MCQ.

Module GameStateWire.
Record t : Type := mk {
  started : bool;
  timeLeft : Z;
  question : option MCQ.t;
  players : list Player.t;
  finished : list string
}.
End GameStateWire.

(** ** Static content *)

Definition QUESTIONS : list MCQ.t :=
  [ MCQ.mk "q1" "What does the server do in this game?"
      ["Draws cars only"; "Keeps time, tallies scores, referees the race"; "Picks random"; "Streams music"] 1
  ; MCQ.mk "q2" "A correct answer does what?"
      ["Brakes"; "Teleports back"; "Moves forward"; "Changes color"] 2
  ; MCQ.mk "q3" "How many winners are crowned?"
      ["1"; "2"; "3"; "Unlimited"] 2
  ; MCQ.mk "q4" "Fair play means…"
      ["Share answers"; "Honest answers only"; "Turn off timer"; "Use two browsers"] 1
  ; MCQ.mk "q5" "Speed bonus triggers when…"
      ["Answer quickly"; "Refresh page"; "Skip"; "Change avatar"] 0 ].

Definition AVATARS : list string :=
  ["🚗"; "🏎️"; "🚙"; "🚕"; "🚓"; "🛻"; "🚐"; "🚘"].

Definition TRACK_LEN : Z := 100.
Definition BASE_PUSH : Z := 18.

(** [Math.round]: the nearest integer, a half rounding up. *)
Definition Math_round (x : Q) : Z := Qfloor (x + (1 # 2)).

(** [clamp = (n, min = 0, max = 100) => Math.max(min, Math.min(max, n))] *)
Definition clamp (n min max : Q) : Q := Qmax min (Qmin max n).

(** [array[i]] for a numeric index: [undefined] out of range. *)
Definition at_index {A : Type} (l : list A) (i : Z) : option A :=
  if i <? 0 then None else nth_error l (Z.to_nat i).

(** *** [uid = () => Math.random().toString(36).slice(2, 9)]

    The rendering of a fraction in radix 36 is left to the engine by the
    language standard.  [toString36] writes the digits of the exact
    expansion ("0" for zero, "0." followed by the digits otherwise); an
    engine stops earlier and rounds the last digit it writes, so that its
    digits can differ from these ([toString36_v8] below follows the engine).
    A double below one has at most 1074 binary digits, hence at most 537
    digits in radix 36: the fuel of [toString36] is never exhausted on a
    value [Math.random] can return. *)

Definition digit36 (d : Z) : ascii :=
  if d <? 10 then ascii_of_nat (Z.to_nat (48 + d)) else ascii_of_nat (Z.to_nat (87 + d)).

Fixpoint fraction36 (fuel : nat) (x : Q) : string :=
  match fuel with
  | O => EmptyString
  | S fuel' =>
      if Qeq_bool x 0 then EmptyString
      else let y := Qred (x * 36) in
           let d := Qfloor y in
           String (digit36 d) (fraction36 fuel' (y - inject_Z d))
  end.

Definition toString36 (r : Q) : string :=
  if Qeq_bool r 0 then "0" else ("0." ++ fraction36 1100 r)%string.

(** [s.slice(from, to)] for [0 <= from <= to]. *)
Definition slice (from to : nat) (s : string) : string := substring from (to - from) s.

Definition uid_of (r : Q) : string := slice 2 9 (toString36 r).

(** Decimal rendering of an integer, as in a template literal. *)
Definition toString10 (n : Z) : string := DecimalString.NilZero.string_of_int (Z.to_int n).

(** ** [Map<string, V>] and [Set<string>] *)

Module JsMap.
Section ops.
Context {V : Type}.
Definition t := list (string * V).

Fixpoint get (m : t) (k : string) : option V :=
  match m with
  | [] => None
  | (k', v) :: m' => if String.eqb k' k then Some v else get m' k
  end.

(** [set] keeps the place of a key that is present and appends a new one. *)
Fixpoint set (m : t) (k : string) (v : V) : t :=
  match m with
  | [] => [(k, v)]
  | (k', v') :: m' => if String.eqb k' k then (k', v) :: m' else (k', v') :: set m' k v
  end.

Definition keys (m : t) : list string := map fst m.
Definition values (m : t) : list V := map snd m.

(** [forEach] with a callback that mutates each value in place. *)
Definition forEach (f : V -> V) (m : t) : t := map (fun kv => (fst kv, f (snd kv))) m.
End ops.
Arguments t : clear implicits.
End JsMap.

Module JsSet.
Definition t := list string.
Definition has (s : t) (k : string) : bool := existsb (String.eqb k) s.
Definition add (s : t) (k : string) : t := if has s k then s else s ++ [k].
Definition clear (s : t) : t := [].
End JsSet.

(** ** Room model *)

Module GameRoom.
Record t : Type := mk {
  id : string;
  started : bool;
  currentIndex : Z;
  timeLeft : Z;
  players : JsMap.t Player.t;
  finishedOrder : list string;
  interval : option nat;
  answered : JsSet.t
}.

Definition with_started (v : bool) (r : t) : t :=
  mk (id r) v (currentIndex r) (timeLeft r) (players r) (finishedOrder r) (interval r) (answered r).
Definition with_currentIndex (v : Z) (r : t) : t :=
  mk (id r) (started r) v (timeLeft r) (players r) (finishedOrder r) (interval r) (answered r).
Definition with_timeLeft (v : Z) (r : t) : t :=
  mk (id r) (started r) (currentIndex r) v (players r) (finishedOrder r) (interval r) (answered r).
Definition with_players (v : JsMap.t Player.t) (r : t) : t :=
  mk (id r) (started r) (currentIndex r) (timeLeft r) v (finishedOrder r) (interval r) (answered r).
Definition with_finishedOrder (v : list string) (r : t) : t :=
  mk (id r) (started r) (currentIndex r) (timeLeft r) (players r) v (interval r) (answered r).
Definition with_interval (v : option nat) (r : t) : t :=
  mk (id r) (started r) (currentIndex r) (timeLeft r) (players r) (finishedOrder r) v (answered r).
Definition with_answered (v : JsSet.t) (r : t) : t :=
  mk (id r) (started r) (currentIndex r) (timeLeft r) (players r) (finishedOrder r) (interval r) v.

(** The field initialisers and the constructor of the class. *)
Definition new (id : string) : t := mk id false 0 20 [] [] None [].

(** [wire()] reads the room only. *)
Definition wire (r : t) : GameStateWire.t :=
  GameStateWire.mk
    (started r)
    (timeLeft r)
    (at_index QUESTIONS (currentIndex r))
    (JsMap.values (players r))
    (firstn 3 (finishedOrder r)).
End GameRoom.

(** ** The world a room runs in *)

(** [emitted]: the snapshots sent with [io.to(id).emit("state:update", _)],
    oldest first, each with the room it was addressed to.
    [intervals]: the handles of the interval timers that are running.
    [timeouts]: the delays of the [setTimeout(() => this.next(), _)] calls
    that have not fired yet, oldest first.
    [nextTimer]: the next timer handle the runtime hands out.
    [random], [drawn]: the values [Math.random] returns, and how many of them
    have been consumed. *)
Record World : Type := mkWorld {
  this : GameRoom.t;
  emitted : list (string * GameStateWire.t);
  intervals : list nat;
  timeouts : list Z;
  nextTimer : nat;
  random : nat -> Q;
  drawn : nat
}.

Definition M (A : Type) : Type := World -> A * World.

Definition ret {A : Type} (a : A) : M A := fun w => (a, w).
Definition bind {A B : Type} (m : M A) (k : A -> M B) : M B :=
  fun w => let (a, w') := m w in k a w'.

Declare Scope js_scope.
Delimit Scope js_scope with js.
Notation "x <- m ;; k" := (bind m (fun x => k))
  (at level 61, m at next level, right associativity) : js_scope.
Notation "m ;; k" := (bind m (fun _ => k))
  (at level 61, right associativity) : js_scope.

(** The final world of a computation run for its effects. *)
Definition exec {A : Type} (m : M A) (w : World) : World := snd (m w).

Definition get_this : M GameRoom.t := fun w => (this w, w).

(** An assignment to a field of [this]. *)
Definition assign (f : GameRoom.t -> GameRoom.t) : M unit :=
  fun w => (tt, mkWorld (f (this w)) (emitted w) (intervals w) (timeouts w)
                        (nextTimer w) (random w) (drawn w)).

Definition Math_random : M Q :=
  fun w => (random w (drawn w),
            mkWorld (this w) (emitted w) (intervals w) (timeouts w)
                    (nextTimer w) (random w) (S (drawn w))).

Definition io_emit (room : string) (s : GameStateWire.t) : M unit :=
  fun w => (tt, mkWorld (this w) (emitted w ++ [(room, s)]) (intervals w) (timeouts w)
                        (nextTimer w) (random w) (drawn w)).

(** [setInterval(() => this.tick(), ms)]: a fresh handle, now running. *)
Definition setInterval (ms : Z) : M nat :=
  fun w => (nextTimer w,
            mkWorld (this w) (emitted w) (intervals w ++ [nextTimer w]) (timeouts w)
                    (S (nextTimer w)) (random w) (drawn w)).

Definition clearInterval (h : nat) : M unit :=
  fun w => (tt, mkWorld (this w) (emitted w) (remove Nat.eq_dec h (intervals w)) (timeouts w)
                        (nextTimer w) (random w) (drawn w)).

(** [setTimeout(() => this.next(), ms)]: one more pending call of [next]. *)
Definition setTimeout (ms : Z) : M unit :=
  fun w => (tt, mkWorld (this w) (emitted w) (intervals w) (timeouts w ++ [ms])
                        (S (nextTimer w)) (random w) (drawn w)).

(** ** The methods of [GameRoom] *)

Section methods.
Local Open Scope js_scope.
Import GameRoom.

Definition uid : M string :=
  r <- Math_random ;; ret (uid_of r).

Definition emitState : M unit :=
  r <- get_this ;; io_emit (id r) (wire r).

Definition join (socketId name color : string) : M Player.t :=
  i <- uid ;;
  n <- (if String.eqb name "" then
          r <- Math_random ;; ret ("Racer-" ++ toString10 (Qfloor (r * 99)))%string
        else ret name) ;;
  a <- (r <- Math_random ;;
        ret (List.nth (Z.to_nat (Qfloor (r * inject_Z (Z.of_nat (List.length AVATARS))))) AVATARS "")) ;;
  let player := Player.mk i n color a 0 0 0 (Some socketId) in
  assign (fun r => with_players (JsMap.set (players r) (Player.id player) player) r) ;;
  emitState ;;
  ret player.

Definition start : M unit :=
  r <- get_this ;;
  if started r then ret tt else
  assign (with_started true) ;;
  assign (with_currentIndex 0) ;;
  assign (with_timeLeft 20) ;;
  assign (with_finishedOrder []) ;;
  assign (fun r => with_answered (JsSet.clear (answered r)) r) ;;
  h <- setInterval 1000 ;;
  assign (with_interval (Some h)) ;;
  emitState.

Definition reset : M unit :=
  assign (with_started false) ;;
  assign (with_currentIndex 0) ;;
  assign (with_timeLeft 20) ;;
  assign (with_finishedOrder []) ;;
  assign (fun r => with_answered (JsSet.clear (answered r)) r) ;;
  assign (fun r => with_players
    (JsMap.forEach (fun p => Player.with_streak 0 (Player.with_score 0 (Player.with_progress 0 p)))
                   (players r)) r) ;;
  r <- get_this ;;
  match interval r with Some h => clearInterval h | None => ret tt end ;;
  emitState.

Definition next : M unit :=
  r <- get_this ;;
  (if currentIndex r <? Z.of_nat (List.length QUESTIONS) - 1 then
     assign (with_currentIndex (currentIndex r + 1)) ;;
     assign (with_timeLeft 20) ;;
     assign (fun r => with_answered (JsSet.clear (answered r)) r)
   else
     assign (with_started false) ;;
     match interval r with Some h => clearInterval h | None => ret tt end) ;;
  emitState.

(** The player object [p] lives in the map under [playerId]; an assignment
    to one of its fields is a replacement of the value stored there. *)
Definition store (playerId : string) (p : Player.t) : M unit :=
  assign (fun r => with_players (JsMap.set (players r) playerId p) r).

Definition answer (playerId : string) (choiceIndex : Z) : M unit :=
  r <- get_this ;;
  if negb (started r) then ret tt else
  match at_index QUESTIONS (currentIndex r) with
  | None => ret tt
  | Some q =>
  if JsSet.has (answered r) playerId then ret tt else
  match JsMap.get (players r) playerId with
  | None => ret tt
  | Some p =>
  assign (fun r => with_answered (JsSet.add (answered r) playerId) r) ;;
  let isCorrect := choiceIndex =? MCQ.answerIndex q in
  if negb isCorrect then
    store playerId (Player.with_streak 0 p) ;; emitState
  else
  let speedBonus := (inject_Z (Z.max 0 (timeLeft r - 5)) * 0.8)%Q in
  let push := (inject_Z BASE_PUSH + speedBonus + inject_Z (Player.streak p * 4))%Q in
  let p := Player.with_progress (clamp (Player.progress p + push) 0 (inject_Z TRACK_LEN)) p in
  let p := Player.with_score
             (Player.score p + Math_round (100 + speedBonus * 5 + inject_Z (Player.streak p * 10))) p in
  let p := Player.with_streak (Player.streak p + 1) p in
  store playerId p ;;
  r <- get_this ;;
  (if Qle_bool 100 (Player.progress p)
      && negb (existsb (String.eqb (Player.id p)) (finishedOrder r))
      && (Z.of_nat (List.length (finishedOrder r)) <? 3)
   then assign (with_finishedOrder (finishedOrder r ++ [Player.id p]))
   else ret tt) ;;
  emitState
  end end.

Definition tick : M unit :=
  r <- get_this ;;
  if negb (started r) then ret tt else
  assign (with_timeLeft (Z.max 0 (timeLeft r - 1))) ;;
  emitState ;;
  r <- get_this ;;
  if timeLeft r =? 0 then setTimeout 400 else ret tt.

(** A pending time-out fires: it leaves the queue and calls [next]. *)
Definition fire : M unit :=
  fun w =>
    match timeouts w with
    | [] => (tt, w)
    | _ :: rest =>
        next (mkWorld (this w) (emitted w) (intervals w) rest
                      (nextTimer w) (random w) (drawn w))
    end.
End methods.

(** ** Runs of a room *)

Inductive Event : Type :=
| Join (socketId name color : string)
| Start
| Tick
| Next
| Reset
| Answer (playerId : string) (choiceIndex : Z)
| Fire.

Definition step (w : World) (e : Event) : World :=
  match e with
  | Join s n c => exec (join s n c) w
  | Start => exec start w
  | Tick => exec tick w
  | Next => exec next w
  | Reset => exec reset w
  | Answer p c => exec (answer p c) w
  | Fire => exec fire w
  end.

Definition run (w : World) (es : list Event) : World := fold_left step es w.

(** A room just constructed, before any event. *)
Definition initial (id : string) (rnd : nat -> Q) : World :=
  mkWorld (GameRoom.new id) [] [] [] 0 rnd 0.

Definition reachable (w : World) : Prop :=
  exists id rnd es, w = run (initial id rnd) es.

(** ** The amounts of a correct answer *)

(** The speed bonus and the two amounts a correct answer adds, as the
    method computes them from the countdown and the streak. *)
Definition speedBonus_at (timeLeft : Z) : Q := inject_Z (Z.max 0 (timeLeft - 5)) * 0.8.
Definition push_at (timeLeft streak : Z) : Q :=
  inject_Z BASE_PUSH + speedBonus_at timeLeft + inject_Z (streak * 4).
Definition points_at (timeLeft streak : Z) : Z :=
  Math_round (100 + speedBonus_at timeLeft * 5 + inject_Z (streak * 10)).

(** ** Invariants of a room *)

Definition player_ok (p : Player.t) : Prop :=
  (0 <= Player.progress p <= 100)%Q /\ 0 <= Player.score p /\ 0 <= Player.streak p.

Definition room_ok (r : GameRoom.t) : Prop :=
  0 <= GameRoom.currentIndex r <= Z.of_nat (List.length QUESTIONS) - 1
  /\ 0 <= GameRoom.timeLeft r <= 20
  /\ (forall k p, In (k, p) (GameRoom.players r) -> player_ok p)
  /\ (List.length (GameRoom.finishedOrder r) <= 3)%nat
  /\ NoDup (GameRoom.finishedOrder r).

(** The interval timer runs exactly while the room is started, and it is
    the one whose handle the room holds. *)
Definition timer_ok (w : World) : Prop :=
  if GameRoom.started (this w)
  then exists h, GameRoom.interval (this w) = Some h /\ intervals w = [h]
  else intervals w = [].

(** ** Arrivals at the finish line

    The finish order is emptied by [reset] and by a [start] that takes
    effect.  A player arrives when an answer of theirs is accepted, is
    correct, and leaves their progress at 100 or more ([arrival_r] and
    [arrivals_r], with the methods they observe). *)

Definition clears (w : World) (e : Event) : bool :=
  match e with
  | Reset => true
  | Start => negb (GameRoom.started (this w))
  | _ => false
  end.

(** The members of a list in the order of their first occurrence. *)
Definition distinct (l : list string) : list string := fold_left JsSet.add l [].

(** ** Random sources *)

(** A random source whose values are pairwise different doubles that agree
    on their first seven digits in radix 36. *)
Definition close_draws : nat -> Q :=
  fun n => ((1 # 2) + (Z.of_nat (S n) # (Pos.pow 2 52)))%Q.

(** ** Players and their ids *)

(** The players of a room are stored under their own ids, once each, and
    the answered set and the finish order only name players of the room. *)
Definition keyed (r : GameRoom.t) : Prop :=
  NoDup (JsMap.keys (GameRoom.players r))
  /\ (forall k p, In (k, p) (GameRoom.players r) -> Player.id p = k)
  /\ NoDup (GameRoom.answered r)
  /\ (forall k, In k (GameRoom.answered r) -> In k (JsMap.keys (GameRoom.players r)))
  /\ (forall k, In k (GameRoom.finishedOrder r) -> In k (JsMap.keys (GameRoom.players r))).

(** ** The server: the registry of rooms and the socket handlers

    [rooms] is the process-wide [Map] from room id to room object.  The
    other fields are the event-loop resources of the [World], shared by all
    rooms, with a pending time-out now naming the room whose [next] it
    calls, and two logs of what the handlers do to a socket:
    [memberships] for [socket.join(room.id)] and [replies] for
    [socket.emit("room:joined", { player })]. *)
Record Server : Type := mkServer {
  rooms : JsMap.t GameRoom.t;
  sent : list (string * GameStateWire.t);
  memberships : list (string * string);
  replies : list (string * Player.t);
  running : list nat;
  pending : list (string * Z);
  timerCount : nat;
  entropy : nat -> Q;
  used : nat
}.

(** [x || d] for an optional string: [undefined] and [""] are falsy. *)
Definition or_else (x : option string) (d : string) : string :=
  match x with
  | Some s => if String.eqb s "" then d else s
  | None => d
  end.

(** [getRoom = (id) => rooms.get(id) || (() => { const r = new GameRoom(id, io);
    rooms.set(id, r); return r; })()] *)
Definition getRoom (id : string) (s : Server) : GameRoom.t * Server :=
  match JsMap.get (rooms s) id with
  | Some r => (r, s)
  | None =>
      let r := GameRoom.new id in
      (r, mkServer (JsMap.set (rooms s) id r) (sent s) (memberships s) (replies s)
                   (running s) (pending s) (timerCount s) (entropy s) (used s))
  end.

(** A method call on the room object [r] that the registry holds under
    [key]: the method runs in the world of that room, the object in the
    registry is the one it has mutated, and the time-outs it has set are
    queued for this room. *)
Definition call {A : Type} (key : string) (r : GameRoom.t) (m : M A) (s : Server)
  : A * Server :=
  let (a, w') := m (mkWorld r (sent s) (running s) [] (timerCount s) (entropy s) (used s)) in
  (a, mkServer (JsMap.set (rooms s) key (this w')) (emitted w') (memberships s) (replies s)
               (intervals w') (pending s ++ map (pair key) (timeouts w'))
               (nextTimer w') (random w') (drawn w')).

(** The payloads of the five socket events; a field that may be absent is
    an [option]. *)
Inductive Message : Type :=
| RoomJoin (roomId name color : option string)
| RaceStart (roomId : option string)
| RaceNext (roomId : option string)
| RaceReset (roomId : option string)
| AnswerSubmit (roomId : option string) (playerId : string) (choiceIndex : Z).

Definition roomId_of (msg : Message) : option string :=
  match msg with
  | RoomJoin roomId _ _ => roomId
  | RaceStart roomId => roomId
  | RaceNext roomId => roomId
  | RaceReset roomId => roomId
  | AnswerSubmit roomId _ _ => roomId
  end.

(** [getRoom(roomId || "main").method()] *)
Definition on_room (roomId : option string) (m : M unit) (s : Server) : Server :=
  let (room, s1) := getRoom (or_else roomId "main") s in
  snd (call (or_else roomId "main") room m s1).

(** The handlers registered on a connected socket, [socket] being its id. *)
Definition handle (socket : string) (msg : Message) (s : Server) : Server :=
  match msg with
  | RoomJoin roomId name color =>
      let (room, s1) := getRoom (or_else roomId "main") s in
      let s2 := mkServer (rooms s1) (sent s1)
                         (memberships s1 ++ [(socket, GameRoom.id room)]) (replies s1)
                         (running s1) (pending s1) (timerCount s1) (entropy s1) (used s1) in
      let (player, s3) :=
        call (or_else roomId "main") room
             (join socket (or_else name "") (or_else color "#00f6ff")) s2 in
      mkServer (rooms s3) (sent s3) (memberships s3) (replies s3 ++ [(socket, player)])
               (running s3) (pending s3) (timerCount s3) (entropy s3) (used s3)
  | RaceStart roomId => on_room roomId start s
  | RaceNext roomId => on_room roomId next s
  | RaceReset roomId => on_room roomId reset s
  | AnswerSubmit roomId playerId choiceIndex => on_room roomId (answer playerId choiceIndex) s
  end.

(** What happens to a server: a message arrives on a socket, the interval
    timer of a room fires, or the oldest pending time-out fires. *)
Inductive ServerEvent : Type :=
| Receive (socket : string) (msg : Message)
| IntervalFires (room : string)
| TimeoutFires.

Definition serve (s : Server) (e : ServerEvent) : Server :=
  match e with
  | Receive socket msg => handle socket msg s
  | IntervalFires k =>
      match JsMap.get (rooms s) k with
      | Some r => snd (call k r tick s)
      | None => s
      end
  | TimeoutFires =>
      match pending s with
      | [] => s
      | (k, _) :: rest =>
          let s' := mkServer (rooms s) (sent s) (memberships s) (replies s)
                             (running s) rest (timerCount s) (entropy s) (used s) in
          match JsMap.get (rooms s') k with
          | Some r => snd (call k r next s')
          | None => s'
          end
      end
  end.

(** The room an event is about, if any. *)
Definition target (s : Server) (e : ServerEvent) : option string :=
  match e with
  | Receive _ msg => Some (or_else (roomId_of msg) "main")
  | IntervalFires k => Some k
  | TimeoutFires => match pending s with [] => None | (k, _) :: _ => Some k end
  end.

Definition boot (rnd : nat -> Q) : Server := mkServer [] [] [] [] [] [] 0 rnd 0.


(** The world a method of room [r] runs in, and the server once the method
    has returned: [call] is the one followed by the other. *)
Definition world_of (r : GameRoom.t) (s : Server) : World :=
  mkWorld r (sent s) (running s) [] (timerCount s) (entropy s) (used s).

Definition absorb (key : string) (s : Server) (w' : World) : Server :=
  mkServer (JsMap.set (rooms s) key (this w')) (emitted w') (memberships s) (replies s)
           (intervals w') (pending s ++ map (pair key) (timeouts w'))
           (nextTimer w') (random w') (drawn w').


(** ** The client: what it shows of a snapshot

    The race track and the podium of the browser client are functions of the
    players and the finish order of the last snapshot received. *)








(** ** Binary64 arithmetic

    A finite binary64 number is a rational; an operation of the program on
    such numbers yields the exact result rounded to the nearest binary64
    number, a tie going to the even significand.  Overflow to infinity,
    which needs a result of [2^1024] or more, is not modelled. *)

Definition pow2 (e : Z) : Q :=
  match e with
  | Z0 => 1
  | Zpos p => inject_Z (Z.pow_pos 2 p)
  | Zneg p => 1 # (Pos.pow 2 p)
  end.

(** The integer part of the base-2 logarithm of a positive rational. *)
Definition ilog2 (q : Q) : Z :=
  let l := Z.log2 (Qnum q) - Z.log2 (Z.pos (Qden q)) in
  if Qle_bool (pow2 l) q then l else l - 1.

Definition round_half_even (q : Q) : Z :=
  let f := Qfloor q in
  match Qcompare (q - inject_Z f) (1 # 2) with
  | Lt => f
  | Gt => f + 1
  | Eq => if Z.even f then f else f + 1
  end.

(** The exponent of the unit in the last place: 53 significant bits, and
    [2^-1074] for the subnormal numbers. *)
Definition ulp_exponent (q : Q) : Z := Z.max (-1074) (ilog2 (Qabs q) - 52).

Definition round64 (x : Q) : Q :=
  let q := Qred x in
  if Qeq_bool q 0 then 0
  else let e := ulp_exponent q in
       Qred (inject_Z (round_half_even (q / pow2 e)) * pow2 e).

(** The binary64 number that follows a non-negative one. *)
Definition next_double (x : Q) : Q :=
  let q := Qred x in
  if Qeq_bool q 0 then pow2 (-1074) else Qred (q + pow2 (ulp_exponent q)).

Definition Qlt_bool (x y : Q) : bool := negb (Qle_bool y x).

(** ** The rendering of a fraction in radix 36 by the engine

    Modelled from the engine: Node.js runs the server on V8, whose
    [Number.prototype.toString(radix)] is the routine [DoubleToRadixCString].
    For a value in [[0, 1)] it writes digits until the remainder is below
    [delta], half the distance to the next double, and rounds the last
    digit, with carry, when the remainder is above one half; all of it in
    binary64 arithmetic. *)

(** The carry through the digits written so far, last digit first; an
    empty result is a carry into the integer part. *)
Fixpoint carry36 (rev_digits : list Z) : list Z :=
  match rev_digits with
  | [] => []
  | d :: rest => if d + 1 <? 36 then (d + 1) :: rest else carry36 rest
  end.

Fixpoint v8_fraction (fuel : nat) (fraction delta : Q) (rev_digits : list Z)
  : list Z * bool :=
  match fuel with
  | O => (rev_digits, false)
  | S fuel' =>
      let fraction := round64 (fraction * 36) in
      let delta := round64 (delta * 36) in
      let digit := Qfloor fraction in
      let rev_digits := digit :: rev_digits in
      let fraction := round64 (fraction - inject_Z digit) in
      if (Qlt_bool (1 # 2) fraction || (Qeq_bool fraction (1 # 2) && Z.odd digit))
         && Qlt_bool 1 (round64 (fraction + delta))
      then (carry36 rev_digits, match carry36 rev_digits with [] => true | _ => false end)
      else if Qle_bool delta fraction then v8_fraction fuel' fraction delta rev_digits
           else (rev_digits, false)
  end.

Definition toString36_v8 (value : Q) : string :=
  let delta := Qmax (next_double 0)
                    (round64 ((1 # 2) * round64 (next_double value - value))) in
  if Qle_bool delta value then
    let (rev_digits, up) := v8_fraction 1100 value delta [] in
    ((if up then "1" else "0")
     ++ match rev_digits with
        | [] => ""
        | _ => "." ++ string_of_list_ascii (map digit36 (rev rev_digits))
        end)%string
  else "0".

(** ** The methods with rounded arithmetic

    [join] and [answer] once more, each arithmetic operation followed by the
    rounding [rnd] of its result and the numeric literal [0.8] by its own
    rounding; [render36] is [Number.prototype.toString(36)].  The other
    methods do no arithmetic on fractions and are used as they are. *)

Section rounded.
Variable rnd : Q -> Q.
Variable render36 : Q -> string.
Local Open Scope js_scope.
Import GameRoom.

Definition uid_r : M string :=
  r <- Math_random ;; ret (slice 2 9 (render36 r)).

Definition join_r (socketId name color : string) : M Player.t :=
  i <- uid_r ;;
  n <- (if String.eqb name "" then
          r <- Math_random ;; ret ("Racer-" ++ toString10 (Qfloor (rnd (r * 99))))%string
        else ret name) ;;
  a <- (r <- Math_random ;;
        ret (List.nth
               (Z.to_nat (Qfloor (rnd (r * inject_Z (Z.of_nat (List.length AVATARS))))))
               AVATARS "")) ;;
  let player := Player.mk i n color a 0 0 0 (Some socketId) in
  assign (fun r => with_players (JsMap.set (players r) (Player.id player) player) r) ;;
  emitState ;;
  ret player.

Definition answer_r (playerId : string) (choiceIndex : Z) : M unit :=
  r <- get_this ;;
  if negb (started r) then ret tt else
  match at_index QUESTIONS (currentIndex r) with
  | None => ret tt
  | Some q =>
  if JsSet.has (answered r) playerId then ret tt else
  match JsMap.get (players r) playerId with
  | None => ret tt
  | Some p =>
  assign (fun r => with_answered (JsSet.add (answered r) playerId) r) ;;
  let isCorrect := choiceIndex =? MCQ.answerIndex q in
  if negb isCorrect then
    store playerId (Player.with_streak 0 p) ;; emitState
  else
  let speedBonus := rnd (inject_Z (Z.max 0 (timeLeft r - 5)) * rnd 0.8)%Q in
  let push := rnd (rnd (inject_Z BASE_PUSH + speedBonus)
                   + rnd (inject_Z (Player.streak p * 4)))%Q in
  let p := Player.with_progress
             (clamp (rnd (Player.progress p + push)) 0 (inject_Z TRACK_LEN)) p in
  let p := Player.with_score
             (Player.score p
              + Math_round (rnd (rnd (100 + rnd (speedBonus * 5))
                                 + rnd (inject_Z (Player.streak p * 10))))) p in
  let p := Player.with_streak (Player.streak p + 1) p in
  store playerId p ;;
  r <- get_this ;;
  (if Qle_bool 100 (Player.progress p)
      && negb (existsb (String.eqb (Player.id p)) (finishedOrder r))
      && (Z.of_nat (List.length (finishedOrder r)) <? 3)
   then assign (with_finishedOrder (finishedOrder r ++ [Player.id p]))
   else ret tt) ;;
  emitState
  end end.

(** The speed bonus and the two amounts a correct answer adds, as
    [answer_r] computes them from the countdown and the streak. *)
Definition speedBonus_r (timeLeft : Z) : Q :=
  rnd (inject_Z (Z.max 0 (timeLeft - 5)) * rnd 0.8)%Q.
Definition push_r (timeLeft streak : Z) : Q :=
  rnd (rnd (inject_Z BASE_PUSH + speedBonus_r timeLeft) + rnd (inject_Z (streak * 4)))%Q.
Definition points_r (timeLeft streak : Z) : Z :=
  Math_round (rnd (rnd (100 + rnd (speedBonus_r timeLeft * 5))
                   + rnd (inject_Z (streak * 10))))%Q.

Definition step_r (w : World) (e : Event) : World :=
  match e with
  | Join s n c => exec (join_r s n c) w
  | Start => exec start w
  | Tick => exec tick w
  | Next => exec next w
  | Reset => exec reset w
  | Answer p c => exec (answer_r p c) w
  | Fire => exec fire w
  end.

Definition run_r (w : World) (es : list Event) : World := fold_left step_r es w.

(** The player who arrives at the finish line with an event, if any. *)
Definition arrival_r (w : World) (e : Event) : option string :=
  match e with
  | Answer playerId choiceIndex =>
      let w' := step_r w e in
      if negb (JsSet.has (answered (this w)) playerId)
         && JsSet.has (answered (this w')) playerId
      then match at_index QUESTIONS (currentIndex (this w)),
                 JsMap.get (players (this w')) playerId with
           | Some q, Some p' =>
               if (choiceIndex =? MCQ.answerIndex q) && Qle_bool 100 (Player.progress p')
               then Some (Player.id p') else None
           | _, _ => None
           end
      else None
  | _ => None
  end.

(** The arrivals of a run since the finish order was last emptied, in
    order, a player being listed each time they arrive. *)
Fixpoint arrivals_r (w : World) (es : list Event) (log : list string) : list string :=
  match es with
  | [] => log
  | e :: es' =>
      arrivals_r (step_r w e) es'
        (if clears w e then []
         else match arrival_r w e with Some i => log ++ [i] | None => log end)
  end.

Fixpoint join_all_r (args : list (string * string * string)) : M (list Player.t) :=
  match args with
  | [] => ret []
  | (socketId, name, color) :: rest =>
      bind (join_r socketId name color) (fun p =>
      bind (join_all_r rest) (fun ps => ret (p :: ps)))
  end.

(** The ids [uid_r] produces during such a sequence, from the values
    [random] of [Math.random]. *)
Fixpoint ids_drawn (random : nat -> Q) (k : nat) (args : list (string * string * string))
  : list string :=
  match args with
  | [] => []
  | (_, name, _) :: rest =>
      slice 2 9 (render36 (random k))
      :: ids_drawn random (k + (if String.eqb name "" then 3 else 2)) rest
  end.
End rounded.

(** *** The program's arithmetic: binary64, rendered by the engine *)

Definition answer64 : string -> Z -> M unit := answer_r round64.
Definition join64 : string -> string -> string -> M Player.t := join_r round64 toString36_v8.
Definition step64 : World -> Event -> World := step_r round64 toString36_v8.
Definition run64 : World -> list Event -> World := run_r round64 toString36_v8.
Definition arrivals64 : World -> list Event -> list string -> list string :=
  arrivals_r round64 toString36_v8.
Definition join_all64 : list (string * string * string) -> M (list Player.t) :=
  join_all_r round64 toString36_v8.
Definition uid64_of (r : Q) : string := slice 2 9 (toString36_v8 r).

(** The worlds the program can be in: those a run of events reaches from a
    room just constructed. *)
Definition reachable64 (w : World) : Prop :=
  exists id random es, w = run64 (initial id random) es.

(** Random sources made of binary64 numbers: the negative powers of two,
    the binary64 number nearest to one third, and two numbers that differ
    in their last bits. *)
Definition halving : nat -> Q := fun n => 1 # (Pos.pow 2 (Pos.of_succ_nat n)).

Definition thirds : nat -> Q := fun _ => 6004799503160661 # 18014398509481984.

Definition near_draws : nat -> Q :=
  fun n => match n with
           | O => 1084707870888647 # 1125899906842624
           | 2%nat => 4338831483554589 # 4503599627370496
           | _ => 1 # 2
           end.

(** ** Sample runs

    A source of randomness that always returns one half, for which [uid]
    yields ["i"], and a room with one player in which a round has begun. *)
Definition half : nat -> Q := fun _ => 1 # 2.

Definition sample_started : World :=
  run (initial "main" half) [Join "s1" "Ann" "red"; Start].

Definition sample_player : Player.t :=
  Player.mk "i" "Ann" "red" "🚓" 0 0 0 (Some "s1").

Definition sample_question : MCQ.t :=
  MCQ.mk "q1" "What does the server do in this game?"
    ["Draws cars only"; "Keeps time, tallies scores, referees the race"; "Picks random"; "Streams music"] 1.

(** ** Proof automation for the methods *)

(** Run a method on a world whose fields are exposed.  The reduction is
    call-by-value, and restricted to the monad, the methods and the record
    projections: arithmetic, strings and containers are left as written. *)
Ltac js_eval :=
  cbv beta iota zeta delta
    [exec step fire tick answer next reset start join store emitState uid
     bind ret get_this assign Math_random io_emit setInterval clearInterval setTimeout
     this emitted intervals timeouts nextTimer random drawn fst snd negb
     GameRoom.id GameRoom.started GameRoom.currentIndex GameRoom.timeLeft
     GameRoom.players GameRoom.finishedOrder GameRoom.interval GameRoom.answered
     GameRoom.with_started GameRoom.with_currentIndex GameRoom.with_timeLeft
     GameRoom.with_players GameRoom.with_finishedOrder GameRoom.with_interval
     GameRoom.with_answered JsSet.clear].

Ltac js_world w :=
  destruct w as [[i st ci tl pl fo iv an] em its tos nt rnd dr]; js_eval.

(** The same for the methods with rounded arithmetic. *)
Ltac js_eval_r :=
  cbv beta iota zeta delta
    [exec step_r fire tick answer_r next reset start join_r store emitState uid_r
     bind ret get_this assign Math_random io_emit setInterval clearInterval setTimeout
     this emitted intervals timeouts nextTimer random drawn fst snd negb
     GameRoom.id GameRoom.started GameRoom.currentIndex GameRoom.timeLeft
     GameRoom.players GameRoom.finishedOrder GameRoom.interval GameRoom.answered
     GameRoom.with_started GameRoom.with_currentIndex GameRoom.with_timeLeft
     GameRoom.with_players GameRoom.with_finishedOrder GameRoom.with_interval
     GameRoom.with_answered JsSet.clear].

Ltac js_world_r w :=
  destruct w as [[i st ci tl pl fo iv an] em its tos nt random0 dr]; js_eval_r.

(** The five parts of [room_ok]. *)
Ltac room_split := unfold room_ok; cbn; split; [|split; [|split; [|split]]].

(** * Properties *)

(** ** Containers *)

Lemma JsSet_has_add (s : JsSet.t) (k : string) : JsSet.has (JsSet.add s k) k = true.
Proof.
  unfold JsSet.add. destruct (JsSet.has s k) eqn:E; [exact E|].
  unfold JsSet.has. rewrite existsb_app. cbn. rewrite String.eqb_refl.
  now rewrite orb_true_r.
Qed.

Lemma JsSet_has_In (s : JsSet.t) (k : string) : JsSet.has s k = true <-> In k s.
Proof.
  unfold JsSet.has. rewrite existsb_exists. split.
  - intros [x [Hx Hk]]. apply String.eqb_eq in Hk. now subst.
  - intros H. exists k. split; [exact H | apply String.eqb_refl].
Qed.

Lemma JsMap_get_set_same {V} (m : JsMap.t V) (k : string) (v : V) :
  JsMap.get (JsMap.set m k v) k = Some v.
Proof.
  induction m as [|[k' v'] m IH]; cbn.
  - now rewrite String.eqb_refl.
  - destruct (String.eqb k' k) eqn:E; cbn; rewrite E; [reflexivity | exact IH].
Qed.

Lemma JsMap_get_set_other {V} (m : JsMap.t V) (k k0 : string) (v : V) :
  k0 <> k -> JsMap.get (JsMap.set m k v) k0 = JsMap.get m k0.
Proof.
  intros Hne. induction m as [|[k' v'] m IH]; cbn.
  - destruct (String.eqb k k0) eqn:E; [apply String.eqb_eq in E; congruence | reflexivity].
  - destruct (String.eqb k' k) eqn:E; cbn.
    + apply String.eqb_eq in E. subst k'.
      destruct (String.eqb k k0) eqn:E0; [apply String.eqb_eq in E0; congruence | reflexivity].
    + destruct (String.eqb k' k0); [reflexivity | exact IH].
Qed.

Lemma JsMap_get_In {V} (m : JsMap.t V) (k : string) (v : V) :
  JsMap.get m k = Some v -> In (k, v) m.
Proof.
  induction m as [|[k' v'] m IH]; cbn; [discriminate|].
  destruct (String.eqb k' k) eqn:E.
  - apply String.eqb_eq in E. intros [= ->]. subst. now left.
  - intros H. right. now apply IH.
Qed.

Lemma JsMap_get_some_keys {V} (m : JsMap.t V) (k : string) :
  JsMap.get m k <> None <-> In k (JsMap.keys m).
Proof.
  induction m as [|[k' v'] m IH]; cbn; [tauto|].
  destruct (String.eqb k' k) eqn:E.
  - apply String.eqb_eq in E. subst. split; [now left | discriminate].
  - apply String.eqb_neq in E. rewrite IH. split; [now right | intros [H|H]; [contradiction | exact H]].
Qed.

(** What [set] stores: the old entries, the one under [k] replaced, or [k]
    appended when it is new. *)
Lemma JsMap_set_In {V} (m : JsMap.t V) (k : string) (v : V) (kv : string * V) :
  In kv (JsMap.set m k v) -> kv = (k, v) \/ In kv m.
Proof.
  induction m as [|[k' v'] m IH]; cbn.
  - intros [H|[]]. now left.
  - destruct (String.eqb k' k) eqn:E; cbn.
    + apply String.eqb_eq in E. subst k'. intros [H|H]; [now left | right; now right].
    + intros [H|H]; [right; now left|]. destruct (IH H) as [H'|H']; [now left | right; now right].
Qed.

Lemma JsMap_set_keys_present {V} (m : JsMap.t V) (k : string) (v : V) :
  In k (JsMap.keys m) -> JsMap.keys (JsMap.set m k v) = JsMap.keys m.
Proof.
  induction m as [|[k' v'] m IH]; cbn; [tauto|].
  destruct (String.eqb k' k) eqn:E; cbn; [reflexivity|].
  apply String.eqb_neq in E. intros [H|H]; [contradiction|].
  f_equal. now apply IH.
Qed.

Lemma JsMap_set_keys_absent {V} (m : JsMap.t V) (k : string) (v : V) :
  ~ In k (JsMap.keys m) -> JsMap.keys (JsMap.set m k v) = JsMap.keys m ++ [k].
Proof.
  induction m as [|[k' v'] m IH]; cbn; [reflexivity|].
  intros Hn. destruct (String.eqb k' k) eqn:E.
  - apply String.eqb_eq in E. tauto.
  - cbn. f_equal. apply IH. tauto.
Qed.

(** ** Reachable worlds *)

Lemma run_app (w : World) (es1 es2 : list Event) :
  run w (es1 ++ es2) = run (run w es1) es2.
Proof. apply fold_left_app. Qed.


Lemma reachable_step (w : World) (e : Event) : reachable w -> reachable (step w e).
Proof.
  intros (i & rnd & es & ->). exists i, rnd, (es ++ [e]). now rewrite run_app.
Qed.

Lemma reachable_run (w : World) (es : list Event) : reachable w -> reachable (run w es).
Proof.
  revert w. induction es as [|e es IH]; intros w H; [exact H|].
  cbn. apply IH. now apply reachable_step.
Qed.

(** Induction over the events that led to a world. *)
Lemma reachable_ind (P : World -> Prop) :
  (forall id rnd, P (initial id rnd)) ->
  (forall w e, reachable w -> P w -> P (step w e)) ->
  forall w, reachable w -> P w.
Proof.
  intros H0 Hs w (i & rnd & es & ->).
  induction es as [|e es IH] using rev_ind; [apply H0|].
  rewrite run_app. cbn. apply Hs; [| exact IH].
  now exists i, rnd, es.
Qed.

(** ** The room after each method *)

Lemma this_start (w : World) :
  this (exec start w) =
  if GameRoom.started (this w) then this w
  else GameRoom.mk (GameRoom.id (this w)) true 0 20 (GameRoom.players (this w)) []
                   (Some (nextTimer w)) [].
Proof. js_world w. destruct st; js_eval; reflexivity. Qed.

Lemma this_reset (w : World) :
  this (exec reset w) =
  GameRoom.mk (GameRoom.id (this w)) false 0 20
    (JsMap.forEach (fun p => Player.with_streak 0 (Player.with_score 0 (Player.with_progress 0 p)))
                   (GameRoom.players (this w)))
    [] (GameRoom.interval (this w)) [].
Proof. js_world w. destruct iv; js_eval; reflexivity. Qed.

Lemma this_next (w : World) :
  this (exec next w) =
  if GameRoom.currentIndex (this w) <? 4
  then GameRoom.mk (GameRoom.id (this w)) (GameRoom.started (this w))
         (GameRoom.currentIndex (this w) + 1) 20 (GameRoom.players (this w))
         (GameRoom.finishedOrder (this w)) (GameRoom.interval (this w)) []
  else GameRoom.with_started false (this w).
Proof.
  js_world w. change (Z.of_nat (List.length QUESTIONS) - 1) with 4.
  destruct (ci <? 4); js_eval; [reflexivity|].
  destruct iv; js_eval; reflexivity.
Qed.

Lemma this_tick (w : World) :
  this (exec tick w) =
  if GameRoom.started (this w)
  then GameRoom.with_timeLeft (Z.max 0 (GameRoom.timeLeft (this w) - 1)) (this w)
  else this w.
Proof.
  js_world w. destruct st; js_eval; [|reflexivity].
  destruct (Z.max 0 (tl - 1) =? 0); js_eval; reflexivity.
Qed.

Lemma this_fire (w : World) :
  this (exec fire w) = match timeouts w with [] => this w | _ :: _ => this (exec next w) end.
Proof.
  unfold exec at 1, fire. destruct (timeouts w) as [|d rest]; [reflexivity|].
  change (snd (next ?x)) with (exec next x). now rewrite !this_next.
Qed.

Lemma this_join (w : World) (s n c : string) :
  let p := fst (join s n c w) in
  this (exec (join s n c) w) =
  GameRoom.with_players (JsMap.set (GameRoom.players (this w)) (Player.id p) p) (this w)
  /\ Player.id p = uid_of (random w (drawn w))
  /\ Player.progress p = 0%Q /\ Player.score p = 0 /\ Player.streak p = 0.
Proof. js_world w. destruct (String.eqb n ""); js_eval; repeat split; reflexivity. Qed.

(** *** [answer] *)

Lemma answer_ignored (w : World) (playerId : string) (choiceIndex : Z) :
  GameRoom.started (this w) = false
  \/ at_index QUESTIONS (GameRoom.currentIndex (this w)) = None
  \/ JsSet.has (GameRoom.answered (this w)) playerId = true
  \/ JsMap.get (GameRoom.players (this w)) playerId = None ->
  exec (answer playerId choiceIndex) w = w.
Proof.
  js_world w. intros H.
  destruct st; js_eval; [|reflexivity].
  destruct (at_index QUESTIONS ci) as [q|]; js_eval; [|reflexivity].
  destruct (JsSet.has an playerId); js_eval; [reflexivity|].
  destruct (JsMap.get pl playerId) as [p|]; js_eval; [|reflexivity].
  destruct H as [H|[H|[H|H]]]; discriminate.
Qed.

Lemma answer_incorrect (w : World) (playerId : string) (choiceIndex : Z) (q : MCQ.t) (p : Player.t) :
  GameRoom.started (this w) = true ->
  at_index QUESTIONS (GameRoom.currentIndex (this w)) = Some q ->
  JsSet.has (GameRoom.answered (this w)) playerId = false ->
  JsMap.get (GameRoom.players (this w)) playerId = Some p ->
  choiceIndex <> MCQ.answerIndex q ->
  let r' := GameRoom.with_players
              (JsMap.set (GameRoom.players (this w)) playerId (Player.with_streak 0 p))
              (GameRoom.with_answered (JsSet.add (GameRoom.answered (this w)) playerId) (this w)) in
  exec (answer playerId choiceIndex) w =
  mkWorld r' (emitted w ++ [(GameRoom.id r', GameRoom.wire r')])
          (intervals w) (timeouts w) (nextTimer w) (random w) (drawn w).
Proof.
  js_world w. intros -> -> -> -> Hc. js_eval.
  apply Z.eqb_neq in Hc. rewrite Hc. js_eval. reflexivity.
Qed.

Lemma answer_correct (w : World) (playerId : string) (choiceIndex : Z) (q : MCQ.t) (p : Player.t) :
  GameRoom.started (this w) = true ->
  at_index QUESTIONS (GameRoom.currentIndex (this w)) = Some q ->
  JsSet.has (GameRoom.answered (this w)) playerId = false ->
  JsMap.get (GameRoom.players (this w)) playerId = Some p ->
  choiceIndex = MCQ.answerIndex q ->
  let tl := GameRoom.timeLeft (this w) in
  let p' := Player.mk (Player.id p) (Player.name p) (Player.color p) (Player.avatar p)
              (clamp (Player.progress p + push_at tl (Player.streak p)) 0 (inject_Z TRACK_LEN))
              (Player.score p + points_at tl (Player.streak p))
              (Player.streak p + 1)
              (Player.socketId p) in
  let fo := GameRoom.finishedOrder (this w) in
  let r' := GameRoom.mk (GameRoom.id (this w)) true (GameRoom.currentIndex (this w)) tl
              (JsMap.set (GameRoom.players (this w)) playerId p')
              (if Qle_bool 100 (Player.progress p')
                  && negb (existsb (String.eqb (Player.id p)) fo)
                  && (Z.of_nat (List.length fo) <? 3)
               then fo ++ [Player.id p] else fo)
              (GameRoom.interval (this w))
              (JsSet.add (GameRoom.answered (this w)) playerId) in
  exec (answer playerId choiceIndex) w =
  mkWorld r' (emitted w ++ [(GameRoom.id r', GameRoom.wire r')])
          (intervals w) (timeouts w) (nextTimer w) (random w) (drawn w).
Proof.
  js_world w. intros -> -> -> -> ->. js_eval.
  rewrite Z.eqb_refl. js_eval.
  unfold push_at, points_at, speedBonus_at.
  cbn [Player.progress Player.with_progress Player.with_score Player.with_streak
       Player.id Player.score Player.streak].
  destruct (Qle_bool 100 _ && _ && _); js_eval; reflexivity.
Qed.

(** ** Scoring a correct answer *)

Lemma clamp_bounds (n : Q) : (0 <= clamp n 0 100 <= 100)%Q.
Proof.
  unfold clamp. split.
  - apply Q.le_max_l.
  - apply Q.max_lub; [lra | apply Q.le_min_l].
Qed.

Lemma clamp_inside (n : Q) : (0 <= n <= 100)%Q -> (clamp n 0 100 == n)%Q.
Proof.
  intros [H0 H1]. unfold clamp.
  rewrite (Q.min_r 100 n H1). now apply Q.max_r.
Qed.

Lemma clamp_Qeq (n m : Q) : (n == m)%Q -> (clamp n 0 100 == clamp m 0 100)%Q.
Proof. intros H. unfold clamp. now rewrite H. Qed.

(** ** Answers that are ignored *)

(** C6: [answer] changes nothing at all (room, players, and the list of
    snapshots sent) when the room is not started, when there is no current
    question, when the player has already answered it, or when the player id
    is unknown; in particular a second answer of the same player to the same
    question changes nothing, whatever the two choices are. *)
Theorem answer_silent_noop (w : World) (playerId : string) (choiceIndex : Z) :
  (GameRoom.started (this w) = false
   \/ at_index QUESTIONS (GameRoom.currentIndex (this w)) = None
   \/ JsSet.has (GameRoom.answered (this w)) playerId = true
   \/ JsMap.get (GameRoom.players (this w)) playerId = None ->
   exec (answer playerId choiceIndex) w = w)
  /\ (forall again : Z,
        exec (answer playerId again) (exec (answer playerId choiceIndex) w)
        = exec (answer playerId choiceIndex) w).
Proof.
  split; [apply answer_ignored|].
  intros again.
  destruct (GameRoom.started (this w)) eqn:Hs;
    [| rewrite (answer_ignored w playerId choiceIndex) by tauto; apply answer_ignored; tauto].
  destruct (at_index QUESTIONS (GameRoom.currentIndex (this w))) as [q|] eqn:Hq;
    [| rewrite (answer_ignored w playerId choiceIndex) by tauto; apply answer_ignored; tauto].
  destruct (JsSet.has (GameRoom.answered (this w)) playerId) eqn:Ha;
    [rewrite (answer_ignored w playerId choiceIndex) by tauto; apply answer_ignored; tauto|].
  destruct (JsMap.get (GameRoom.players (this w)) playerId) as [p|] eqn:Hp;
    [| rewrite (answer_ignored w playerId choiceIndex) by tauto; apply answer_ignored; tauto].
  destruct (Z.eq_dec choiceIndex (MCQ.answerIndex q)) as [Hc|Hc].
  - rewrite (answer_correct w playerId choiceIndex q p Hs Hq Ha Hp Hc).
    apply answer_ignored. right. right. left. cbn. apply JsSet_has_add.
  - rewrite (answer_incorrect w playerId choiceIndex q p Hs Hq Ha Hp Hc).
    apply answer_ignored. right. right. left. cbn. apply JsSet_has_add.
Qed.

Lemma answer_silent_noop_witness :
  exec (answer "nobody" 1) sample_started = sample_started
  /\ exec (answer "i" 1) (initial "main" half) = initial "main" half
  /\ exec (answer "i" 3) (exec (answer "i" 1) sample_started)
     = exec (answer "i" 1) sample_started.
Proof.
  split; [| split].
  - apply (proj1 (answer_silent_noop sample_started "nobody" 1)).
    right. right. right. reflexivity.
  - apply (proj1 (answer_silent_noop (initial "main" half) "i" 1)).
    left. reflexivity.
  - apply (proj2 (answer_silent_noop sample_started "i" 1)).
Defined.

(** ** Incorrect answers *)

(** C8: in a started room with a current question, an answer of a known
    player who has not answered yet, with a choice other than the correct
    one, sets that player's streak to 0 whatever it was, leaves the player's
    progress and score (and every other player, and the rest of the room) as
    they were, records the player as having answered, and sends one
    snapshot of the new state. *)
Theorem answer_incorrect_resets_streak
    (w : World) (playerId : string) (choiceIndex : Z) (q : MCQ.t) (p : Player.t) :
  GameRoom.started (this w) = true ->
  at_index QUESTIONS (GameRoom.currentIndex (this w)) = Some q ->
  JsSet.has (GameRoom.answered (this w)) playerId = false ->
  JsMap.get (GameRoom.players (this w)) playerId = Some p ->
  choiceIndex <> MCQ.answerIndex q ->
  let w' := exec (answer playerId choiceIndex) w in
  (exists p',
     JsMap.get (GameRoom.players (this w')) playerId = Some p'
     /\ Player.streak p' = 0
     /\ Player.progress p' = Player.progress p
     /\ Player.score p' = Player.score p)
  /\ (forall other, other <> playerId ->
        JsMap.get (GameRoom.players (this w')) other
        = JsMap.get (GameRoom.players (this w)) other)
  /\ JsSet.has (GameRoom.answered (this w')) playerId = true
  /\ GameRoom.finishedOrder (this w') = GameRoom.finishedOrder (this w)
  /\ GameRoom.started (this w') = true
  /\ GameRoom.currentIndex (this w') = GameRoom.currentIndex (this w)
  /\ GameRoom.timeLeft (this w') = GameRoom.timeLeft (this w)
  /\ emitted w' = emitted w ++ [(GameRoom.id (this w'), GameRoom.wire (this w'))].
Proof.
  intros Hs Hq Ha Hp Hc w'. subst w'.
  rewrite (answer_incorrect w playerId choiceIndex q p Hs Hq Ha Hp Hc).
  cbn [this emitted GameRoom.players GameRoom.with_players GameRoom.with_answered
       GameRoom.answered GameRoom.finishedOrder GameRoom.started GameRoom.currentIndex
       GameRoom.timeLeft GameRoom.id].
  split.
  { exists (Player.with_streak 0 p). rewrite JsMap_get_set_same. repeat split. }
  split; [intros other Ho; now apply JsMap_get_set_other|].
  split; [apply JsSet_has_add|].
  repeat split. exact Hs.
Qed.

Lemma answer_incorrect_resets_streak_witness :
  exists p',
    JsMap.get (GameRoom.players
                 (this (exec (answer "i" 3) (run sample_started [Answer "i" 1; Next]))))
              "i" = Some p'
    /\ Player.streak p' = 0 /\ (Player.progress p' == 30)%Q /\ Player.score p' = 160.
Proof.
  destruct (answer_incorrect_resets_streak (run sample_started [Answer "i" 1; Next]) "i" 3
              (MCQ.mk "q2" "A correct answer does what?"
                 ["Brakes"; "Teleports back"; "Moves forward"; "Changes color"] 2)
              (Player.mk "i" "Ann" "red" "🚓" (300 # 10) 160 1 (Some "s1"))
              eq_refl eq_refl eq_refl eq_refl ltac:(discriminate))
    as ((p' & Hget & Hst & Hpr & Hsc) & _).
  exists p'. split; [exact Hget|]. split; [exact Hst|]. split; [rewrite Hpr; reflexivity | exact Hsc].
Defined.

(** ** Starting twice *)

(** C9: [start] on a room that is already started changes nothing: the
    countdown and the question index are not reset, no timer is created and
    no snapshot is sent; hence two calls in a row do what one call does. *)
Theorem start_idempotent (w : World) :
  exec start (exec start w) = exec start w
  /\ (GameRoom.started (this w) = true -> exec start w = w).
Proof.
  assert (H : forall v, GameRoom.started (this v) = true -> exec start v = v).
  { intros v. js_world v. intros ->. reflexivity. }
  split; [| apply H].
  apply H. rewrite this_start.
  destruct (GameRoom.started (this w)) eqn:E; [exact E | reflexivity].
Qed.

Lemma start_idempotent_witness :
  exec start (exec start (initial "main" half)) = exec start (initial "main" half)
  /\ exec start (run sample_started [Tick; Next]) = run sample_started [Tick; Next].
Proof.
  split.
  - apply (proj1 (start_idempotent (initial "main" half))).
  - apply (proj2 (start_idempotent (run sample_started [Tick; Next]))). reflexivity.
Defined.

(** ** The countdown at zero *)

Lemma tick_started (w : World) :
  GameRoom.started (this w) = true ->
  let r' := GameRoom.with_timeLeft (Z.max 0 (GameRoom.timeLeft (this w) - 1)) (this w) in
  exec tick w =
  mkWorld r' (emitted w ++ [(GameRoom.id r', GameRoom.wire r')]) (intervals w)
          (if GameRoom.timeLeft r' =? 0 then timeouts w ++ [400] else timeouts w)
          (if GameRoom.timeLeft r' =? 0 then S (nextTimer w) else nextTimer w)
          (random w) (drawn w).
Proof.
  js_world w. intros ->. js_eval.
  destruct (Z.max 0 (tl - 1) =? 0); js_eval; reflexivity.
Qed.

Lemma tick_stopped (w : World) : GameRoom.started (this w) = false -> exec tick w = w.
Proof. js_world w. intros ->. js_eval. reflexivity. Qed.

(** C3, as the code has it: a tick of a started room whose countdown is
    already 0 leaves the countdown at 0, and every such tick schedules one
    more call of [next] after 400ms; [n] ticks in a row leave [n] more
    calls pending. *)
Theorem tick_at_zero_schedules_again (w : World) (n : nat) :
  GameRoom.started (this w) = true ->
  GameRoom.timeLeft (this w) = 0 ->
  GameRoom.timeLeft (this (exec tick w)) = 0
  /\ timeouts (exec tick w) = timeouts w ++ [400]
  /\ GameRoom.timeLeft (this (run w (repeat Tick n))) = 0
  /\ timeouts (run w (repeat Tick n)) = timeouts w ++ repeat 400 n.
Proof.
  intros Hs Ht.
  assert (H1 : forall v, GameRoom.started (this v) = true -> GameRoom.timeLeft (this v) = 0 ->
                 GameRoom.started (this (exec tick v)) = true
                 /\ GameRoom.timeLeft (this (exec tick v)) = 0
                 /\ timeouts (exec tick v) = timeouts v ++ [400]).
  { intros v Hv Hz. rewrite (tick_started v Hv). cbn. rewrite Hz. cbn. now rewrite Hv. }
  destruct (H1 w Hs Ht) as (_ & Hz & Hq).
  split; [exact Hz|]. split; [exact Hq|].
  clear Hz Hq. revert w Hs Ht.
  induction n as [|n IH]; intros w Hs Ht.
  - cbn. split; [exact Ht | now rewrite app_nil_r].
  - destruct (H1 w Hs Ht) as (Hs' & Hz & Hq).
    cbn [repeat run fold_left step].
    destruct (IH (exec tick w) Hs' Hz) as [IH1 IH2].
    unfold run in IH1, IH2. split; [exact IH1|].
    rewrite IH2, Hq, <- app_assoc. reflexivity.
Qed.

Lemma tick_at_zero_schedules_again_witness :
  GameRoom.timeLeft (this (run (run sample_started (repeat Tick 20)) (repeat Tick 2))) = 0
  /\ timeouts (run (run sample_started (repeat Tick 20)) (repeat Tick 2))
     = timeouts (run sample_started (repeat Tick 20)) ++ [400; 400].
Proof.
  destruct (tick_at_zero_schedules_again (run sample_started (repeat Tick 20)) 2)
    as (_ & _ & Hz & Hq); [vm_compute; reflexivity | vm_compute; reflexivity |].
  split; [exact Hz | exact Hq].
Defined.

(** C3, as stated, fails: in a started room whose countdown has reached 0
    with one advance pending, two further ticks leave three advances
    pending, one per tick, not one in all. *)
Lemma tick_at_zero_not_once :
  let w := run sample_started (repeat Tick 20) in
  GameRoom.started (this w) = true
  /\ GameRoom.timeLeft (this w) = 0
  /\ timeouts w = [400]
  /\ timeouts (exec tick (exec tick w)) = [400; 400; 400]
  /\ (List.length (timeouts (exec tick (exec tick w)))
      <> List.length (timeouts w) + 1)%nat.
Proof. vm_compute. repeat split. discriminate. Qed.

(** ** One step of a run, field by field *)

(** An answer is either ignored, or it is accepted from a known player [p]
    who had not answered: the player is replaced by [p'] (streak reset, or
    progress, score and streak advanced), the finish order becomes [fo']
    and one snapshot is sent. *)
Lemma answer_cases (w : World) (playerId : string) (choiceIndex : Z) :
  exec (answer playerId choiceIndex) w = w
  \/ exists q p p' fo',
       GameRoom.started (this w) = true
       /\ at_index QUESTIONS (GameRoom.currentIndex (this w)) = Some q
       /\ JsSet.has (GameRoom.answered (this w)) playerId = false
       /\ JsMap.get (GameRoom.players (this w)) playerId = Some p
       /\ ((choiceIndex <> MCQ.answerIndex q
            /\ p' = Player.with_streak 0 p
            /\ fo' = GameRoom.finishedOrder (this w))
           \/ (choiceIndex = MCQ.answerIndex q
               /\ p' = Player.mk (Player.id p) (Player.name p) (Player.color p) (Player.avatar p)
                         (clamp (Player.progress p
                                 + push_at (GameRoom.timeLeft (this w)) (Player.streak p)) 0 100)
                         (Player.score p + points_at (GameRoom.timeLeft (this w)) (Player.streak p))
                         (Player.streak p + 1) (Player.socketId p)
               /\ fo' = if Qle_bool 100 (Player.progress p')
                           && negb (existsb (String.eqb (Player.id p))
                                            (GameRoom.finishedOrder (this w)))
                           && (Z.of_nat (List.length (GameRoom.finishedOrder (this w))) <? 3)
                        then GameRoom.finishedOrder (this w) ++ [Player.id p]
                        else GameRoom.finishedOrder (this w)))
       /\ exec (answer playerId choiceIndex) w =
          let r' := GameRoom.mk (GameRoom.id (this w)) true (GameRoom.currentIndex (this w))
                      (GameRoom.timeLeft (this w))
                      (JsMap.set (GameRoom.players (this w)) playerId p') fo'
                      (GameRoom.interval (this w))
                      (JsSet.add (GameRoom.answered (this w)) playerId) in
          mkWorld r' (emitted w ++ [(GameRoom.id r', GameRoom.wire r')])
                  (intervals w) (timeouts w) (nextTimer w) (random w) (drawn w).
Proof.
  destruct (GameRoom.started (this w)) eqn:Hs; [| left; apply answer_ignored; tauto].
  destruct (at_index QUESTIONS (GameRoom.currentIndex (this w))) as [q|] eqn:Hq;
    [| left; apply answer_ignored; tauto].
  destruct (JsSet.has (GameRoom.answered (this w)) playerId) eqn:Ha;
    [left; apply answer_ignored; tauto|].
  destruct (JsMap.get (GameRoom.players (this w)) playerId) as [p|] eqn:Hp;
    [| left; apply answer_ignored; tauto].
  right. exists q, p.
  destruct (Z.eq_dec choiceIndex (MCQ.answerIndex q)) as [Hc|Hc].
  - eexists. eexists. do 4 (split; [reflexivity|]).
    split; [right; split; [exact Hc | split; reflexivity]|].
    rewrite (answer_correct w playerId choiceIndex q p Hs Hq Ha Hp Hc).
    destruct w as [[i st ci tl pl fo iv an] em its tos nt rnd dr]. cbn in *. subst st.
    reflexivity.
  - eexists. eexists. do 4 (split; [reflexivity|]).
    split; [left; split; [exact Hc | split; reflexivity]|].
    rewrite (answer_incorrect w playerId choiceIndex q p Hs Hq Ha Hp Hc).
    destruct w as [[i st ci tl pl fo iv an] em its tos nt rnd dr]. cbn in *. subst st.
    reflexivity.
Qed.

Lemma next_world (w : World) :
  exec next w =
  let r' := this (exec next w) in
  mkWorld r' (emitted w ++ [(GameRoom.id r', GameRoom.wire r')])
    (if GameRoom.currentIndex (this w) <? 4 then intervals w
     else match GameRoom.interval (this w) with
          | Some h => remove Nat.eq_dec h (intervals w)
          | None => intervals w
          end)
    (timeouts w) (nextTimer w) (random w) (drawn w).
Proof.
  js_world w. change (Z.of_nat (List.length QUESTIONS) - 1) with 4.
  destruct (ci <? 4); js_eval; [reflexivity|]. destruct iv; js_eval; reflexivity.
Qed.

Lemma start_world (w : World) :
  GameRoom.started (this w) = false ->
  exec start w =
  let r' := this (exec start w) in
  mkWorld r' (emitted w ++ [(GameRoom.id r', GameRoom.wire r')])
    (intervals w ++ [nextTimer w]) (timeouts w) (S (nextTimer w)) (random w) (drawn w).
Proof. js_world w. intros ->. js_eval. reflexivity. Qed.

Lemma reset_world (w : World) :
  exec reset w =
  let r' := this (exec reset w) in
  mkWorld r' (emitted w ++ [(GameRoom.id r', GameRoom.wire r')])
    (match GameRoom.interval (this w) with
     | Some h => remove Nat.eq_dec h (intervals w)
     | None => intervals w
     end)
    (timeouts w) (nextTimer w) (random w) (drawn w).
Proof. js_world w. destruct iv; js_eval; reflexivity. Qed.

Lemma join_world (w : World) (s n c : string) :
  exec (join s n c) w =
  let r' := this (exec (join s n c) w) in
  mkWorld r' (emitted w ++ [(GameRoom.id r', GameRoom.wire r')])
    (intervals w) (timeouts w) (nextTimer w) (random w)
    (drawn w + (if String.eqb n "" then 3 else 2))%nat.
Proof.
  js_world w. destruct (String.eqb n ""); js_eval; do 2 f_equal; lia.
Qed.

Lemma fire_world (w : World) :
  exec fire w =
  match timeouts w with
  | [] => w
  | _ :: rest =>
      exec next (mkWorld (this w) (emitted w) (intervals w) rest
                         (nextTimer w) (random w) (drawn w))
  end.
Proof. unfold exec at 1, fire. destruct (timeouts w); reflexivity. Qed.

(** ** Points and pushes *)

Lemma Qfloor_half (n : Z) : Qfloor (inject_Z n + (1 # 2)) = n.
Proof.
  pose proof (Qfloor_le (inject_Z n + (1 # 2))) as Hle.
  pose proof (Qlt_floor (inject_Z n + (1 # 2))) as Hlt.
  assert (H1 : (inject_Z (Qfloor (inject_Z n + (1 # 2))) < inject_Z (n + 1))%Q)
    by (rewrite inject_Z_plus; change (inject_Z 1) with 1%Q; lra).
  assert (H2 : (inject_Z n < inject_Z (Qfloor (inject_Z n + (1 # 2)) + 1))%Q) by lra.
  rewrite <- Zlt_Qlt in H1, H2. lia.
Qed.

(** The points of a correct answer are an integer before rounding. *)
Lemma points_at_exact (timeLeft streak : Z) :
  points_at timeLeft streak = 100 + 4 * Z.max 0 (timeLeft - 5) + 10 * streak.
Proof.
  unfold points_at, Math_round, speedBonus_at.
  rewrite <- (Qfloor_half (100 + 4 * Z.max 0 (timeLeft - 5) + 10 * streak)).
  apply Qfloor_comp.
  rewrite !inject_Z_plus, !inject_Z_mult.
  change (inject_Z 100) with 100%Q. change (inject_Z 4) with 4%Q.
  change (inject_Z 10) with 10%Q. lra.
Qed.


(** ** The invariant of the room *)

Lemma room_ok_new (id : string) : room_ok (GameRoom.new id).
Proof.
  room_split; try lia; constructor.
Qed.

Lemma room_ok_next (w : World) : room_ok (this w) -> room_ok (this (exec next w)).
Proof.
  unfold room_ok. change (Z.of_nat (List.length QUESTIONS) - 1) with 4.
  intros (Hi & Ht & Hp & Hl & Hn). rewrite this_next.
  destruct (GameRoom.currentIndex (this w) <? 4) eqn:E; cbn.
  - apply Z.ltb_lt in E. repeat (split; [first [lia | assumption]|]). assumption.
  - repeat (split; [first [lia | assumption]|]). assumption.
Qed.

Lemma room_ok_answer (w : World) (playerId : string) (choiceIndex : Z) :
  room_ok (this w) -> room_ok (this (exec (answer playerId choiceIndex) w)).
Proof.
  intros Hok.
  destruct (answer_cases w playerId choiceIndex)
    as [-> | (q & p & p' & fo' & Hs & Hq & Ha & Hg & Hcase & ->)]; [exact Hok|].
  destruct Hok as (Hi & Ht & Hp & Hl & Hn).
  pose proof (Hp _ _ (JsMap_get_In _ _ _ Hg)) as (Hpr & Hsc & Hst).
  assert (Hp' : player_ok p').
  { destruct Hcase as [(_ & -> & _) | (_ & -> & _)]; unfold player_ok;
      cbn [Player.progress Player.score Player.streak Player.with_streak].
    - split; [exact Hpr | lia].
    - rewrite points_at_exact. split; [apply clamp_bounds | lia]. }
  room_split; [exact Hi | exact Ht | | |].
  - intros k p0 Hin. apply JsMap_set_In in Hin. destruct Hin as [[= -> ->] | Hin];
      [exact Hp' | now apply (Hp k)].
  - destruct Hcase as [(_ & _ & ->) | (_ & _ & ->)]; [exact Hl|].
    destruct (Qle_bool 100 (Player.progress p') && _ && _) eqn:E; [| exact Hl].
    apply andb_prop in E. destruct E as [_ E3]. apply Z.ltb_lt in E3.
    rewrite length_app. cbn. lia.
  - destruct Hcase as [(_ & _ & ->) | (_ & _ & ->)]; [exact Hn|].
    destruct (Qle_bool 100 (Player.progress p') && _ && _) eqn:E; [| exact Hn].
    apply andb_prop in E. destruct E as [E _]. apply andb_prop in E. destruct E as [_ E2].
    apply NoDup_app; [exact Hn | repeat constructor; intros [] | ].
    intros x Hx [Ex | []]. subst x.
    apply negb_true_iff in E2.
    assert (JsSet.has (GameRoom.finishedOrder (this w)) (Player.id p) = true)
      by (now apply JsSet_has_In).
    unfold JsSet.has in *. congruence.
Qed.

Lemma room_ok_step (w : World) (e : Event) : room_ok (this w) -> room_ok (this (step w e)).
Proof.
  intros Hok. destruct e; cbn [step].
  - pose proof (this_join w socketId name color) as H. cbv zeta in H.
    remember (fst (join socketId name color w)) as p0 eqn:Ep0. clear Ep0.
    destruct H as (-> & _ & Hpr & Hsc & Hst).
    destruct Hok as (Hi & Ht & Hp & Hl & Hn).
    room_split; try assumption.
    intros k p Hin. apply JsMap_set_In in Hin. destruct Hin as [[= _ ->] | Hin];
      [| now apply (Hp k)].
    unfold player_ok. rewrite Hpr, Hsc, Hst. repeat split; try lia; discriminate.
  - rewrite this_start. destruct (GameRoom.started (this w)); [exact Hok|].
    destruct Hok as (Hi & Ht & Hp & Hl & Hn).
    room_split; try lia; [assumption | constructor].
  - rewrite this_tick. destruct (GameRoom.started (this w)); [|exact Hok].
    destruct Hok as (Hi & Ht & Hp & Hl & Hn).
    room_split; try lia; assumption.
  - now apply room_ok_next.
  - rewrite this_reset. destruct Hok as (Hi & Ht & Hp & Hl & Hn).
    room_split; try lia; [| constructor].
    intros k p Hin. unfold JsMap.forEach in Hin. apply in_map_iff in Hin.
    destruct Hin as (kv & [= _ <-] & _).
    unfold player_ok. cbn. repeat split; try lia; discriminate.
  - now apply room_ok_answer.
  - rewrite this_fire. destruct (timeouts w); [exact Hok | now apply room_ok_next].
Qed.


(** ** What a step sends and which timers it leaves running *)

Lemma start_started (w : World) : GameRoom.started (this w) = true -> exec start w = w.
Proof. js_world w. intros ->. reflexivity. Qed.

Lemma emitted_step (w : World) (e : Event) :
  emitted (step w e) = emitted w
  \/ emitted (step w e)
     = emitted w ++ [(GameRoom.id (this (step w e)), GameRoom.wire (this (step w e)))].
Proof.
  destruct e; cbn [step].
  - right. pose proof (join_world w socketId name color) as H. cbv zeta in H.
    apply (f_equal emitted) in H. exact H.
  - destruct (GameRoom.started (this w)) eqn:Hs.
    + left. now rewrite start_started.
    + right. pose proof (start_world w Hs) as H. cbv zeta in H.
      apply (f_equal emitted) in H. exact H.
  - destruct (GameRoom.started (this w)) eqn:Hs.
    + right. rewrite this_tick, Hs. now rewrite (tick_started w Hs).
    + left. now rewrite tick_stopped.
  - right. pose proof (next_world w) as H. cbv zeta in H.
    apply (f_equal emitted) in H. exact H.
  - right. pose proof (reset_world w) as H. cbv zeta in H.
    apply (f_equal emitted) in H. exact H.
  - destruct (answer_cases w playerId choiceIndex)
      as [-> | (q & p & p' & fo' & _ & _ & _ & _ & _ & ->)]; [now left | now right].
  - rewrite fire_world. destruct (timeouts w) as [|d rest]; [now left | right].
    pose proof (next_world (mkWorld (this w) (emitted w) (intervals w) rest
                                    (nextTimer w) (random w) (drawn w))) as H.
    cbv zeta in H. apply (f_equal emitted) in H. exact H.
Qed.

Lemma intervals_next (w : World) :
  intervals (exec next w) =
  if GameRoom.currentIndex (this w) <? 4 then intervals w
  else match GameRoom.interval (this w) with
       | Some h => remove Nat.eq_dec h (intervals w)
       | None => intervals w
       end.
Proof. pose proof (next_world w) as H. apply (f_equal intervals) in H. exact H. Qed.

Lemma timer_ok_next (w : World) : timer_ok w -> timer_ok (exec next w).
Proof.
  unfold timer_ok. rewrite intervals_next, this_next.
  destruct (GameRoom.currentIndex (this w) <? 4); cbn; [trivial|].
  destruct (GameRoom.started (this w)).
  - intros (h & -> & ->). cbn. now destruct (Nat.eq_dec h h).
  - intros ->. now destruct (GameRoom.interval (this w)).
Qed.

Lemma timer_ok_step (w : World) (e : Event) : timer_ok w -> timer_ok (step w e).
Proof.
  intros Hok. destruct e; cbn [step].
  - pose proof (join_world w socketId name color) as H. cbv zeta in H.
    apply (f_equal intervals) in H. cbn [intervals] in H.
    pose proof (this_join w socketId name color) as Ht. cbv zeta in Ht.
    destruct Ht as (Ht & _).
    unfold timer_ok in *. rewrite H, Ht. exact Hok.
  - destruct (GameRoom.started (this w)) eqn:Hs; [now rewrite start_started|].
    pose proof (start_world w Hs) as H. cbv zeta in H.
    apply (f_equal intervals) in H. cbn [intervals] in H.
    unfold timer_ok in *. rewrite H, this_start, Hs in *. cbn.
    exists (nextTimer w). now rewrite Hok.
  - destruct (GameRoom.started (this w)) eqn:Hs; [| now rewrite tick_stopped].
    unfold timer_ok in *. rewrite (tick_started w Hs). cbn. now rewrite Hs in *.
  - now apply timer_ok_next.
  - pose proof (reset_world w) as H. cbv zeta in H.
    apply (f_equal intervals) in H. cbn [intervals] in H.
    unfold timer_ok in *. rewrite H, this_reset. cbn.
    destruct (GameRoom.started (this w)).
    + destruct Hok as (h & -> & ->). cbn. now destruct (Nat.eq_dec h h).
    + rewrite Hok. now destruct (GameRoom.interval (this w)).
  - destruct (answer_cases w playerId choiceIndex)
      as [-> | (q & p & p' & fo' & Hs & _ & _ & _ & _ & ->)]; [exact Hok|].
    unfold timer_ok in *. cbn. now rewrite Hs in Hok.
  - rewrite fire_world. destruct (timeouts w) as [|d rest]; [exact Hok|].
    apply timer_ok_next. exact Hok.
Qed.

Lemma timer_ok_reachable (w : World) : reachable w -> timer_ok w.
Proof.
  revert w. apply (reachable_ind timer_ok).
  - intros id rnd. reflexivity.
  - intros v e _. apply timer_ok_step.
Qed.

(** ** Advancing to the next question *)

(** C7: when a question follows the current one, [next] adds one to the
    question index, sets the countdown to 20 and empties the answered set,
    leaving the room started or not as it was; on the last question it sets
    [started] to false and cancels the interval timer (in a reachable world
    no timer is left running) without touching the index, so the index
    never passes the last question.  Either way the players and the finish
    order are untouched and one snapshot is sent. *)
Theorem next_advances_or_ends (w : World) :
  let last := Z.of_nat (List.length QUESTIONS) - 1 in
  let w' := exec next w in
  (GameRoom.currentIndex (this w) < last ->
     GameRoom.currentIndex (this w') = GameRoom.currentIndex (this w) + 1
     /\ GameRoom.timeLeft (this w') = 20
     /\ GameRoom.answered (this w') = []
     /\ GameRoom.started (this w') = GameRoom.started (this w)
     /\ intervals w' = intervals w)
  /\ (last <= GameRoom.currentIndex (this w) ->
     GameRoom.started (this w') = false
     /\ GameRoom.currentIndex (this w') = GameRoom.currentIndex (this w)
     /\ GameRoom.timeLeft (this w') = GameRoom.timeLeft (this w)
     /\ GameRoom.answered (this w') = GameRoom.answered (this w)
     /\ (forall h, GameRoom.interval (this w) = Some h -> ~ In h (intervals w'))
     /\ (reachable w -> intervals w' = []))
  /\ (GameRoom.currentIndex (this w) <= last -> GameRoom.currentIndex (this w') <= last)
  /\ GameRoom.players (this w') = GameRoom.players (this w)
  /\ GameRoom.finishedOrder (this w') = GameRoom.finishedOrder (this w)
  /\ emitted w' = emitted w ++ [(GameRoom.id (this w'), GameRoom.wire (this w'))].
Proof.
  intros last w'. subst last w'. change (Z.of_nat (List.length QUESTIONS) - 1) with 4.
  pose proof (emitted_step w Next) as He. cbn [step] in He.
  rewrite intervals_next, this_next.
  destruct (GameRoom.currentIndex (this w) <? 4) eqn:E.
  - apply Z.ltb_lt in E. cbn.
    split; [intros _; repeat split|]. split; [intros H; lia|].
    split; [lia|]. split; [reflexivity|]. split; [reflexivity|].
    pose proof (next_world w) as H. cbv zeta in H. rewrite this_next in H.
    apply Z.ltb_lt in E. rewrite E in H. now rewrite H.
  - apply Z.ltb_ge in E. cbn.
    split; [intros H; lia|]. split.
    { intros _. do 4 (split; [reflexivity|]). split.
      - intros h ->. apply remove_In.
      - intros Hr. apply timer_ok_reachable, timer_ok_next in Hr.
        unfold timer_ok in Hr. rewrite this_next, intervals_next in Hr.
        apply Z.ltb_ge in E. rewrite E in Hr. exact Hr. }
    split; [trivial|]. split; [reflexivity|]. split; [reflexivity|].
    pose proof (next_world w) as H. cbv zeta in H. rewrite this_next in H.
    apply Z.ltb_ge in E. rewrite E in H. now rewrite H.
Qed.

Lemma next_advances_or_ends_witness :
  GameRoom.currentIndex (this (exec next sample_started)) = 1
  /\ GameRoom.started (this (exec next (run sample_started [Next; Next; Next; Next]))) = false
  /\ intervals (exec next (run sample_started [Next; Next; Next; Next])) = [].
Proof.
  pose proof (next_advances_or_ends sample_started) as H1.
  pose proof (next_advances_or_ends (run sample_started [Next; Next; Next; Next])) as H2.
  cbv zeta in H1, H2.
  destruct H1 as (H1 & _). destruct H2 as (_ & H2 & _).
  split; [| split].
  - apply H1. vm_compute. reflexivity.
  - apply H2. vm_compute. discriminate.
  - apply H2; [vm_compute; discriminate|].
    apply reachable_run. exists "main", half, [Join "s1" "Ann" "red"; Start]. reflexivity.
Defined.

(** ** The question of a snapshot *)





(** ** Bounds on the players, and the streak *)




(** ** The finish order *)

Lemma distinct_snoc (l : list string) (x : string) :
  distinct (l ++ [x]) = JsSet.add (distinct l) x.
Proof. unfold distinct. now rewrite fold_left_app. Qed.

(** The guarded [push] of [answer] keeps the finish order equal to the
    first three distinct arrivals. *)
Lemma finish_push (fo d : list string) (x : string) :
  fo = firstn 3 d ->
  (if negb (existsb (String.eqb x) fo) && (Z.of_nat (List.length fo) <? 3)
   then fo ++ [x] else fo)
  = firstn 3 (JsSet.add d x).
Proof.
  intros Hfo. unfold JsSet.add.
  destruct (existsb (String.eqb x) fo) eqn:Ein; cbn [negb andb].
  - assert (Hd : JsSet.has d x = true).
    { apply JsSet_has_In. rewrite <- (firstn_skipn 3 d). apply in_or_app. left.
      rewrite <- Hfo. apply JsSet_has_In. exact Ein. }
    now rewrite Hd.
  - destruct (Z.of_nat (List.length fo) <? 3) eqn:El.
    + apply Z.ltb_lt in El.
      assert (Hlen : (List.length d < 3)%nat).
      { rewrite Hfo, length_firstn in El. lia. }
      assert (Hall : firstn 3 d = d) by (apply firstn_all2; lia).
      rewrite Hall in Hfo. subst fo. unfold JsSet.has. rewrite Ein.
      symmetry. apply firstn_all2. rewrite length_app. cbn. lia.
    + apply Z.ltb_ge in El.
      assert (Hlen : (3 <= List.length d)%nat).
      { rewrite Hfo, length_firstn in El. lia. }
      destruct (JsSet.has d x); [exact Hfo|].
      rewrite firstn_app.
      replace (3 - List.length d)%nat with 0%nat by lia.
      cbn [firstn]. now rewrite app_nil_r.
Qed.

(** * Further properties of the room *)

(** ** [reset] *)

Lemma forEach_keys {V} (f : V -> V) (m : JsMap.t V) :
  JsMap.keys (JsMap.forEach f m) = JsMap.keys m.
Proof.
  unfold JsMap.keys, JsMap.forEach. rewrite map_map. reflexivity.
Qed.

Lemma forEach_get {V} (f : V -> V) (m : JsMap.t V) (k : string) :
  JsMap.get (JsMap.forEach f m) k = option_map f (JsMap.get m k).
Proof.
  induction m as [|[k' v] m IH]; [reflexivity|]. cbn.
  destruct (String.eqb k' k); [reflexivity | exact IH].
Qed.

(** X1: whatever the room was doing, [reset] leaves it idle on question 0
    with a countdown of 20, an empty finish order and answered set, and the
    same players in the same order, each with progress, score and streak 0
    and otherwise as they were; the room's interval timer is cancelled, and
    one snapshot is sent. *)
Theorem reset_returns_to_idle (w : World) :
  let w' := exec reset w in
  GameRoom.started (this w') = false
  /\ GameRoom.currentIndex (this w') = 0
  /\ GameRoom.timeLeft (this w') = 20
  /\ GameRoom.finishedOrder (this w') = []
  /\ GameRoom.answered (this w') = []
  /\ JsMap.keys (GameRoom.players (this w')) = JsMap.keys (GameRoom.players (this w))
  /\ (forall k,
        JsMap.get (GameRoom.players (this w')) k
        = option_map (fun p => Player.mk (Player.id p) (Player.name p) (Player.color p)
                                 (Player.avatar p) 0 0 0 (Player.socketId p))
                     (JsMap.get (GameRoom.players (this w)) k))
  /\ (forall h, GameRoom.interval (this w) = Some h -> ~ In h (intervals w'))
  /\ (reachable w -> intervals w' = [])
  /\ emitted w' = emitted w ++ [(GameRoom.id (this w'), GameRoom.wire (this w'))].
Proof.
  intros w'. subst w'.
  pose proof (reset_world w) as Hw. cbv zeta in Hw.
  rewrite this_reset in *. cbn [GameRoom.started GameRoom.currentIndex GameRoom.timeLeft
                                GameRoom.finishedOrder GameRoom.answered GameRoom.players].
  do 5 (split; [reflexivity|]).
  split; [apply forEach_keys|].
  split; [intros k; rewrite forEach_get; now destruct (JsMap.get _ k)|].
  split.
  { intros h Hh. rewrite Hw. cbn [intervals]. rewrite Hh. apply remove_In. }
  split.
  { intros Hr. pose proof (timer_ok_step w Reset (timer_ok_reachable w Hr)) as Ht.
    unfold timer_ok in Ht. cbn [step] in Ht. rewrite this_reset in Ht. exact Ht. }
  rewrite Hw at 1. reflexivity.
Qed.

(** X2: neither [reset] nor [start] cancels an advance that [tick] has
    scheduled.  When one is pending and the room is reset and started again
    before it fires, it fires in the new round: the room moves to the second
    question with a full countdown although nobody asked for it. *)
Theorem pending_advance_survives_reset (w : World) (d : Z) (rest : list Z) :
  timeouts w = d :: rest ->
  timeouts (exec reset w) = d :: rest
  /\ timeouts (run w [Reset; Start]) = d :: rest
  /\ GameRoom.currentIndex (this (run w [Reset; Start])) = 0
  /\ GameRoom.currentIndex (this (run w [Reset; Start; Fire])) = 1
  /\ GameRoom.timeLeft (this (run w [Reset; Start; Fire])) = 20
  /\ GameRoom.started (this (run w [Reset; Start; Fire])) = true
  /\ timeouts (run w [Reset; Start; Fire]) = rest.
Proof.
  unfold run. cbn [fold_left step].
  destruct w as [[i st ci tl pl fo iv an] em its tos nt rnd dr].
  cbn [timeouts]. intros ->.
  destruct iv; js_eval; repeat split.
Qed.

Lemma pending_advance_survives_reset_witness :
  GameRoom.currentIndex
    (this (run (run sample_started (repeat Tick 20)) [Reset; Start; Fire])) = 1.
Proof.
  apply (pending_advance_survives_reset (run sample_started (repeat Tick 20)) 400 []).
  vm_compute. reflexivity.
Defined.

(** ** [start] *)

(** X3: [start] on an idle room begins a round on question 0 with a
    countdown of 20, an empty finish order and answered set, and one new
    interval timer whose fresh handle the room keeps; the players, with the
    progress, score and streak they had, and the pending advances are left
    untouched, and one snapshot is sent. *)
Theorem start_begins_round (w : World) :
  GameRoom.started (this w) = false ->
  let w' := exec start w in
  GameRoom.started (this w') = true
  /\ GameRoom.currentIndex (this w') = 0
  /\ GameRoom.timeLeft (this w') = 20
  /\ GameRoom.finishedOrder (this w') = []
  /\ GameRoom.answered (this w') = []
  /\ GameRoom.players (this w') = GameRoom.players (this w)
  /\ GameRoom.interval (this w') = Some (nextTimer w)
  /\ intervals w' = intervals w ++ [nextTimer w]
  /\ nextTimer w' = S (nextTimer w)
  /\ (reachable w -> intervals w' = [nextTimer w])
  /\ timeouts w' = timeouts w
  /\ emitted w' = emitted w ++ [(GameRoom.id (this w'), GameRoom.wire (this w'))].
Proof.
  intros Hs w'. subst w'.
  pose proof (start_world w Hs) as Hw. cbv zeta in Hw.
  assert (Ht : this (exec start w)
               = GameRoom.mk (GameRoom.id (this w)) true 0 20 (GameRoom.players (this w)) []
                             (Some (nextTimer w)) [])
    by (rewrite this_start, Hs; reflexivity).
  rewrite Ht in *. cbn [GameRoom.started GameRoom.currentIndex GameRoom.timeLeft
                        GameRoom.finishedOrder GameRoom.answered GameRoom.players
                        GameRoom.interval].
  do 7 (split; [reflexivity|]).
  rewrite Hw. cbn [intervals nextTimer timeouts emitted].
  do 2 (split; [reflexivity|]). split; [|split; reflexivity].
  intros Hr. apply timer_ok_reachable in Hr. unfold timer_ok in Hr.
  rewrite Hs in Hr. now rewrite Hr.
Qed.

Lemma start_begins_round_witness :
  GameRoom.timeLeft (this (exec start (run sample_started [Tick; Tick; Reset]))) = 20
  /\ GameRoom.interval (this (exec start (run sample_started [Tick; Tick; Reset]))) = Some 1%nat.
Proof.
  pose proof (start_begins_round (run sample_started [Tick; Tick; Reset])) as H.
  cbv zeta in H.
  destruct H as (_ & _ & Ht & _ & _ & _ & Hi & _); [vm_compute; reflexivity|].
  split; [exact Ht | exact Hi].
Defined.

(** ** The countdown *)

(** Ticks of a started room at countdown 0: a shared form of the step that
    keeps the countdown there, with the parts of the room it leaves alone. *)
Lemma tick_at_zero_again (w : World) (n : nat) :
  GameRoom.started (this w) = true ->
  GameRoom.timeLeft (this w) = 0 ->
  GameRoom.timeLeft (this (run w (repeat Tick n))) = 0
  /\ timeouts (run w (repeat Tick n)) = timeouts w ++ repeat 400 n
  /\ GameRoom.started (this (run w (repeat Tick n))) = true
  /\ GameRoom.currentIndex (this (run w (repeat Tick n))) = GameRoom.currentIndex (this w)
  /\ GameRoom.players (this (run w (repeat Tick n))) = GameRoom.players (this w)
  /\ GameRoom.finishedOrder (this (run w (repeat Tick n))) = GameRoom.finishedOrder (this w)
  /\ GameRoom.answered (this (run w (repeat Tick n))) = GameRoom.answered (this w).
Proof.
  revert w. induction n as [|n IH]; intros w Hs Hz.
  - cbn [repeat run fold_left]. rewrite app_nil_r. repeat split; assumption.
  - cbn [repeat run fold_left step]. fold (run (exec tick w) (repeat Tick n)).
    pose proof (tick_started w Hs) as Hw. cbv zeta in Hw.
    rewrite Hz in Hw. cbn [Z.max Z.sub Z.add Z.opp Z.compare Z.pos_sub] in Hw.
    assert (Hs' : GameRoom.started (this (exec tick w)) = true) by (rewrite Hw; exact Hs).
    assert (Hz' : GameRoom.timeLeft (this (exec tick w)) = 0) by (rewrite Hw; reflexivity).
    destruct (IH (exec tick w) Hs' Hz') as (I1 & I2 & I3 & I4 & I5 & I6 & I7).
    rewrite I1, I2, I3, I4, I5, I6, I7, Hw. cbn. rewrite <- app_assoc.
    repeat split.
Qed.

Lemma tick_once (w : World) :
  GameRoom.started (this w) = true ->
  1 <= GameRoom.timeLeft (this w) ->
  this (exec tick w) = GameRoom.with_timeLeft (GameRoom.timeLeft (this w) - 1) (this w)
  /\ timeouts (exec tick w)
     = timeouts w ++ (if GameRoom.timeLeft (this w) =? 1 then [400] else []).
Proof.
  intros Hs Ht. rewrite (tick_started w Hs). cbn [this timeouts GameRoom.timeLeft GameRoom.with_timeLeft].
  replace (Z.max 0 (GameRoom.timeLeft (this w) - 1)) with (GameRoom.timeLeft (this w) - 1) by lia.
  split; [reflexivity|].
  destruct (GameRoom.timeLeft (this w) =? 1) eqn:E.
  - apply Z.eqb_eq in E. rewrite E. reflexivity.
  - apply Z.eqb_neq in E.
    destruct (GameRoom.timeLeft (this w) - 1 =? 0) eqn:E0;
      [apply Z.eqb_eq in E0; lia | now rewrite app_nil_r].
Qed.

(** X4: in a started room whose countdown is [t >= 1], [n] timer ticks in
    a row leave the countdown at [max(0, t - n)]: it goes down by one per
    tick and stops at 0.  No advance is scheduled before the tick that
    reaches 0, which is the [t]-th, and the room stays started with its
    question, players and finish order unchanged. *)
Theorem countdown_after_ticks (w : World) (n : nat) :
  GameRoom.started (this w) = true ->
  1 <= GameRoom.timeLeft (this w) ->
  let w' := run w (repeat Tick n) in
  GameRoom.timeLeft (this w') = Z.max 0 (GameRoom.timeLeft (this w) - Z.of_nat n)
  /\ timeouts w'
     = timeouts w ++ repeat 400 (n + 1 - Z.to_nat (GameRoom.timeLeft (this w)))
  /\ GameRoom.started (this w') = true
  /\ GameRoom.currentIndex (this w') = GameRoom.currentIndex (this w)
  /\ GameRoom.players (this w') = GameRoom.players (this w)
  /\ GameRoom.finishedOrder (this w') = GameRoom.finishedOrder (this w)
  /\ GameRoom.answered (this w') = GameRoom.answered (this w).
Proof.
  revert w. induction n as [|n IH]; intros w Hs Ht w'; subst w'.
  - cbn [repeat run fold_left].
    replace (0 + 1 - Z.to_nat (GameRoom.timeLeft (this w)))%nat with 0%nat by lia.
    cbn [repeat]. rewrite app_nil_r. repeat split; try assumption. lia.
  - cbn [repeat run fold_left step]. fold (run (exec tick w) (repeat Tick n)).
    destruct (tick_once w Hs Ht) as [Hthis Hto].
    destruct (Z.eq_dec (GameRoom.timeLeft (this w)) 1) as [E1|E1].
    + assert (Hz : GameRoom.timeLeft (this (exec tick w)) = 0)
        by (rewrite Hthis; cbn; lia).
      assert (Hs' : GameRoom.started (this (exec tick w)) = true)
        by (rewrite Hthis; exact Hs).
      destruct (tick_at_zero_again (exec tick w) n Hs' Hz) as (Hz' & Hq' & Hfr).
      rewrite Hz', Hq', Hto, E1. cbn [Z.eqb Pos.eqb].
      replace (S n + 1 - Z.to_nat 1)%nat with (S n) by lia.
      rewrite <- app_assoc. cbn [app repeat].
      split; [lia|]. split; [reflexivity|].
      rewrite Hthis in Hfr. exact Hfr.
    + assert (Hs' : GameRoom.started (this (exec tick w)) = true)
        by (rewrite Hthis; exact Hs).
      assert (Ht' : 1 <= GameRoom.timeLeft (this (exec tick w)))
        by (rewrite Hthis; cbn; lia).
      specialize (IH (exec tick w) Hs' Ht'). cbv zeta in IH.
      destruct IH as (I1 & I2 & I3 & I4 & I5 & I6 & I7).
      rewrite I1, I2, I3, I4, I5, I6, I7, Hthis, Hto.
      apply Z.eqb_neq in E1. rewrite E1, app_nil_r.
      cbn [GameRoom.timeLeft GameRoom.with_timeLeft GameRoom.currentIndex GameRoom.players
           GameRoom.finishedOrder GameRoom.answered].
      split; [lia|]. split; [| repeat split].
      f_equal. f_equal. apply Z.eqb_neq in E1. lia.
Qed.

Lemma countdown_after_ticks_witness :
  GameRoom.timeLeft (this (run sample_started (repeat Tick 7))) = 13
  /\ timeouts (run sample_started (repeat Tick 7)) = [].
Proof.
  pose proof (countdown_after_ticks sample_started 7) as H. cbv zeta in H.
  destruct H as (Ht & Hq & _); [vm_compute; reflexivity | vm_compute; discriminate |].
  split; [exact Ht | exact Hq].
Defined.

(** ** Snapshots *)



(** ** The players of a room *)

Lemma JsMap_set_keys_NoDup {V} (m : JsMap.t V) (k : string) (v : V) :
  NoDup (JsMap.keys m) -> NoDup (JsMap.keys (JsMap.set m k v)).
Proof.
  intros Hn. destruct (in_dec string_dec k (JsMap.keys m)) as [Hin|Hin].
  - now rewrite JsMap_set_keys_present.
  - rewrite JsMap_set_keys_absent by exact Hin.
    apply NoDup_app; [exact Hn | repeat constructor; intros [] |].
    intros x Hx [<- | []]. contradiction.
Qed.

Lemma JsMap_set_keys_incl {V} (m : JsMap.t V) (k k0 : string) (v : V) :
  In k0 (JsMap.keys m) -> In k0 (JsMap.keys (JsMap.set m k v)).
Proof.
  intros H0. destruct (in_dec string_dec k (JsMap.keys m)) as [Hin|Hin].
  - now rewrite JsMap_set_keys_present.
  - rewrite JsMap_set_keys_absent by exact Hin. apply in_or_app. now left.
Qed.


Lemma JsSet_add_NoDup (s : JsSet.t) (k : string) : NoDup s -> NoDup (JsSet.add s k).
Proof.
  intros Hn. unfold JsSet.add. destruct (JsSet.has s k) eqn:E; [exact Hn|].
  apply NoDup_app; [exact Hn | repeat constructor; intros [] |].
  intros x Hx [<- | []]. apply JsSet_has_In in Hx. congruence.
Qed.

Lemma JsSet_add_In (s : JsSet.t) (k x : string) : In x (JsSet.add s k) -> x = k \/ In x s.
Proof.
  unfold JsSet.add. destruct (JsSet.has s k); [now right|].
  intros H. apply in_app_or in H. destruct H as [H | [<- | []]]; [now right | now left].
Qed.

Lemma keyed_unchanged (r r' : GameRoom.t) :
  GameRoom.players r' = GameRoom.players r ->
  (GameRoom.answered r' = GameRoom.answered r \/ GameRoom.answered r' = []) ->
  (GameRoom.finishedOrder r' = GameRoom.finishedOrder r \/ GameRoom.finishedOrder r' = []) ->
  keyed r -> keyed r'.
Proof.
  unfold keyed. intros -> Ha Hf (H1 & H2 & H3 & H4 & H5).
  split; [exact H1|]. split; [exact H2|].
  destruct Ha as [-> | ->], Hf as [-> | ->]; repeat split; try assumption;
    try constructor; intros k [].
Qed.

Lemma keyed_step (w : World) (e : Event) : keyed (this w) -> keyed (this (step w e)).
Proof.
  intros Hk. destruct e; cbn [step].
  - pose proof (this_join w socketId name color) as H. cbv zeta in H.
    remember (fst (join socketId name color w)) as p0 eqn:Ep0. clear Ep0.
    destruct H as (-> & _). destruct Hk as (H1 & H2 & H3 & H4 & H5).
    unfold keyed. cbn [GameRoom.players GameRoom.with_players GameRoom.answered
                       GameRoom.finishedOrder].
    split; [now apply JsMap_set_keys_NoDup|]. split.
    { intros k p Hin. apply JsMap_set_In in Hin.
      destruct Hin as [[= -> ->] | Hin]; [reflexivity | now apply H2]. }
    split; [exact H3|]. split; intros k Hin; apply JsMap_set_keys_incl; auto.
  - rewrite this_start. destruct (GameRoom.started (this w)); [exact Hk|].
    apply (keyed_unchanged (this w)); [reflexivity | now right | now right | exact Hk].
  - rewrite this_tick. destruct (GameRoom.started (this w)); [|exact Hk].
    apply (keyed_unchanged (this w)); [reflexivity | now left | now left | exact Hk].
  - rewrite this_next. destruct (GameRoom.currentIndex (this w) <? 4).
    + apply (keyed_unchanged (this w)); [reflexivity | now right | now left | exact Hk].
    + apply (keyed_unchanged (this w)); [reflexivity | now left | now left | exact Hk].
  - rewrite this_reset. destruct Hk as (H1 & H2 & H3 & H4 & H5).
    unfold keyed. cbn [GameRoom.players GameRoom.answered GameRoom.finishedOrder].
    rewrite forEach_keys. split; [exact H1|]. split.
    { intros k p Hin. unfold JsMap.forEach in Hin. apply in_map_iff in Hin.
      destruct Hin as ([k0 p0] & [= <- <-] & Hin). cbn. now apply H2. }
    split; [constructor|]. split; intros k [].
  - destruct (answer_cases w playerId choiceIndex)
      as [-> | (q & p & p' & fo' & Hs & Hq & Ha & Hg & Hcase & ->)]; [exact Hk|].
    destruct Hk as (H1 & H2 & H3 & H4 & H5).
    pose proof (JsMap_get_In _ _ _ Hg) as Hin0.
    pose proof (H2 _ _ Hin0) as Hid0.
    assert (Hid' : Player.id p' = playerId)
      by (destruct Hcase as [(_ & -> & _) | (_ & -> & _)]; exact Hid0).
    assert (Hkey : In playerId (JsMap.keys (GameRoom.players (this w))))
      by (apply JsMap_get_some_keys; rewrite Hg; discriminate).
    unfold keyed. cbn [this GameRoom.players GameRoom.answered GameRoom.finishedOrder].
    rewrite (JsMap_set_keys_present _ _ _ Hkey).
    split; [exact H1|]. split.
    { intros k p1 Hin. apply JsMap_set_In in Hin.
      destruct Hin as [[= -> ->] | Hin]; [exact Hid' | now apply H2]. }
    split; [now apply JsSet_add_NoDup|]. split.
    { intros k Hin. apply JsSet_add_In in Hin. destruct Hin as [-> | Hin]; auto. }
    intros k Hin.
    destruct Hcase as [(_ & _ & ->) | (_ & _ & ->)]; [now apply H5|].
    destruct (Qle_bool 100 (Player.progress p') && _ && _); [| now apply H5].
    apply in_app_or in Hin. destruct Hin as [Hin | [<- | []]]; [now apply H5|].
    now rewrite Hid0.
  - rewrite this_fire. destruct (timeouts w); [exact Hk|].
    rewrite this_next. destruct (GameRoom.currentIndex (this w) <? 4).
    + apply (keyed_unchanged (this w)); [reflexivity | now right | now left | exact Hk].
    + apply (keyed_unchanged (this w)); [reflexivity | now left | now left | exact Hk].
Qed.

Lemma keyed_new (id : string) : keyed (GameRoom.new id).
Proof.
  unfold keyed. cbn. repeat split; try constructor; try contradiction.
Qed.






(** ** What the operations do to a player *)





Lemma JsSet_has_add_keeps (s : JsSet.t) (k x : string) :
  JsSet.has s x = true -> JsSet.has (JsSet.add s k) x = true.
Proof.
  intros H. unfold JsSet.add. destruct (JsSet.has s k); [exact H|].
  unfold JsSet.has in *. rewrite existsb_app, H. reflexivity.
Qed.

(** X9: once a player has answered the current question, no sequence of
    answers (theirs or anyone's, right or wrong) and timer ticks changes the
    player's record: at most one answer per player and question is ever
    scored, until the question changes. *)
Theorem answered_player_is_frozen (w : World) (es : list Event) (k : string) :
  JsSet.has (GameRoom.answered (this w)) k = true ->
  (forall e, In e es -> e = Tick \/ exists k' c, e = Answer k' c) ->
  JsMap.get (GameRoom.players (this (run w es))) k = JsMap.get (GameRoom.players (this w)) k
  /\ JsSet.has (GameRoom.answered (this (run w es))) k = true
  /\ GameRoom.currentIndex (this (run w es)) = GameRoom.currentIndex (this w).
Proof.
  revert w. induction es as [|e es IH]; intros w Ha Hes; [now repeat split|].
  cbn [run fold_left]. fold (run (step w e) es).
  assert (Hstep : JsMap.get (GameRoom.players (this (step w e))) k
                  = JsMap.get (GameRoom.players (this w)) k
                  /\ JsSet.has (GameRoom.answered (this (step w e))) k = true
                  /\ GameRoom.currentIndex (this (step w e)) = GameRoom.currentIndex (this w)).
  { destruct (Hes e (or_introl eq_refl)) as [-> | (k' & c & ->)]; cbn [step].
    - rewrite this_tick. now destruct (GameRoom.started (this w)).
    - destruct (answer_cases w k' c)
        as [-> | (q & p & p' & fo' & Hs & Hq & Ha' & Hg & Hcase & ->)]; [now repeat split|].
      cbn [this GameRoom.players GameRoom.answered GameRoom.currentIndex].
      assert (Hne : k <> k') by (intros ->; congruence).
      split; [now apply JsMap_get_set_other|].
      split; [now apply JsSet_has_add_keeps | reflexivity]. }
  destruct Hstep as (H1 & H2 & H3).
  destruct (IH (step w e) H2 (fun e' He' => Hes e' (or_intror He'))) as (I1 & I2 & I3).
  rewrite I1, I3. repeat split; assumption.
Qed.

Lemma answered_player_is_frozen_witness :
  JsMap.get (GameRoom.players
               (this (run (run sample_started [Answer "i" 0])
                          [Answer "i" 1; Tick; Answer "i" 1]))) "i"
  = JsMap.get (GameRoom.players (this (run sample_started [Answer "i" 0]))) "i".
Proof.
  apply (answered_player_is_frozen (run sample_started [Answer "i" 0])
           [Answer "i" 1; Tick; Answer "i" 1] "i").
  - vm_compute. reflexivity.
  - intros e [<- | [<- | [<- | []]]];
      [right; now exists "i", 1 | now left | right; now exists "i", 1].
Defined.



(** * The server *)

(** ** Calls on a room of the registry *)

Lemma call_absorb {A} (key : string) (r : GameRoom.t) (m : M A) (s : Server) :
  call key r m s = (fst (m (world_of r s)), absorb key s (exec m (world_of r s))).
Proof.
  unfold call, exec. fold (world_of r s). now destruct (m (world_of r s)).
Qed.

Lemma getRoom_spec (id : string) (s : Server) :
  let r := fst (getRoom id s) in
  let s1 := snd (getRoom id s) in
  JsMap.get (rooms s1) id = Some r
  /\ (forall k, k <> id -> JsMap.get (rooms s1) k = JsMap.get (rooms s) k)
  /\ ((JsMap.get (rooms s) id = Some r /\ s1 = s)
      \/ (JsMap.get (rooms s) id = None /\ r = GameRoom.new id
          /\ JsMap.keys (rooms s1) = JsMap.keys (rooms s) ++ [id]))
  /\ sent s1 = sent s /\ memberships s1 = memberships s /\ replies s1 = replies s
  /\ running s1 = running s /\ pending s1 = pending s /\ timerCount s1 = timerCount s
  /\ entropy s1 = entropy s /\ used s1 = used s.
Proof.
  unfold getRoom. destruct (JsMap.get (rooms s) id) as [r|] eqn:E; cbn.
  - split; [exact E|]. split; [reflexivity|]. split; [now left|]. repeat split.
  - split; [apply JsMap_get_set_same|].
    split; [intros k Hk; now apply JsMap_get_set_other|].
    split; [| repeat split].
    right. split; [reflexivity|]. split; [reflexivity|].
    apply JsMap_set_keys_absent. intros Hin. apply JsMap_get_some_keys in Hin. congruence.
Qed.

Lemma on_room_absorb (roomId : option string) (m : M unit) (s : Server) :
  on_room roomId m s
  = absorb (or_else roomId "main") (snd (getRoom (or_else roomId "main") s))
           (exec m (world_of (fst (getRoom (or_else roomId "main") s))
                             (snd (getRoom (or_else roomId "main") s)))).
Proof.
  unfold on_room. destruct (getRoom (or_else roomId "main") s) as [room s1].
  now rewrite call_absorb.
Qed.

Lemma handle_join_absorb (socket : string) (roomId name color : option string) (s : Server) :
  let key := or_else roomId "main" in
  let room := fst (getRoom key s) in
  let s1 := snd (getRoom key s) in
  let s2 := mkServer (rooms s1) (sent s1) (memberships s1 ++ [(socket, GameRoom.id room)])
                     (replies s1) (running s1) (pending s1) (timerCount s1) (entropy s1)
                     (used s1) in
  let jn := join socket (or_else name "") (or_else color "#00f6ff") in
  let s3 := absorb key s2 (exec jn (world_of room s2)) in
  handle socket (RoomJoin roomId name color) s
  = mkServer (rooms s3) (sent s3) (memberships s3)
             (replies s3 ++ [(socket, fst (jn (world_of room s2)))])
             (running s3) (pending s3) (timerCount s3) (entropy s3) (used s3).
Proof.
  cbv zeta. unfold handle. destruct (getRoom (or_else roomId "main") s) as [room s1].
  rewrite call_absorb. reflexivity.
Qed.

(** ** Rooms do not interfere *)

(** X12: an event changes no room but the one it is about: a message
    changes at most the room it names (the room ["main"] when it names none
    or the empty string), a timer at most its own room; every other room of
    the registry is exactly as before. *)
Theorem rooms_are_isolated (s : Server) (e : ServerEvent) (k : string) :
  target s e <> Some k ->
  JsMap.get (rooms (serve s e)) k = JsMap.get (rooms s) k.
Proof.
  intros Ht.
  assert (Hon : forall roomId m, or_else roomId "main" <> k ->
                  JsMap.get (rooms (on_room roomId m s)) k = JsMap.get (rooms s) k).
  { intros roomId m Hk. rewrite on_room_absorb. cbn [absorb rooms].
    rewrite JsMap_get_set_other by congruence.
    apply (getRoom_spec (or_else roomId "main") s). congruence. }
  destruct e as [socket msg | k0 |]; cbn [serve target] in *.
  - assert (Hk : or_else (roomId_of msg) "main" <> k) by congruence.
    destruct msg; cbn [roomId_of] in Hk; try (now apply Hon).
    rewrite handle_join_absorb. cbn [absorb rooms].
    rewrite JsMap_get_set_other by congruence.
    apply (getRoom_spec (or_else roomId "main") s). congruence.
  - destruct (JsMap.get (rooms s) k0) as [r|]; [| reflexivity].
    rewrite call_absorb. cbn [snd absorb rooms].
    apply JsMap_get_set_other. congruence.
  - destruct (pending s) as [|[k0 d] rest]; [reflexivity|]. cbn [rooms].
    destruct (JsMap.get (rooms s) k0) as [r|]; [| reflexivity].
    rewrite call_absorb. cbn [snd absorb rooms].
    apply JsMap_get_set_other. congruence.
Qed.

Lemma rooms_are_isolated_witness :
  JsMap.get (rooms (serve (fold_left serve
                             [Receive "a" (RoomJoin None (Some "Ann") None);
                              Receive "b" (RoomJoin (Some "x") None (Some "red"))]
                             (boot half))
                          (Receive "a" (RaceStart None)))) "x"
  = JsMap.get (rooms (fold_left serve
                        [Receive "a" (RoomJoin None (Some "Ann") None);
                         Receive "b" (RoomJoin (Some "x") None (Some "red"))]
                        (boot half))) "x".
Proof.
  apply (rooms_are_isolated
           (fold_left serve
              [Receive "a" (RoomJoin None (Some "Ann") None);
               Receive "b" (RoomJoin (Some "x") None (Some "red"))]
              (boot half))
           (Receive "a" (RaceStart None)) "x").
  vm_compute. discriminate.
Defined.

(** ** The registry *)

Lemma absorb_keys (key : string) (s : Server) (w' : World) :
  JsMap.get (rooms s) key <> None ->
  JsMap.keys (rooms (absorb key s w')) = JsMap.keys (rooms s).
Proof.
  intros H. cbn [absorb rooms]. apply JsMap_set_keys_present.
  now apply JsMap_get_some_keys.
Qed.

(** X13: rooms are created on first reference and never replaced or
    removed.  After a message the room it names is in the registry; the
    registry has the same ids in the same order as before when that room
    existed, and one more id at the end, the room's, when it did not, in
    which case the message was handled by a room fresh from the
    constructor.  Timers never create a room. *)
Theorem registry_get_or_create (s : Server) (socket : string) (msg : Message) :
  let key := or_else (roomId_of msg) "main" in
  (exists r', JsMap.get (rooms (handle socket msg s)) key = Some r')
  /\ (JsMap.get (rooms s) key <> None ->
      JsMap.keys (rooms (handle socket msg s)) = JsMap.keys (rooms s)
      /\ fst (getRoom key s) = match JsMap.get (rooms s) key with
                               | Some r => r
                               | None => GameRoom.new key
                               end)
  /\ (JsMap.get (rooms s) key = None ->
      JsMap.keys (rooms (handle socket msg s)) = JsMap.keys (rooms s) ++ [key]
      /\ fst (getRoom key s) = GameRoom.new key)
  /\ (forall k, JsMap.keys (rooms (serve s (IntervalFires k))) = JsMap.keys (rooms s))
  /\ JsMap.keys (rooms (serve s TimeoutFires)) = JsMap.keys (rooms s).
Proof.
  intros key.
  assert (Hrooms : exists w',
             rooms (handle socket msg s)
             = JsMap.set (rooms (snd (getRoom key s))) key (this w')).
  { subst key. destruct msg; cbn [roomId_of];
      [rewrite handle_join_absorb; eexists; reflexivity | ..];
      cbn [handle]; rewrite on_room_absorb; eexists; reflexivity. }
  destruct Hrooms as (w' & Hrooms).
  pose proof (getRoom_spec key s) as Hg. cbv zeta in Hg.
  destruct Hg as (Hget & _ & Hcase & _).
  assert (Hin : In key (JsMap.keys (rooms (snd (getRoom key s)))))
    by (apply JsMap_get_some_keys; rewrite Hget; discriminate).
  split; [rewrite Hrooms, JsMap_get_set_same; now eexists|].
  split; [| split; [| split]].
  - intros Hsome. rewrite Hrooms, (JsMap_set_keys_present _ _ _ Hin).
    destruct Hcase as [(E & ->) | (E & _)]; [| contradiction].
    split; [reflexivity | now rewrite E].
  - intros Hnone. rewrite Hrooms, (JsMap_set_keys_present _ _ _ Hin).
    destruct Hcase as [(E & _) | (_ & E1 & E2)]; [congruence | now split].
  - intros k. cbn [serve]. destruct (JsMap.get (rooms s) k) as [r|] eqn:E; [| reflexivity].
    rewrite call_absorb. cbn [snd]. apply absorb_keys. congruence.
  - cbn [serve]. destruct (pending s) as [|[k0 d] rest]; [reflexivity|]. cbn [rooms].
    destruct (JsMap.get (rooms s) k0) as [r|] eqn:E; [| reflexivity].
    rewrite call_absorb. cbn [snd]. cbn [absorb rooms].
    apply JsMap_set_keys_present. apply JsMap_get_some_keys. congruence.
Qed.

Lemma registry_get_or_create_witness :
  JsMap.keys (rooms (handle "a" (RaceStart (Some "pit"))
                            (handle "a" (RoomJoin None None None) (boot half))))
  = JsMap.keys (rooms (handle "a" (RoomJoin None None None) (boot half))) ++ ["pit"]
  /\ JsMap.keys (rooms (handle "a" (RaceStart (Some ""))
                               (handle "a" (RoomJoin None None None) (boot half))))
     = JsMap.keys (rooms (handle "a" (RoomJoin None None None) (boot half))).
Proof.
  pose proof (registry_get_or_create (handle "a" (RoomJoin None None None) (boot half))
                "a" (RaceStart (Some "pit"))) as H1.
  pose proof (registry_get_or_create (handle "a" (RoomJoin None None None) (boot half))
                "a" (RaceStart (Some ""))) as H2.
  cbv zeta in H1, H2.
  destruct H1 as (_ & _ & H1 & _). destruct H2 as (_ & H2 & _).
  split.
  - apply H1. vm_compute. reflexivity.
  - apply H2. vm_compute. discriminate.
Defined.

(** ** Invariants of every room of the server *)









(** ** The [room:join] handler *)




(** * The client *)













(** * Whole rounds *)

(** X18: a round has as many questions as the bank: from a room on
    question [i], [n] calls of [next] leave it on question [min(i + n, 4)],
    and the room is still started exactly when it was and [i + n <= 4]; the
    call on the last question ends the round, and further calls change
    neither the index nor the players. *)
Theorem next_n_times (w : World) (n : nat) :
  0 <= GameRoom.currentIndex (this w) <= 4 ->
  let w' := run w (repeat Next n) in
  GameRoom.currentIndex (this w') = Z.min (GameRoom.currentIndex (this w) + Z.of_nat n) 4
  /\ GameRoom.started (this w')
     = GameRoom.started (this w) && (GameRoom.currentIndex (this w) + Z.of_nat n <=? 4)
  /\ GameRoom.players (this w') = GameRoom.players (this w)
  /\ GameRoom.finishedOrder (this w') = GameRoom.finishedOrder (this w)
  /\ List.length (emitted w') = (List.length (emitted w) + n)%nat.
Proof.
  revert w. induction n as [|n IH]; intros w Hi w'; subst w'.
  - cbn [repeat run fold_left]. rewrite Z.add_0_r.
    replace (GameRoom.currentIndex (this w) <=? 4) with true
      by (symmetry; apply Z.leb_le; lia).
    rewrite andb_true_r. repeat split; lia.
  - cbn [repeat run fold_left step]. fold (run (exec next w) (repeat Next n)).
    pose proof (next_world w) as Hw. cbv zeta in Hw. apply (f_equal emitted) in Hw.
    cbn [emitted] in Hw.
    assert (Hi' : 0 <= GameRoom.currentIndex (this (exec next w)) <= 4).
    { rewrite this_next. destruct (GameRoom.currentIndex (this w) <? 4) eqn:E; cbn; [|lia].
      apply Z.ltb_lt in E. lia. }
    specialize (IH (exec next w) Hi'). cbv zeta in IH.
    destruct IH as (I1 & I2 & I3 & I4 & I5).
    rewrite I1, I2, I3, I4, I5, Hw, length_app. cbn [List.length].
    rewrite this_next, Nat2Z.inj_succ. unfold Z.succ.
    destruct (GameRoom.currentIndex (this w) <? 4) eqn:E;
      cbn [GameRoom.currentIndex GameRoom.started GameRoom.players GameRoom.finishedOrder
           GameRoom.with_started].
    + apply Z.ltb_lt in E.
      replace (GameRoom.currentIndex (this w) + 1 + Z.of_nat n)
        with (GameRoom.currentIndex (this w) + (Z.of_nat n + 1)) by lia.
      repeat split; lia.
    + apply Z.ltb_ge in E. split; [lia|]. split; [| repeat split; lia].
      replace (GameRoom.currentIndex (this w) + (Z.of_nat n + 1) <=? 4) with false
        by (symmetry; apply Z.leb_gt; lia).
      now rewrite andb_false_r.
Qed.

Lemma next_n_times_witness :
  GameRoom.currentIndex (this (run sample_started (repeat Next 7))) = 4
  /\ GameRoom.started (this (run sample_started (repeat Next 7))) = false.
Proof.
  pose proof (next_n_times sample_started 7) as H. cbv zeta in H.
  destruct H as (H1 & H2 & _); [vm_compute; split; discriminate|].
  split; [rewrite H1 | rewrite H2]; vm_compute; reflexivity.
Defined.

Lemma ticks_frame (w : World) (n : nat) :
  GameRoom.started (this (run w (repeat Tick n))) = GameRoom.started (this w)
  /\ GameRoom.currentIndex (this (run w (repeat Tick n))) = GameRoom.currentIndex (this w)
  /\ GameRoom.players (this (run w (repeat Tick n))) = GameRoom.players (this w)
  /\ GameRoom.finishedOrder (this (run w (repeat Tick n))) = GameRoom.finishedOrder (this w)
  /\ GameRoom.answered (this (run w (repeat Tick n))) = GameRoom.answered (this w).
Proof.
  revert w. induction n as [|n IH]; intros w; [now repeat split|].
  cbn [repeat run fold_left step]. fold (run (exec tick w) (repeat Tick n)).
  destruct (IH (exec tick w)) as (I1 & I2 & I3 & I4 & I5).
  rewrite I1, I2, I3, I4, I5, this_tick.
  destruct (GameRoom.started (this w)) eqn:E; cbn; rewrite ?E; repeat split.
Qed.

Lemma clamp_cases (z : Q) :
  ((100 <= z)%Q /\ (clamp z 0 100 == 100)%Q) \/ ((z < 100)%Q /\ (z <= clamp z 0 100)%Q).
Proof.
  unfold clamp. destruct (Qlt_le_dec z 100) as [H | H].
  - right. split; [exact H|]. rewrite (Q.min_r 100 z) by lra. apply Q.le_max_r.
  - left. split; [exact H|]. rewrite (Q.min_l 100 z) by exact H. apply Q.max_r. lra.
Qed.

(** * The methods with rounded arithmetic *)

(** What follows holds for every rounding [rnd] and every rendering
    [render36], hence for the exact arithmetic of [join] and [answer] and
    for the binary64 arithmetic of the program alike. *)

Section rounded_methods.
Variable rnd : Q -> Q.
Variable render36 : Q -> string.

(** Without rounding, and with the exact expansion, the methods are [join]
    and [answer]. *)
Lemma step_r_exact (w : World) (e : Event) :
  step_r (fun x => x) toString36 w e = step w e.
Proof. destruct e; reflexivity. Qed.

Lemma run_r_app (w : World) (es1 es2 : list Event) :
  run_r rnd render36 w (es1 ++ es2) = run_r rnd render36 (run_r rnd render36 w es1) es2.
Proof. unfold run_r. apply fold_left_app. Qed.

Lemma this_join_r (w : World) (s n c : string) :
  let p := fst (join_r rnd render36 s n c w) in
  this (exec (join_r rnd render36 s n c) w) =
  GameRoom.with_players (JsMap.set (GameRoom.players (this w)) (Player.id p) p) (this w)
  /\ Player.id p = slice 2 9 (render36 (random w (drawn w)))
  /\ Player.progress p = 0%Q /\ Player.score p = 0 /\ Player.streak p = 0.
Proof. js_world_r w. destruct (String.eqb n ""); js_eval_r; repeat split; reflexivity. Qed.

Lemma join_r_world (w : World) (s n c : string) :
  exec (join_r rnd render36 s n c) w =
  let r' := this (exec (join_r rnd render36 s n c) w) in
  mkWorld r' (emitted w ++ [(GameRoom.id r', GameRoom.wire r')])
    (intervals w) (timeouts w) (nextTimer w) (random w)
    (drawn w + (if String.eqb n "" then 3 else 2))%nat.
Proof.
  js_world_r w. destruct (String.eqb n ""); js_eval_r; do 2 f_equal; lia.
Qed.

Lemma answer_r_ignored (w : World) (playerId : string) (choiceIndex : Z) :
  GameRoom.started (this w) = false
  \/ at_index QUESTIONS (GameRoom.currentIndex (this w)) = None
  \/ JsSet.has (GameRoom.answered (this w)) playerId = true
  \/ JsMap.get (GameRoom.players (this w)) playerId = None ->
  exec (answer_r rnd playerId choiceIndex) w = w.
Proof.
  js_world_r w. intros H.
  destruct st; js_eval_r; [|reflexivity].
  destruct (at_index QUESTIONS ci) as [q|]; js_eval_r; [|reflexivity].
  destruct (JsSet.has an playerId); js_eval_r; [reflexivity|].
  destruct (JsMap.get pl playerId) as [p|]; js_eval_r; [|reflexivity].
  destruct H as [H|[H|[H|H]]]; discriminate.
Qed.

Lemma answer_r_incorrect
    (w : World) (playerId : string) (choiceIndex : Z) (q : MCQ.t) (p : Player.t) :
  GameRoom.started (this w) = true ->
  at_index QUESTIONS (GameRoom.currentIndex (this w)) = Some q ->
  JsSet.has (GameRoom.answered (this w)) playerId = false ->
  JsMap.get (GameRoom.players (this w)) playerId = Some p ->
  choiceIndex <> MCQ.answerIndex q ->
  let r' := GameRoom.with_players
              (JsMap.set (GameRoom.players (this w)) playerId (Player.with_streak 0 p))
              (GameRoom.with_answered (JsSet.add (GameRoom.answered (this w)) playerId) (this w)) in
  exec (answer_r rnd playerId choiceIndex) w =
  mkWorld r' (emitted w ++ [(GameRoom.id r', GameRoom.wire r')])
          (intervals w) (timeouts w) (nextTimer w) (random w) (drawn w).
Proof.
  js_world_r w. intros -> -> -> -> Hc. js_eval_r.
  apply Z.eqb_neq in Hc. rewrite Hc. js_eval_r. reflexivity.
Qed.

Lemma answer_r_correct
    (w : World) (playerId : string) (choiceIndex : Z) (q : MCQ.t) (p : Player.t) :
  GameRoom.started (this w) = true ->
  at_index QUESTIONS (GameRoom.currentIndex (this w)) = Some q ->
  JsSet.has (GameRoom.answered (this w)) playerId = false ->
  JsMap.get (GameRoom.players (this w)) playerId = Some p ->
  choiceIndex = MCQ.answerIndex q ->
  let tl := GameRoom.timeLeft (this w) in
  let p' := Player.mk (Player.id p) (Player.name p) (Player.color p) (Player.avatar p)
              (clamp (rnd (Player.progress p + push_r rnd tl (Player.streak p)))
                     0 (inject_Z TRACK_LEN))
              (Player.score p + points_r rnd tl (Player.streak p))
              (Player.streak p + 1)
              (Player.socketId p) in
  let fo := GameRoom.finishedOrder (this w) in
  let r' := GameRoom.mk (GameRoom.id (this w)) true (GameRoom.currentIndex (this w)) tl
              (JsMap.set (GameRoom.players (this w)) playerId p')
              (if Qle_bool 100 (Player.progress p')
                  && negb (existsb (String.eqb (Player.id p)) fo)
                  && (Z.of_nat (List.length fo) <? 3)
               then fo ++ [Player.id p] else fo)
              (GameRoom.interval (this w))
              (JsSet.add (GameRoom.answered (this w)) playerId) in
  exec (answer_r rnd playerId choiceIndex) w =
  mkWorld r' (emitted w ++ [(GameRoom.id r', GameRoom.wire r')])
          (intervals w) (timeouts w) (nextTimer w) (random w) (drawn w).
Proof.
  js_world_r w. intros -> -> -> -> ->. js_eval_r.
  rewrite Z.eqb_refl. js_eval_r.
  unfold push_r, points_r, speedBonus_r.
  cbn [Player.progress Player.with_progress Player.with_score Player.with_streak
       Player.id Player.score Player.streak].
  destruct (Qle_bool 100 _ && _ && _); js_eval_r; reflexivity.
Qed.

(** An answer is either ignored, or it is accepted from a known player [p]
    who had not answered: the player is replaced by [p'] and the finish
    order becomes [fo']. *)
Lemma answer_r_cases (w : World) (playerId : string) (choiceIndex : Z) :
  exec (answer_r rnd playerId choiceIndex) w = w
  \/ exists q p p' fo',
       GameRoom.started (this w) = true
       /\ at_index QUESTIONS (GameRoom.currentIndex (this w)) = Some q
       /\ JsSet.has (GameRoom.answered (this w)) playerId = false
       /\ JsMap.get (GameRoom.players (this w)) playerId = Some p
       /\ ((choiceIndex <> MCQ.answerIndex q
            /\ p' = Player.with_streak 0 p
            /\ fo' = GameRoom.finishedOrder (this w))
           \/ (choiceIndex = MCQ.answerIndex q
               /\ p' = Player.mk (Player.id p) (Player.name p) (Player.color p) (Player.avatar p)
                         (clamp (rnd (Player.progress p
                                      + push_r rnd (GameRoom.timeLeft (this w))
                                               (Player.streak p))) 0 100)
                         (Player.score p
                          + points_r rnd (GameRoom.timeLeft (this w)) (Player.streak p))
                         (Player.streak p + 1) (Player.socketId p)
               /\ fo' = if Qle_bool 100 (Player.progress p')
                           && negb (existsb (String.eqb (Player.id p))
                                            (GameRoom.finishedOrder (this w)))
                           && (Z.of_nat (List.length (GameRoom.finishedOrder (this w))) <? 3)
                        then GameRoom.finishedOrder (this w) ++ [Player.id p]
                        else GameRoom.finishedOrder (this w)))
       /\ exec (answer_r rnd playerId choiceIndex) w =
          let r' := GameRoom.mk (GameRoom.id (this w)) true (GameRoom.currentIndex (this w))
                      (GameRoom.timeLeft (this w))
                      (JsMap.set (GameRoom.players (this w)) playerId p') fo'
                      (GameRoom.interval (this w))
                      (JsSet.add (GameRoom.answered (this w)) playerId) in
          mkWorld r' (emitted w ++ [(GameRoom.id r', GameRoom.wire r')])
                  (intervals w) (timeouts w) (nextTimer w) (random w) (drawn w).
Proof.
  destruct (GameRoom.started (this w)) eqn:Hs; [| left; apply answer_r_ignored; tauto].
  destruct (at_index QUESTIONS (GameRoom.currentIndex (this w))) as [q|] eqn:Hq;
    [| left; apply answer_r_ignored; tauto].
  destruct (JsSet.has (GameRoom.answered (this w)) playerId) eqn:Ha;
    [left; apply answer_r_ignored; tauto|].
  destruct (JsMap.get (GameRoom.players (this w)) playerId) as [p|] eqn:Hp;
    [| left; apply answer_r_ignored; tauto].
  right. exists q, p.
  destruct (Z.eq_dec choiceIndex (MCQ.answerIndex q)) as [Hc|Hc].
  - eexists. eexists. do 4 (split; [reflexivity|]).
    split; [right; split; [exact Hc | split; reflexivity]|].
    rewrite (answer_r_correct w playerId choiceIndex q p Hs Hq Ha Hp Hc).
    destruct w as [[i st ci tl pl fo iv an] em its tos nt random0 dr]. cbn in *. subst st.
    reflexivity.
  - eexists. eexists. do 4 (split; [reflexivity|]).
    split; [left; split; [exact Hc | split; reflexivity]|].
    rewrite (answer_r_incorrect w playerId choiceIndex q p Hs Hq Ha Hp Hc).
    destruct w as [[i st ci tl pl fo iv an] em its tos nt random0 dr]. cbn in *. subst st.
    reflexivity.
Qed.

(** *** The finish order *)

Lemma finish_step_r (w : World) (e : Event) (log : list string) :
  GameRoom.finishedOrder (this w) = firstn 3 (distinct log) ->
  GameRoom.finishedOrder (this (step_r rnd render36 w e))
  = firstn 3 (distinct (if clears w e then []
                        else match arrival_r rnd render36 w e with
                             | Some i => log ++ [i]
                             | None => log
                             end)).
Proof.
  intros Hfo. destruct e; cbn [clears arrival_r].
  - cbn [step_r]. pose proof (this_join_r w socketId name color) as H. cbv zeta in H.
    destruct H as (-> & _). exact Hfo.
  - cbn [step_r]. rewrite this_start.
    destruct (GameRoom.started (this w)); [exact Hfo | reflexivity].
  - cbn [step_r]. rewrite this_tick. now destruct (GameRoom.started (this w)).
  - cbn [step_r]. rewrite this_next. now destruct (GameRoom.currentIndex (this w) <? 4).
  - cbn [step_r]. now rewrite this_reset.
  - cbn [step_r].
    destruct (answer_r_cases w playerId choiceIndex)
      as [-> | (q & p & p' & fo' & Hs & Hq & Ha & Hg & Hcase & ->)].
    + now destruct (JsSet.has (GameRoom.answered (this w)) playerId).
    + cbn [this GameRoom.answered GameRoom.players GameRoom.finishedOrder].
      rewrite Ha, JsSet_has_add, Hq, JsMap_get_set_same. cbn [negb andb].
      destruct Hcase as [(Hc & -> & ->) | (Hc & Hp' & ->)].
      * apply Z.eqb_neq in Hc. rewrite Hc. exact Hfo.
      * apply Z.eqb_eq in Hc. rewrite Hc. cbn [andb].
        assert (Hid : Player.id p' = Player.id p) by now rewrite Hp'.
        rewrite Hid.
        destruct (Qle_bool 100 (Player.progress p')); cbn [andb]; [| exact Hfo].
        rewrite distinct_snoc. now apply finish_push.
  - cbn [step_r]. rewrite this_fire. destruct (timeouts w); [exact Hfo|].
    rewrite this_next. now destruct (GameRoom.currentIndex (this w) <? 4).
Qed.

Lemma finish_run_r (es : list Event) (w : World) (log : list string) :
  GameRoom.finishedOrder (this w) = firstn 3 (distinct log) ->
  GameRoom.finishedOrder (this (run_r rnd render36 w es))
  = firstn 3 (distinct (arrivals_r rnd render36 w es log)).
Proof.
  revert w log. induction es as [|e es IH]; intros w log Hfo; [exact Hfo|].
  cbn [run_r fold_left arrivals_r]. apply IH. now apply finish_step_r.
Qed.

Lemma distinct_NoDup (l : list string) : NoDup (distinct l).
Proof.
  unfold distinct. assert (H : NoDup (@nil string)) by constructor.
  revert H. generalize (@nil string) as acc.
  induction l as [|x l IH]; intros acc H; [exact H|].
  cbn [fold_left]. apply IH. now apply JsSet_add_NoDup.
Qed.

Lemma firstn_NoDup {A} (n : nat) (l : list A) : NoDup l -> NoDup (firstn n l).
Proof.
  intros H. rewrite <- (firstn_skipn n l) in H. now apply NoDup_app_remove_r in H.
Qed.

End rounded_methods.

Section rounded_scoring.
Variable rnd : Q -> Q.

Lemma push_r_unfold (timeLeft streak : Z) :
  push_r rnd timeLeft streak
  = rnd (rnd (18 + rnd (inject_Z (Z.max 0 (timeLeft - 5)) * rnd 0.8))
         + rnd (inject_Z (streak * 4)))%Q.
Proof. reflexivity. Qed.

Lemma points_r_unfold (timeLeft streak : Z) :
  points_r rnd timeLeft streak
  = Math_round (rnd (rnd (100 + rnd (rnd (inject_Z (Z.max 0 (timeLeft - 5)) * rnd 0.8) * 5))
                     + rnd (inject_Z (streak * 10))))%Q.
Proof. reflexivity. Qed.

(** The player that an accepted correct answer stores. *)
Lemma answer_r_correct_player
    (w : World) (playerId : string) (choiceIndex : Z) (q : MCQ.t) (p : Player.t) :
  GameRoom.started (this w) = true ->
  at_index QUESTIONS (GameRoom.currentIndex (this w)) = Some q ->
  JsSet.has (GameRoom.answered (this w)) playerId = false ->
  JsMap.get (GameRoom.players (this w)) playerId = Some p ->
  choiceIndex = MCQ.answerIndex q ->
  exists p',
    JsMap.get (GameRoom.players (this (exec (answer_r rnd playerId choiceIndex) w))) playerId
    = Some p'
    /\ Player.progress p'
       = clamp (rnd (Player.progress p
                     + push_r rnd (GameRoom.timeLeft (this w)) (Player.streak p))) 0 100
    /\ Player.score p'
       = Player.score p + points_r rnd (GameRoom.timeLeft (this w)) (Player.streak p)
    /\ Player.streak p' = Player.streak p + 1.
Proof.
  intros Hs Hq Ha Hp Hc.
  rewrite (answer_r_correct rnd w playerId choiceIndex q p Hs Hq Ha Hp Hc).
  cbn [this GameRoom.players]. rewrite JsMap_get_set_same.
  eexists. split; [reflexivity|].
  cbn [Player.progress Player.score Player.streak]. repeat split.
Qed.

End rounded_scoring.

(** * Binary64 rounding *)

(** ** Powers of two *)

Lemma pow2_Qpower (e : Z) : (pow2 e == 2 ^ e)%Q.
Proof.
  destruct e as [|p|p]; [reflexivity| |].
  - unfold pow2. change (Z.pow_pos 2 p) with (2 ^ Z.pos p).
    now rewrite Zpower_Qpower.
  - unfold pow2. change (2 ^ Z.neg p)%Q with (/ (2 ^ Z.pos p))%Q.
    rewrite <- (Zpower_Qpower 2 (Z.pos p)) by discriminate.
    rewrite <- Pos2Z.inj_pow. reflexivity.
Qed.

Lemma pow2_pos (e : Z) : (0 < pow2 e)%Q.
Proof. rewrite pow2_Qpower. now apply Qpower_0_lt. Qed.

Lemma pow2_add (a b : Z) : (pow2 (a + b) == pow2 a * pow2 b)%Q.
Proof. rewrite !pow2_Qpower. now apply Qpower_plus. Qed.

Lemma pow2_le (a b : Z) : a <= b -> (pow2 a <= pow2 b)%Q.
Proof. intros H. rewrite !pow2_Qpower. now apply Qpower_le_compat_l. Qed.

Lemma pow2_lt_inv (a b : Z) : (pow2 a < pow2 b)%Q -> a < b.
Proof. rewrite !pow2_Qpower. intros H. now apply (Qpower_lt_compat_l_inv 2). Qed.

Lemma pow2_nonneg_exponent (a : Z) : 0 <= a -> (pow2 a == inject_Z (2 ^ a))%Q.
Proof. intros H. rewrite pow2_Qpower. now rewrite Zpower_Qpower. Qed.

(** ** The binary logarithm *)

Lemma ilog2_spec (q : Q) : (0 < q)%Q -> (pow2 (ilog2 q) <= q < pow2 (ilog2 q + 1))%Q.
Proof.
  intros Hq. destruct q as [n d].
  assert (Hn : 0 < n) by (unfold Qlt in Hq; cbn in Hq; lia).
  unfold ilog2. cbn [Qnum Qden].
  set (a := Z.log2 n). set (b := Z.log2 (Z.pos d)).
  destruct (Z.log2_spec n Hn) as [Ha1 Ha2]. fold a in Ha1, Ha2.
  destruct (Z.log2_spec (Z.pos d) eq_refl) as [Hb1 Hb2]. fold b in Hb1, Hb2.
  assert (Ha0 : 0 <= a) by apply Z.log2_nonneg.
  assert (Hb0 : 0 <= b) by apply Z.log2_nonneg.
  assert (Hqd : ((n # d) * inject_Z (Z.pos d) == inject_Z n)%Q).
  { unfold Qeq, Qmult, inject_Z. cbn. rewrite Pos.mul_1_r. lia. }
  assert (Hd : (0 < inject_Z (Z.pos d))%Q) by reflexivity.
  assert (Hlow : (pow2 a <= inject_Z n)%Q).
  { rewrite pow2_nonneg_exponent by exact Ha0. now rewrite <- Zle_Qle. }
  assert (Hupp : (inject_Z n < pow2 (a + 1))%Q).
  { rewrite pow2_nonneg_exponent by lia. rewrite <- Zlt_Qlt. exact Ha2. }
  assert (Hdlow : (pow2 b <= inject_Z (Z.pos d))%Q).
  { rewrite pow2_nonneg_exponent by exact Hb0. now rewrite <- Zle_Qle. }
  assert (Hdupp : (inject_Z (Z.pos d) < pow2 (b + 1))%Q).
  { rewrite pow2_nonneg_exponent by lia. rewrite <- Zlt_Qlt. exact Hb2. }
  destruct (Qle_bool (pow2 (a - b)) (n # d)) eqn:Et.
  - apply Qle_bool_iff in Et. split; [exact Et|].
    apply (Qmult_lt_r _ _ (inject_Z (Z.pos d)) Hd). rewrite Hqd.
    apply (Qlt_le_trans _ (pow2 (a + 1))); [exact Hupp|].
    replace (a + 1) with ((a - b + 1) + b) by lia. rewrite pow2_add.
    apply Qmult_le_l; [apply pow2_pos | exact Hdlow].
  - assert (Hlt : ((n # d) < pow2 (a - b))%Q).
    { apply Qnot_le_lt. intros H. apply Qle_bool_iff in H. congruence. }
    replace (a - b - 1 + 1) with (a - b) by lia. split; [| exact Hlt].
    apply (Qmult_le_r _ _ (pow2 (b + 1))); [apply pow2_pos|].
    rewrite <- pow2_add. replace (a - b - 1 + (b + 1)) with a by lia.
    apply (Qle_trans _ (inject_Z n)); [exact Hlow|].
    rewrite <- Hqd. apply Qmult_le_l; [exact Hq | now apply Qlt_le_weak].
Qed.

Lemma ilog2_below (q : Q) (k : Z) : (0 < q)%Q -> (q < pow2 k)%Q -> ilog2 q < k.
Proof.
  intros Hq Hk. apply pow2_lt_inv.
  apply (Qle_lt_trans _ q); [apply ilog2_spec, Hq | exact Hk].
Qed.

Lemma ilog2_above (q : Q) (k : Z) : (pow2 k <= q)%Q -> k <= ilog2 q.
Proof.
  intros Hk.
  assert (Hq : (0 < q)%Q) by (apply (Qlt_le_trans _ (pow2 k)); [apply pow2_pos | exact Hk]).
  assert (H : k < ilog2 q + 1); [| lia].
  apply pow2_lt_inv. apply (Qle_lt_trans _ q); [exact Hk | apply ilog2_spec, Hq].
Qed.

(** ** Rounding to the nearest integer, ties to even *)

Lemma round_half_even_cases (y : Q) :
  (round_half_even y = Qfloor y /\ (y - inject_Z (Qfloor y) <= 1 # 2)%Q)
  \/ (round_half_even y = Qfloor y + 1 /\ (1 # 2 <= y - inject_Z (Qfloor y))%Q).
Proof.
  unfold round_half_even.
  destruct (Qcompare (y - inject_Z (Qfloor y)) (1 # 2)) eqn:E.
  - apply Qeq_alt in E. destruct (Z.even (Qfloor y)); [left | right]; split; try reflexivity;
      rewrite E; apply Qle_refl.
  - apply Qlt_alt in E. left. split; [reflexivity | now apply Qlt_le_weak].
  - apply Qgt_alt in E. right. split; [reflexivity | now apply Qlt_le_weak].
Qed.

Lemma round_half_even_ge (y : Q) (K : Z) :
  (inject_Z K - (1 # 2) < y)%Q -> K <= round_half_even y.
Proof.
  intros H. pose proof (Qlt_floor y) as Hf. pose proof (Qfloor_le y) as Hf'.
  rewrite inject_Z_plus in Hf. change (inject_Z 1) with 1%Q in Hf.
  destruct (round_half_even_cases y) as [[-> Hc] | [-> Hc]].
  - assert (Hlt : (inject_Z K < inject_Z (Qfloor y + 1))%Q)
      by (rewrite inject_Z_plus; change (inject_Z 1) with 1%Q; lra).
    rewrite <- Zlt_Qlt in Hlt. lia.
  - assert (Hlt : (inject_Z K < inject_Z (Qfloor y + 1 + 1))%Q)
      by (rewrite !inject_Z_plus; change (inject_Z 1) with 1%Q; lra).
    rewrite <- Zlt_Qlt in Hlt. lia.
Qed.

Lemma round_half_even_le (y : Q) (K : Z) :
  (y < inject_Z K + (1 # 2))%Q -> round_half_even y <= K.
Proof.
  intros H. pose proof (Qlt_floor y) as Hf. pose proof (Qfloor_le y) as Hf'.
  rewrite inject_Z_plus in Hf. change (inject_Z 1) with 1%Q in Hf.
  destruct (round_half_even_cases y) as [[-> Hc] | [-> Hc]].
  - assert (Hlt : (inject_Z (Qfloor y) < inject_Z (K + 1))%Q)
      by (rewrite inject_Z_plus; change (inject_Z 1) with 1%Q; lra).
    rewrite <- Zlt_Qlt in Hlt. lia.
  - assert (Hlt : (inject_Z (Qfloor y + 1) < inject_Z (K + 1))%Q)
      by (rewrite !inject_Z_plus; change (inject_Z 1) with 1%Q; lra).
    rewrite <- Zlt_Qlt in Hlt. lia.
Qed.

Lemma round_half_even_near (y : Q) :
  (y - (1 # 2) <= inject_Z (round_half_even y) <= y + (1 # 2))%Q.
Proof.
  pose proof (Qlt_floor y) as Hf. pose proof (Qfloor_le y) as Hf'.
  rewrite inject_Z_plus in Hf. change (inject_Z 1) with 1%Q in Hf.
  destruct (round_half_even_cases y) as [[-> Hc] | [-> Hc]];
    rewrite ?inject_Z_plus; change (inject_Z 1) with 1%Q; lra.
Qed.

(** ** Rounding to the nearest binary64 number *)

Lemma round64_compat (x y : Q) : (x == y)%Q -> round64 x = round64 y.
Proof. intros H. unfold round64. now rewrite (Qred_complete x y H). Qed.

Lemma round64_zero (x : Q) : (x == 0)%Q -> round64 x = 0%Q.
Proof. intros H. now rewrite (round64_compat x 0 H). Qed.

(** The result is a multiple of the unit in the last place of [x]. *)
Lemma round64_nonzero (x : Q) :
  ~ (x == 0)%Q ->
  let e := ulp_exponent (Qred x) in
  (round64 x == inject_Z (round_half_even (Qred x / pow2 e)) * pow2 e)%Q.
Proof.
  intros Hx e. unfold round64.
  destruct (Qeq_bool (Qred x) 0) eqn:E.
  - apply Qeq_bool_iff in E. rewrite Qred_correct in E. contradiction.
  - fold e. apply Qred_correct.
Qed.

Lemma round64_ge_grid (x : Q) (K : Z) :
  ~ (x == 0)%Q ->
  ((inject_Z K - (1 # 2)) * pow2 (ulp_exponent (Qred x)) < x)%Q ->
  (inject_Z K * pow2 (ulp_exponent (Qred x)) <= round64 x)%Q.
Proof.
  intros Hx H. rewrite (round64_nonzero x Hx).
  set (e := ulp_exponent (Qred x)) in *.
  apply Qmult_le_compat_r; [| apply Qlt_le_weak, pow2_pos].
  rewrite <- Zle_Qle. apply round_half_even_ge.
  apply Qlt_shift_div_l; [apply pow2_pos|]. now rewrite Qred_correct.
Qed.

Lemma round64_le_grid (x : Q) (K : Z) :
  ~ (x == 0)%Q ->
  (x < (inject_Z K + (1 # 2)) * pow2 (ulp_exponent (Qred x)))%Q ->
  (round64 x <= inject_Z K * pow2 (ulp_exponent (Qred x)))%Q.
Proof.
  intros Hx H. rewrite (round64_nonzero x Hx).
  set (e := ulp_exponent (Qred x)) in *.
  apply Qmult_le_compat_r; [| apply Qlt_le_weak, pow2_pos].
  rewrite <- Zle_Qle. apply round_half_even_le.
  apply Qlt_shift_div_r; [apply pow2_pos|]. now rewrite Qred_correct.
Qed.

(** The result is within half a unit in the last place of [x]. *)
Lemma round64_near (x : Q) :
  let h := ((1 # 2) * pow2 (ulp_exponent (Qred x)))%Q in
  (x - h <= round64 x <= x + h)%Q.
Proof.
  intros h.
  destruct (Qeq_dec x 0) as [Hx | Hx].
  - rewrite (round64_zero x Hx), Hx.
    assert (Hh : (0 < h)%Q)
      by (unfold h; apply Qmult_lt_0_compat; [reflexivity | apply pow2_pos]).
    lra.
  - rewrite (round64_nonzero x Hx). subst h.
    set (e := ulp_exponent (Qred x)).
    pose proof (pow2_pos e) as Hp.
    pose proof (round_half_even_near (Qred x / pow2 e)) as [H1 H2].
    assert (Hdiv : (Qred x / pow2 e * pow2 e == x)%Q).
    { rewrite Qred_correct. field. intros H0. rewrite H0 in Hp. discriminate. }
    set (y := (Qred x / pow2 e)%Q) in *. set (p := pow2 e) in *. clearbody y p.
    set (r := inject_Z (round_half_even y)) in *. clearbody r.
    assert (L1 : ((y - (1 # 2)) * p <= r * p)%Q)
      by (apply Qmult_le_compat_r; [exact H1 | now apply Qlt_le_weak]).
    assert (L2 : (r * p <= (y + (1 # 2)) * p)%Q)
      by (apply Qmult_le_compat_r; [exact H2 | now apply Qlt_le_weak]).
    rewrite <- Hdiv.
    split.
    + apply (Qle_trans _ ((y - (1 # 2)) * p)); [| exact L1]. apply Qle_lteq. right. ring.
    + apply (Qle_trans _ ((y + (1 # 2)) * p)); [exact L2 |]. apply Qle_lteq. right. ring.
Qed.

(** The unit in the last place of a positive number, from its size. *)
Lemma ulp_exponent_positive (x : Q) :
  (0 < x)%Q -> ulp_exponent (Qred x) = Z.max (-1074) (ilog2 (Qabs (Qred x)) - 52)
               /\ (Qabs (Qred x) == x)%Q.
Proof.
  intros Hx. split; [reflexivity|].
  rewrite Qabs_pos; [apply Qred_correct | rewrite Qred_correct; now apply Qlt_le_weak].
Qed.

Lemma ulp_exponent_below (x : Q) (k : Z) :
  (0 < x)%Q -> (x < pow2 k)%Q -> -1021 <= k -> ulp_exponent (Qred x) <= k - 53.
Proof.
  intros Hx Hk Hmin. destruct (ulp_exponent_positive x Hx) as [-> Habs].
  assert (H : ilog2 (Qabs (Qred x)) < k); [| lia].
  apply ilog2_below; rewrite Habs; assumption.
Qed.

Lemma ulp_exponent_above (x : Q) (k : Z) :
  (pow2 k <= x)%Q -> k - 52 <= ulp_exponent (Qred x).
Proof.
  intros Hk.
  assert (Hx : (0 < x)%Q) by (apply (Qlt_le_trans _ (pow2 k)); [apply pow2_pos | exact Hk]).
  destruct (ulp_exponent_positive x Hx) as [-> Habs].
  assert (H : k <= ilog2 (Qabs (Qred x))); [| lia].
  apply ilog2_above. now rewrite Habs.
Qed.

(** Rounding does not cross an integer that is a binary64 number. *)
Lemma round64_ge_int (x : Q) (n : Z) :
  0 <= n <= 2 ^ 53 -> (inject_Z n <= x)%Q -> (inject_Z n <= round64 x)%Q.
Proof.
  intros Hn Hx.
  assert (Hn0 : (0 <= inject_Z n)%Q) by (change 0%Q with (inject_Z 0); rewrite <- Zle_Qle; lia).
  destruct (Qeq_dec x 0) as [E | E].
  - rewrite (round64_zero x E). now rewrite <- E.
  - assert (Hpos : (0 < x)%Q).
    { apply Qle_lteq in Hn0. apply Qle_lteq in Hx.
      destruct Hn0 as [H0 | H0]; destruct Hx as [H1 | H1].
      - now apply (Qlt_trans _ (inject_Z n)).
      - now rewrite <- H1.
      - now rewrite H0.
      - exfalso. apply E. now rewrite <- H1, <- H0. }
    destruct (ulp_exponent_positive x Hpos) as [He Habs].
    set (e := ulp_exponent (Qred x)) in *.
    pose proof (pow2_pos e) as Hp.
    destruct (Z_le_gt_dec e 0) as [Hle | Hgt].
    + assert (Hgrid : (inject_Z (n * 2 ^ (- e)) * pow2 e == inject_Z n)%Q).
      { rewrite inject_Z_mult, <- pow2_nonneg_exponent by lia.
        rewrite <- Qmult_assoc, <- pow2_add. replace (- e + e) with 0 by lia.
        change (pow2 0) with 1%Q. ring. }
      rewrite <- Hgrid. apply round64_ge_grid; [exact E|]. fold e.
      apply (Qlt_le_trans _ (inject_Z n)); [| exact Hx]. rewrite <- Hgrid.
      set (K := inject_Z (n * 2 ^ (- e))). clearbody K.
      apply Qmult_lt_compat_r; [exact Hp | lra].
    + assert (Hl : ilog2 (Qabs (Qred x)) = e + 52) by lia.
      pose proof (ilog2_spec (Qabs (Qred x))) as Hs.
      rewrite Hl, Habs in Hs. destruct (Hs Hpos) as [Hs1 _].
      assert (Hgrid : (inject_Z (2 ^ 52) * pow2 e == pow2 (e + 52))%Q).
      { rewrite <- pow2_nonneg_exponent by lia. rewrite <- pow2_add.
        now replace (52 + e) with (e + 52) by lia. }
      apply (Qle_trans _ (pow2 (e + 52))).
      * apply (Qle_trans _ (pow2 53)); [| apply pow2_le; lia].
        rewrite pow2_nonneg_exponent by lia. rewrite <- Zle_Qle. lia.
      * rewrite <- Hgrid. apply round64_ge_grid; [exact E|]. fold e.
        apply (Qlt_le_trans _ (pow2 (e + 52))); [| exact Hs1]. rewrite <- Hgrid.
        set (K := inject_Z (2 ^ 52)). clearbody K.
        apply Qmult_lt_compat_r; [exact Hp | lra].
Qed.

Lemma round64_nonneg (x : Q) : (0 <= x)%Q -> (0 <= round64 x)%Q.
Proof. intros H. apply (round64_ge_int x 0); [lia | exact H]. Qed.

(** A number short of the integer [B] by the factor [1 - 2^-53] rounds to
    a binary64 number below [B]. *)
Lemma round64_below_int (x : Q) (B k : Z) :
  0 <= k <= 52 -> 2 ^ k < B <= 2 ^ (k + 1) ->
  (0 <= x <= inject_Z B * (1 - pow2 (-53)))%Q ->
  (round64 x <= inject_Z B - pow2 (k - 52))%Q.
Proof.
  intros Hk HB [Hx0 Hx].
  assert (Hpk : (pow2 k == inject_Z (2 ^ k))%Q) by (apply pow2_nonneg_exponent; lia).
  assert (Hone : (pow2 (k - 52) <= 1)%Q) by (change 1%Q with (pow2 0); apply pow2_le; lia).
  assert (Hb1 : (pow2 k + 1 <= inject_Z B)%Q).
  { rewrite Hpk. change 1%Q with (inject_Z 1). rewrite <- inject_Z_plus, <- Zle_Qle. lia. }
  assert (Hk0 : (0 < pow2 k)%Q) by apply pow2_pos.
  destruct (Qeq_dec x 0) as [E | E]; [rewrite (round64_zero x E); lra|].
  assert (Hpos : (0 < x)%Q).
  { apply Qle_lteq in Hx0. destruct Hx0 as [H | H]; [exact H|].
    exfalso. apply E. now rewrite <- H. }
  pose proof (pow2_pos (ulp_exponent (Qred x))) as Hp.
  destruct (Qlt_le_dec x (pow2 k)) as [Hsmall | Hbig].
  - pose proof (ulp_exponent_below x k Hpos Hsmall ltac:(lia)) as He.
    set (e := ulp_exponent (Qred x)) in *.
    assert (Hgrid : (inject_Z (2 ^ (k - e)) * pow2 e == pow2 k)%Q).
    { rewrite <- pow2_nonneg_exponent by lia. rewrite <- pow2_add.
      now replace (k - e + e) with k by lia. }
    apply (Qle_trans _ (pow2 k)); [| lra].
    rewrite <- Hgrid. apply round64_le_grid; [exact E|]. fold e.
    apply (Qlt_le_trans _ (pow2 k)); [exact Hsmall|]. rewrite <- Hgrid.
    set (K := inject_Z (2 ^ (k - e))). clearbody K.
    apply Qmult_le_compat_r; [lra | now apply Qlt_le_weak].
  - assert (Ht : (0 < pow2 (-53))%Q) by apply pow2_pos.
    assert (Hlt : (x < pow2 (k + 1))%Q).
    { apply (Qle_lt_trans _ _ _ Hx).
      apply (Qlt_le_trans _ (inject_Z B)).
      - assert (H0 : (0 < inject_Z B * pow2 (-53))%Q)
          by (apply Qmult_lt_0_compat; [lra | exact Ht]).
        set (b := inject_Z B) in *. set (t := pow2 (-53)) in *. clearbody b t.
        apply (Qplus_lt_l _ _ (b * t - b)). ring_simplify. lra.
      - rewrite pow2_nonneg_exponent by lia. rewrite <- Zle_Qle. lia. }
    pose proof (ulp_exponent_below x (k + 1) Hpos Hlt ltac:(lia)) as He1.
    pose proof (ulp_exponent_above x k Hbig) as He2.
    assert (He : ulp_exponent (Qred x) = k - 52) by lia.
    rewrite He in Hp.
    assert (Hgrid : (inject_Z (B * 2 ^ (52 - k) - 1) * pow2 (k - 52)
                     == inject_Z B - pow2 (k - 52))%Q).
    { unfold Z.sub at 1. rewrite inject_Z_plus, inject_Z_mult.
      rewrite <- pow2_nonneg_exponent by lia.
      change (inject_Z (- (1))) with (- (1))%Q.
      assert (H1 : (pow2 (52 - k) * pow2 (k - 52) == 1)%Q).
      { rewrite <- pow2_add. now replace (52 - k + (k - 52)) with 0 by lia. }
      set (b := inject_Z B) in *. set (u := pow2 (52 - k)) in *.
      set (v := pow2 (k - 52)) in *. clearbody b u v.
      assert (H2 : ((b * u + - (1)) * v == b * (u * v) - v)%Q) by ring.
      rewrite H2, H1. ring. }
    rewrite <- Hgrid. rewrite <- He. apply round64_le_grid; [exact E|]. rewrite He.
    assert (Hsplit : (pow2 (k - 52) == 2 * (pow2 k * pow2 (-53)))%Q).
    { rewrite <- pow2_add. change 2%Q with (pow2 1). rewrite <- pow2_add.
      now replace (1 + (k + -53)) with (k - 52) by lia. }
    assert (Hprod : (pow2 k * pow2 (-53) < inject_Z B * pow2 (-53))%Q)
      by (apply Qmult_lt_compat_r; [exact Ht | lra]).
    set (K := inject_Z (B * 2 ^ (52 - k) - 1)) in *.
    set (b := inject_Z B) in *. set (t := pow2 (-53)) in *.
    set (v := pow2 (k - 52)) in *. set (pk := pow2 k) in *.
    set (bt := (b * t)%Q) in *. set (pt := (pk * t)%Q) in *.
    assert (Hx' : (x <= b - bt)%Q).
    { apply (Qle_trans _ _ _ Hx). subst bt. apply Qle_lteq. right. ring. }
    assert (Hexp : ((K + (1 # 2)) * v == K * v + (1 # 2) * v)%Q) by ring.
    rewrite Hexp, Hgrid.
    clearbody K b t v pk bt pt. lra.
Qed.

(** The floor of a scaled random number stays below the scale. *)
Lemma floor_round64_scaled (r : Q) (B k : Z) :
  0 <= k <= 52 -> 2 ^ k < B <= 2 ^ (k + 1) ->
  (0 <= r <= 1 - pow2 (-53))%Q ->
  0 <= Qfloor (round64 (r * inject_Z B)) <= B - 1.
Proof.
  intros Hk HB [Hr0 Hr1].
  assert (Hb : (0 < inject_Z B)%Q).
  { change 0%Q with (inject_Z 0). rewrite <- Zlt_Qlt.
    assert (0 < 2 ^ k) by (apply Z.pow_pos_nonneg; lia). lia. }
  assert (Hx0 : (0 <= r * inject_Z B)%Q) by (apply Qmult_le_0_compat; [exact Hr0 | lra]).
  assert (Hx1 : (r * inject_Z B <= inject_Z B * (1 - pow2 (-53)))%Q).
  { rewrite (Qmult_comm (inject_Z B)). apply Qmult_le_compat_r; [exact Hr1 | lra]. }
  pose proof (round64_below_int _ B k Hk HB (conj Hx0 Hx1)) as Hup.
  pose proof (round64_nonneg _ Hx0) as Hlo.
  pose proof (pow2_pos (k - 52)) as Hp.
  split.
  - change 0 with (Qfloor 0). now apply Qfloor_resp_le.
  - pose proof (Qfloor_le (round64 (r * inject_Z B))) as Hf.
    assert (Hlt : (inject_Z (Qfloor (round64 (r * inject_Z B))) < inject_Z B)%Q) by lra.
    rewrite <- Zlt_Qlt in Hlt. lia.
Qed.

(** A binary64 number below one is at most [1 - 2^-53]. *)
Lemma binary64_below_one (r : Q) :
  (round64 r == r)%Q -> (0 <= r < 1)%Q -> (r <= 1 - pow2 (-53))%Q.
Proof.
  intros Hfix [Hr0 Hr1].
  destruct (Qlt_le_dec r (1 # 2)) as [Hs | Hb].
  - apply Qlt_le_weak. apply (Qlt_le_trans _ _ _ Hs). vm_compute. discriminate.
  - assert (E : ~ (r == 0)%Q) by (intros H; rewrite H in Hb; vm_compute in Hb; now apply Hb).
    assert (Hpos : (0 < r)%Q) by lra.
    pose proof (ulp_exponent_below r 0 Hpos Hr1 ltac:(lia)) as He1.
    pose proof (ulp_exponent_above r (-1) Hb) as He2.
    assert (He : ulp_exponent (Qred r) = -53) by lia.
    pose proof (round64_nonzero r E) as Hr. cbv zeta in Hr. rewrite He, Hfix in Hr.
    set (R := round_half_even (Qred r / pow2 (-53))) in *. clearbody R.
    assert (HR : R < 2 ^ 53).
    { rewrite Zlt_Qlt. apply (Qmult_lt_r _ _ (pow2 (-53))); [apply pow2_pos|].
      rewrite <- Hr. apply (Qlt_le_trans _ _ _ Hr1). vm_compute. discriminate. }
    rewrite Hr.
    assert (Hle : (inject_Z R <= inject_Z (2 ^ 53 - 1))%Q) by (rewrite <- Zle_Qle; lia).
    apply (Qle_trans _ (inject_Z (2 ^ 53 - 1) * pow2 (-53))).
    + apply Qmult_le_compat_r; [exact Hle | apply Qlt_le_weak, pow2_pos].
    + vm_compute. discriminate.
Qed.

Lemma round64_le_int (x : Q) (n : Z) :
  0 <= n <= 2 ^ 53 -> (0 <= x <= inject_Z n)%Q -> (round64 x <= inject_Z n)%Q.
Proof.
  intros Hn [Hx0 Hx].
  destruct (Qeq_dec x 0) as [E | E].
  - rewrite (round64_zero x E). change 0%Q with (inject_Z 0). rewrite <- Zle_Qle. lia.
  - assert (Hpos : (0 < x)%Q).
    { apply Qle_lteq in Hx0. destruct Hx0 as [H | H]; [exact H|].
      exfalso. apply E. now rewrite <- H. }
    assert (H53 : (inject_Z n <= pow2 53)%Q).
    { rewrite pow2_nonneg_exponent by lia. rewrite <- Zle_Qle. lia. }
    assert (Hlt : (x < pow2 54)%Q).
    { apply (Qle_lt_trans _ (pow2 53)); [lra|].
      rewrite !pow2_Qpower. apply Qpower_lt_compat_l; [lia | reflexivity]. }
    pose proof (ulp_exponent_below x 54 Hpos Hlt ltac:(lia)) as He.
    set (e := ulp_exponent (Qred x)) in *.
    pose proof (pow2_pos e) as Hp.
    destruct (Z_le_gt_dec e 0) as [Hle | Hgt].
    + assert (Hgrid : (inject_Z (n * 2 ^ (- e)) * pow2 e == inject_Z n)%Q).
      { rewrite inject_Z_mult, <- pow2_nonneg_exponent by lia.
        rewrite <- Qmult_assoc, <- pow2_add. replace (- e + e) with 0 by lia.
        change (pow2 0) with 1%Q. ring. }
      rewrite <- Hgrid. apply round64_le_grid; [exact E|]. fold e.
      apply (Qle_lt_trans _ (inject_Z n)); [exact Hx|]. rewrite <- Hgrid.
      set (K := inject_Z (n * 2 ^ (- e))). clearbody K.
      apply Qmult_lt_compat_r; [exact Hp | lra].
    + assert (He1 : e = 1) by lia.
      apply (Qle_trans _ (pow2 53)).
      * assert (Hgrid : (inject_Z (2 ^ 52) * pow2 e == pow2 53)%Q)
          by (rewrite He1; reflexivity).
        rewrite <- Hgrid. apply round64_le_grid; [exact E|]. fold e.
        apply (Qle_lt_trans _ (pow2 53)); [lra|]. rewrite He1. reflexivity.
      * destruct (ulp_exponent_positive x Hpos) as [Hu Habs]. fold e in Hu.
        assert (Hl : 53 <= ilog2 (Qabs (Qred x))) by lia.
        assert (Hpa : (0 < Qabs (Qred x))%Q) by (now rewrite Habs).
        destruct (ilog2_spec (Qabs (Qred x)) Hpa) as [Hs1 _].
        assert (H53' : (pow2 53 <= x)%Q).
        { rewrite <- Habs.
          apply (Qle_trans _ (pow2 (ilog2 (Qabs (Qred x))))); [now apply pow2_le | exact Hs1]. }
        lra.
Qed.

(** An integer of at most 53 bits is a binary64 number. *)
Lemma round64_int (n : Z) : 0 <= n <= 2 ^ 53 -> (round64 (inject_Z n) == inject_Z n)%Q.
Proof.
  intros Hn.
  assert (H0 : (0 <= inject_Z n)%Q) by (change 0%Q with (inject_Z 0); rewrite <- Zle_Qle; lia).
  apply Qle_antisym.
  - apply round64_le_int; [exact Hn | split; [exact H0 | apply Qle_refl]].
  - apply round64_ge_int; [exact Hn | apply Qle_refl].
Qed.

(** * Invariants under rounded arithmetic *)

(** The invariants of the room do not depend on how [answer] rounds, as
    long as rounding does not cross an integer: a result that is at least
    the integer [n], below [2^53], is still at least [n] once rounded. *)

Section rounded_invariants.
Variable rnd : Q -> Q.
Variable render36 : Q -> string.
Hypothesis rnd_ge_int :
  forall (x : Q) (n : Z), 0 <= n <= 2 ^ 53 -> (inject_Z n <= x)%Q -> (inject_Z n <= rnd x)%Q.

Lemma rnd_nonneg (x : Q) : (0 <= x)%Q -> (0 <= rnd x)%Q.
Proof. intros H. apply (rnd_ge_int x 0); [lia | exact H]. Qed.

Lemma speedBonus_r_nonneg (timeLeft : Z) : (0 <= speedBonus_r rnd timeLeft)%Q.
Proof.
  unfold speedBonus_r. apply rnd_nonneg. apply Qmult_le_0_compat.
  - change 0%Q with (inject_Z 0). rewrite <- Zle_Qle. lia.
  - apply rnd_nonneg. discriminate.
Qed.

Lemma push_r_ge (timeLeft streak m : Z) :
  0 <= m <= streak -> m <= 1000 ->
  (inject_Z (18 + 4 * m) <= push_r rnd timeLeft streak)%Q.
Proof.
  intros Hm Hm'. unfold push_r.
  pose proof (speedBonus_r_nonneg timeLeft) as Hsb.
  assert (H1 : (inject_Z 18 <= rnd (inject_Z BASE_PUSH + speedBonus_r rnd timeLeft))%Q).
  { apply rnd_ge_int; [lia|]. change (inject_Z BASE_PUSH) with (inject_Z 18). lra. }
  assert (H2 : (inject_Z (4 * m) <= rnd (inject_Z (streak * 4)))%Q).
  { apply rnd_ge_int; [lia|]. rewrite <- Zle_Qle. lia. }
  apply rnd_ge_int; [lia|]. rewrite inject_Z_plus. lra.
Qed.

Lemma Math_round_ge (z : Q) (n : Z) : (inject_Z n <= z)%Q -> n <= Math_round z.
Proof.
  intros H. unfold Math_round. rewrite <- (Qfloor_Z n). apply Qfloor_resp_le. lra.
Qed.

Lemma points_r_ge (timeLeft streak m : Z) :
  0 <= m <= streak -> m <= 1000 -> 100 + 10 * m <= points_r rnd timeLeft streak.
Proof.
  intros Hm Hm'. unfold points_r.
  pose proof (speedBonus_r_nonneg timeLeft) as Hsb.
  assert (H0 : (0 <= rnd (speedBonus_r rnd timeLeft * 5))%Q)
    by (apply rnd_nonneg; lra).
  assert (H1 : (inject_Z 100 <= rnd (100 + rnd (speedBonus_r rnd timeLeft * 5)))%Q).
  { apply rnd_ge_int; [lia|]. change (inject_Z 100) with 100%Q. lra. }
  assert (H2 : (inject_Z (10 * m) <= rnd (inject_Z (streak * 10)))%Q).
  { apply rnd_ge_int; [lia|]. rewrite <- Zle_Qle. lia. }
  apply Math_round_ge. apply rnd_ge_int; [lia|]. rewrite inject_Z_plus. lra.
Qed.

Lemma room_ok_answer_r (w : World) (playerId : string) (choiceIndex : Z) :
  room_ok (this w) -> room_ok (this (exec (answer_r rnd playerId choiceIndex) w)).
Proof.
  intros Hok.
  destruct (answer_r_cases rnd w playerId choiceIndex)
    as [-> | (q & p & p' & fo' & Hs & Hq & Ha & Hg & Hcase & ->)]; [exact Hok|].
  destruct Hok as (Hi & Ht & Hp & Hl & Hn).
  pose proof (Hp _ _ (JsMap_get_In _ _ _ Hg)) as (Hpr & Hsc & Hst).
  assert (Hp' : player_ok p').
  { destruct Hcase as [(_ & -> & _) | (_ & -> & _)]; unfold player_ok;
      cbn [Player.progress Player.score Player.streak Player.with_streak].
    - split; [exact Hpr | lia].
    - pose proof (points_r_ge (GameRoom.timeLeft (this w)) (Player.streak p) 0
                    ltac:(lia) ltac:(lia)).
      split; [apply clamp_bounds | lia]. }
  room_split; [exact Hi | exact Ht | | |].
  - intros k p0 Hin. apply JsMap_set_In in Hin. destruct Hin as [[= -> ->] | Hin];
      [exact Hp' | now apply (Hp k)].
  - destruct Hcase as [(_ & _ & ->) | (_ & _ & ->)]; [exact Hl|].
    destruct (Qle_bool 100 (Player.progress p') && _ && _) eqn:E; [| exact Hl].
    apply andb_prop in E. destruct E as [_ E3]. apply Z.ltb_lt in E3.
    rewrite length_app. cbn. lia.
  - destruct Hcase as [(_ & _ & ->) | (_ & _ & ->)]; [exact Hn|].
    destruct (Qle_bool 100 (Player.progress p') && _ && _) eqn:E; [| exact Hn].
    apply andb_prop in E. destruct E as [E _]. apply andb_prop in E. destruct E as [_ E2].
    apply NoDup_app; [exact Hn | repeat constructor; intros [] | ].
    intros x Hx [Ex | []]. subst x.
    apply negb_true_iff in E2.
    assert (JsSet.has (GameRoom.finishedOrder (this w)) (Player.id p) = true)
      by (now apply JsSet_has_In).
    unfold JsSet.has in *. congruence.
Qed.

Lemma room_ok_step_r (w : World) (e : Event) :
  room_ok (this w) -> room_ok (this (step_r rnd render36 w e)).
Proof.
  intros Hok.
  destruct e;
    try (change (room_ok (this (step w Start))); now apply room_ok_step);
    try (change (room_ok (this (step w Tick))); now apply room_ok_step);
    try (change (room_ok (this (step w Next))); now apply room_ok_step);
    try (change (room_ok (this (step w Reset))); now apply room_ok_step);
    try (change (room_ok (this (step w Fire))); now apply room_ok_step);
    cbn [step_r].
  - pose proof (this_join_r rnd render36 w socketId name color) as H. cbv zeta in H.
    remember (fst (join_r rnd render36 socketId name color w)) as p0 eqn:Ep0. clear Ep0.
    destruct H as (-> & _ & Hpr & Hsc & Hst).
    destruct Hok as (Hi & Ht & Hp & Hl & Hn).
    room_split; try assumption.
    intros k p Hin. apply JsMap_set_In in Hin. destruct Hin as [[= _ ->] | Hin];
      [| now apply (Hp k)].
    unfold player_ok. rewrite Hpr, Hsc, Hst. repeat split; try lia; discriminate.
  - now apply room_ok_answer_r.
Qed.

Lemma keyed_step_r (w : World) (e : Event) :
  keyed (this w) -> keyed (this (step_r rnd render36 w e)).
Proof.
  intros Hk.
  destruct e;
    try (change (keyed (this (step w Start))); now apply keyed_step);
    try (change (keyed (this (step w Tick))); now apply keyed_step);
    try (change (keyed (this (step w Next))); now apply keyed_step);
    try (change (keyed (this (step w Reset))); now apply keyed_step);
    try (change (keyed (this (step w Fire))); now apply keyed_step);
    cbn [step_r].
  - pose proof (this_join_r rnd render36 w socketId name color) as H. cbv zeta in H.
    remember (fst (join_r rnd render36 socketId name color w)) as p0 eqn:Ep0. clear Ep0.
    destruct H as (-> & _). destruct Hk as (H1 & H2 & H3 & H4 & H5).
    unfold keyed. cbn [GameRoom.players GameRoom.with_players GameRoom.answered
                       GameRoom.finishedOrder].
    split; [now apply JsMap_set_keys_NoDup|]. split.
    { intros k p Hin. apply JsMap_set_In in Hin.
      destruct Hin as [[= -> ->] | Hin]; [reflexivity | now apply H2]. }
    split; [exact H3|]. split; intros k Hin; apply JsMap_set_keys_incl; auto.
  - destruct (answer_r_cases rnd w playerId choiceIndex)
      as [-> | (q & p & p' & fo' & Hs & Hq & Ha & Hg & Hcase & ->)]; [exact Hk|].
    destruct Hk as (H1 & H2 & H3 & H4 & H5).
    pose proof (JsMap_get_In _ _ _ Hg) as Hin0.
    pose proof (H2 _ _ Hin0) as Hid0.
    assert (Hid' : Player.id p' = playerId)
      by (destruct Hcase as [(_ & -> & _) | (_ & -> & _)]; exact Hid0).
    assert (Hkey : In playerId (JsMap.keys (GameRoom.players (this w))))
      by (apply JsMap_get_some_keys; rewrite Hg; discriminate).
    unfold keyed. cbn [this GameRoom.players GameRoom.answered GameRoom.finishedOrder].
    rewrite (JsMap_set_keys_present _ _ _ Hkey).
    split; [exact H1|]. split.
    { intros k p1 Hin. apply JsMap_set_In in Hin.
      destruct Hin as [[= -> ->] | Hin]; [exact Hid' | now apply H2]. }
    split; [now apply JsSet_add_NoDup|]. split.
    { intros k Hin. apply JsSet_add_In in Hin. destruct Hin as [-> | Hin]; auto. }
    intros k Hin.
    destruct Hcase as [(_ & _ & ->) | (_ & _ & ->)]; [now apply H5|].
    destruct (Qle_bool 100 (Player.progress p') && _ && _); [| now apply H5].
    apply in_app_or in Hin. destruct Hin as [Hin | [<- | []]]; [now apply H5|].
    now rewrite Hid0.
Qed.

Lemma invariants_run_r (es : list Event) (w : World) :
  room_ok (this w) /\ keyed (this w) ->
  room_ok (this (run_r rnd render36 w es)) /\ keyed (this (run_r rnd render36 w es)).
Proof.
  revert w. induction es as [|e es IH]; intros w [H1 H2]; [now split|].
  cbn [run_r fold_left]. apply IH. split; [now apply room_ok_step_r | now apply keyed_step_r].
Qed.

Lemma run_r_ticks (w : World) (n : nat) :
  run_r rnd render36 w (repeat Tick n) = run w (repeat Tick n).
Proof.
  revert w. induction n as [|n IH]; intros w; [reflexivity|].
  cbn [repeat run_r run fold_left]. apply IH.
Qed.

(** What one accepted correct answer gains: with the integer [y] a lower
    bound of the progress short of the line and [m] one of the streak, the
    bound on the progress grows by [18 + 4 * m]. *)
Lemma correct_answer_gain_r
    (w : World) (k : string) (c : Z) (q : MCQ.t) (p : Player.t) (y m : Z) :
  room_ok (this w) -> keyed (this w) ->
  GameRoom.started (this w) = true ->
  at_index QUESTIONS (GameRoom.currentIndex (this w)) = Some q ->
  c = MCQ.answerIndex q ->
  JsSet.has (GameRoom.answered (this w)) k = false ->
  JsMap.get (GameRoom.players (this w)) k = Some p ->
  0 <= m <= Player.streak p -> m <= 1000 -> 0 <= y <= 1000 ->
  (100 <= Player.progress p \/ inject_Z y <= Player.progress p)%Q ->
  let w' := exec (answer_r rnd k c) w in
  GameRoom.started (this w') = true
  /\ GameRoom.currentIndex (this w') = GameRoom.currentIndex (this w)
  /\ exists p',
       JsMap.get (GameRoom.players (this w')) k = Some p'
       /\ Player.streak p' = Player.streak p + 1
       /\ Player.score p + 100 + 10 * m <= Player.score p'
       /\ (Player.progress p' <= 100)%Q
       /\ (100 <= Player.progress p'
           \/ inject_Z (y + (18 + 4 * m)) <= Player.progress p')%Q
       /\ ((100 <= Player.progress p')%Q ->
           In k (GameRoom.finishedOrder (this w'))
           \/ List.length (GameRoom.finishedOrder (this w')) = 3%nat).
Proof.
  intros Hok Hk Hs Hq Hc Ha Hg Hm Hm' Hy Hb w'. subst w'.
  destruct Hok as (_ & _ & _ & Hl & _).
  destruct Hk as (_ & K2 & _).
  pose proof (K2 _ _ (JsMap_get_In _ _ _ Hg)) as Hid.
  rewrite (answer_r_correct rnd w k c q p Hs Hq Ha Hg Hc).
  cbn [this GameRoom.started GameRoom.currentIndex GameRoom.players GameRoom.finishedOrder].
  split; [reflexivity|]. split; [reflexivity|].
  rewrite JsMap_get_set_same. eexists. split; [reflexivity|].
  cbn [Player.streak Player.score Player.progress].
  split; [reflexivity|].
  set (tl := GameRoom.timeLeft (this w)).
  pose proof (points_r_ge tl (Player.streak p) m Hm Hm') as Hpts.
  pose proof (push_r_ge tl (Player.streak p) m Hm Hm') as Hpush.
  split; [lia|].
  change (inject_Z TRACK_LEN) with 100%Q.
  split; [apply clamp_bounds|].
  assert (Hm0 : (0 <= inject_Z (18 + 4 * m))%Q)
    by (change 0%Q with (inject_Z 0); rewrite <- Zle_Qle; lia).
  split.
  - set (z := rnd (Player.progress p + push_r rnd tl (Player.streak p))).
    assert (Hz : (100 <= Player.progress p -> inject_Z 100 <= z)%Q).
    { intros H. apply rnd_ge_int; [lia|]. change (inject_Z 100) with 100%Q. lra. }
    assert (Hz' : (inject_Z y <= Player.progress p -> inject_Z (y + (18 + 4 * m)) <= z)%Q).
    { intros H. apply rnd_ge_int; [lia|]. rewrite inject_Z_plus. lra. }
    change (inject_Z 100) with 100%Q in Hz.
    destruct (clamp_cases z) as [(_ & E) | (Hlt & E)]; [left; rewrite E; lra|].
    destruct Hb as [Hb | Hb]; [exfalso; specialize (Hz Hb); lra | right].
    specialize (Hz' Hb). lra.
  - intros H100. apply Qle_bool_iff in H100. rewrite H100. cbn [andb].
    rewrite Hid.
    destruct (existsb (String.eqb k) (GameRoom.finishedOrder (this w))) eqn:Ein; cbn [negb andb].
    + left. now apply JsSet_has_In.
    + destruct (Z.of_nat (List.length (GameRoom.finishedOrder (this w))) <? 3) eqn:El.
      * left. apply in_or_app. right. now left.
      * right. apply Z.ltb_ge in El. lia.
Qed.

(** One lap: some ticks, a correct answer, and the move to the next
    question. *)
Lemma correct_lap_r
    (w : World) (k : string) (c : Z) (n : nat) (q : MCQ.t) (p : Player.t) (y m : Z) :
  room_ok (this w) -> keyed (this w) ->
  GameRoom.started (this w) = true ->
  at_index QUESTIONS (GameRoom.currentIndex (this w)) = Some q ->
  c = MCQ.answerIndex q ->
  GameRoom.currentIndex (this w) < 4 ->
  JsSet.has (GameRoom.answered (this w)) k = false ->
  JsMap.get (GameRoom.players (this w)) k = Some p ->
  0 <= m <= Player.streak p -> m <= 1000 -> 0 <= y <= 1000 ->
  (100 <= Player.progress p \/ inject_Z y <= Player.progress p)%Q ->
  let w' := run_r rnd render36 w (repeat Tick n ++ [Answer k c; Next]) in
  (room_ok (this w') /\ keyed (this w'))
  /\ GameRoom.started (this w') = true
  /\ GameRoom.currentIndex (this w') = GameRoom.currentIndex (this w) + 1
  /\ JsSet.has (GameRoom.answered (this w')) k = false
  /\ exists p',
       JsMap.get (GameRoom.players (this w')) k = Some p'
       /\ Player.streak p' = Player.streak p + 1
       /\ Player.score p + 100 + 10 * m <= Player.score p'
       /\ (100 <= Player.progress p'
           \/ inject_Z (y + (18 + 4 * m)) <= Player.progress p')%Q.
Proof.
  intros Hok Hk Hs Hq Hc Hi Ha Hg Hm Hm' Hy Hb w'.
  split; [subst w'; apply invariants_run_r; now split|].
  subst w'. rewrite run_r_app, run_r_ticks.
  destruct (invariants_run_r (repeat Tick n) w (conj Hok Hk)) as [Hok1 Hk1].
  rewrite run_r_ticks in Hok1, Hk1.
  destruct (ticks_frame w n) as (T1 & T2 & T3 & _ & T5).
  set (w1 := run w (repeat Tick n)) in *.
  rewrite <- T1 in Hs. rewrite <- T2 in Hq, Hi. rewrite <- T3 in Hg. rewrite <- T5 in Ha.
  destruct (correct_answer_gain_r w1 k c q p y m Hok1 Hk1 Hs Hq Hc Ha Hg Hm Hm' Hy Hb)
    as (Hs1 & Hi1 & p' & Hg1 & Hst1 & Hsc1 & _ & Hb1 & _).
  cbn [run_r fold_left step_r].
  rewrite this_next, Hi1, Hs1, <- T2.
  replace (GameRoom.currentIndex (this w1) <? 4) with true by (symmetry; apply Z.ltb_lt; lia).
  cbn [GameRoom.started GameRoom.currentIndex GameRoom.answered GameRoom.players].
  split; [reflexivity|]. split; [reflexivity|]. split; [reflexivity|].
  exists p'. now repeat split.
Qed.

End rounded_invariants.

(** ** The invariants of the program *)

Lemma reachable64_run (w : World) (es : list Event) :
  reachable64 w -> reachable64 (run64 w es).
Proof.
  intros (i & random & es0 & ->). exists i, random, (es0 ++ es).
  unfold run64. now rewrite run_r_app.
Qed.

Lemma reachable64_invariants (w : World) :
  reachable64 w -> room_ok (this w) /\ keyed (this w).
Proof.
  intros (i & random & es & ->). unfold run64.
  apply (invariants_run_r round64 toString36_v8 round64_ge_int).
  split; [apply room_ok_new | apply keyed_new].
Qed.

(** X20: the invariants of the room hold in the binary64 arithmetic of the
    program: in every world the program can reach, the index and the
    countdown are in range, every player has a progress in [[0, 100]], a
    score and a streak that are not negative, and is stored under its own
    id, and the finish order has at most three entries, all different and
    all ids of players of the room. *)
Theorem program_keeps_its_invariants (id : string) (random : nat -> Q) (es : list Event) :
  let r := this (run64 (initial id random) es) in
  0 <= GameRoom.currentIndex r <= 4
  /\ 0 <= GameRoom.timeLeft r <= 20
  /\ (forall k p, JsMap.get (GameRoom.players r) k = Some p ->
        Player.id p = k
        /\ (0 <= Player.progress p <= 100)%Q
        /\ 0 <= Player.score p /\ 0 <= Player.streak p)
  /\ NoDup (JsMap.keys (GameRoom.players r))
  /\ (List.length (GameRoom.finishedOrder r) <= 3)%nat
  /\ NoDup (GameRoom.finishedOrder r)
  /\ (forall k, In k (GameRoom.finishedOrder r) -> JsMap.get (GameRoom.players r) k <> None).
Proof.
  intros r.
  assert (Hr : reachable64 (run64 (initial id random) es)) by (now exists id, random, es).
  destruct (reachable64_invariants _ Hr) as [(Hi & Ht & Hp & Hl & Hn) (K1 & K2 & _ & _ & K5)].
  fold r in Hi, Ht, Hp, Hl, Hn, K1, K2, K5.
  change (Z.of_nat (List.length QUESTIONS) - 1) with 4 in Hi.
  split; [exact Hi|]. split; [exact Ht|]. split.
  { intros k p Hg. apply JsMap_get_In in Hg. split; [now apply K2 | now apply (Hp k)]. }
  split; [exact K1|]. split; [exact Hl|]. split; [exact Hn|].
  intros k Hin. apply JsMap_get_some_keys. now apply K5.
Qed.

(** ** The finish order of the program *)

(** C5, as the code has it: after any run of a room, however many players
    have reached a progress of 100, the finish order has at most three
    entries and no player id twice, and it lists, in the order of their
    arrival, the first three distinct players who arrived since the list was
    last emptied, by [reset] or by a [start] that took effect; a player
    arrives with each accepted correct answer that leaves their progress at
    100 or more.  The snapshot shows the list as it is. *)
Theorem finish_order_lists_arrivals (id : string) (random : nat -> Q) (es : list Event) :
  let w := run64 (initial id random) es in
  (List.length (GameRoom.finishedOrder (this w)) <= 3)%nat
  /\ NoDup (GameRoom.finishedOrder (this w))
  /\ GameRoom.finishedOrder (this w)
     = firstn 3 (distinct (arrivals64 (initial id random) es []))
  /\ GameStateWire.finished (GameRoom.wire (this w)) = GameRoom.finishedOrder (this w).
Proof.
  intros w.
  assert (Hfo : GameRoom.finishedOrder (this w)
                = firstn 3 (distinct (arrivals64 (initial id random) es [])))
    by (subst w; now apply finish_run_r).
  assert (Hl : (List.length (GameRoom.finishedOrder (this w)) <= 3)%nat)
    by (rewrite Hfo, length_firstn; lia).
  split; [exact Hl|]. split; [| split; [exact Hfo|]].
  - rewrite Hfo. apply firstn_NoDup, distinct_NoDup.
  - unfold GameRoom.wire. cbn [GameStateWire.finished]. apply firstn_all2. exact Hl.
Qed.

(** C5, as stated, fails: [start] empties the finish order and leaves the
    progress of the players as it is.  Ann reaches 100 in a first round, in
    which Bob does not answer; after the second [start] she is at 100 and
    the list is empty; Bob then reaches 100 and is listed first, and Ann,
    who reached 100 a round earlier, is listed after him with her next
    correct answer. *)
Lemma finish_order_after_second_start :
  let round1 := [Join "s1" "Ann" "red"; Join "s2" "Bob" "blue"; Start;
                 Answer "i" 1; Next; Answer "i" 2; Next; Answer "i" 2; Next; Next; Next] in
  let bob := [Answer "4i" 1; Next; Answer "4i" 2; Next; Answer "4i" 2; Next] in
  let w1 := run64 (initial "main" halving) round1 in
  let w2 := run64 w1 [Start] in
  let w3 := run64 w2 bob in
  let w4 := run64 w3 [Answer "i" 1] in
  let progress_of (w : World) (k : string) :=
    option_map Player.progress (JsMap.get (GameRoom.players (this w)) k) in
  (progress_of w1 "i" = Some 100%Q /\ progress_of w1 "4i" = Some 0%Q
   /\ GameRoom.finishedOrder (this w1) = ["i"])
  /\ (GameRoom.started (this w2) = true
      /\ progress_of w2 "i" = Some 100%Q /\ GameRoom.finishedOrder (this w2) = [])
  /\ (progress_of w3 "4i" = Some 100%Q /\ GameRoom.finishedOrder (this w3) = ["4i"])
  /\ GameRoom.finishedOrder (this w4) = ["4i"; "i"].
Proof. vm_compute. repeat split; reflexivity. Qed.

(** ** The ids of the program *)

Lemma slice_length (from to : nat) (s : string) :
  (String.length (slice from to s) <= to - from)%nat.
Proof.
  unfold slice. generalize (to - from)%nat as m. revert from.
  induction s as [|c s IH]; intros from m.
  - destruct from, m; cbn; lia.
  - destruct from as [|from].
    + destruct m as [|m]; cbn [substring String.length]; [lia|].
      specialize (IH 0%nat m). lia.
    + cbn [substring]. apply IH.
Qed.

Lemma JsMap_set_keys_add {V} (m : JsMap.t V) (k : string) (v : V) :
  JsMap.keys (JsMap.set m k v) = JsSet.add (JsMap.keys m) k.
Proof.
  unfold JsSet.add. destruct (JsSet.has (JsMap.keys m) k) eqn:E.
  - apply JsMap_set_keys_present. now apply JsSet_has_In.
  - apply JsMap_set_keys_absent. intros H. apply JsSet_has_In in H. congruence.
Qed.

Section join_sequences.
Variable rnd : Q -> Q.
Variable render36 : Q -> string.

Lemma join_all_r_cons (s n c : string) (rest : list (string * string * string)) (w : World) :
  join_all_r rnd render36 ((s, n, c) :: rest) w
  = (fst (join_r rnd render36 s n c w)
       :: fst (join_all_r rnd render36 rest (exec (join_r rnd render36 s n c) w)),
     snd (join_all_r rnd render36 rest (exec (join_r rnd render36 s n c) w))).
Proof.
  cbn [join_all_r]. unfold bind at 1, exec.
  destruct (join_r rnd render36 s n c w) as [p w1]. cbn [fst snd].
  unfold bind, ret. now destruct (join_all_r rnd render36 rest w1).
Qed.

Lemma ids_drawn_after_join (w : World) (s n c : string) (rest : list (string * string * string)) :
  ids_drawn render36 (random (exec (join_r rnd render36 s n c) w))
            (drawn (exec (join_r rnd render36 s n c) w)) rest
  = ids_drawn render36 (random w) (drawn w + (if String.eqb n "" then 3 else 2)) rest.
Proof.
  pose proof (join_r_world rnd render36 w s n c) as H. cbv zeta in H. now rewrite H.
Qed.

Lemma join_all_r_ids (args : list (string * string * string)) (w : World) :
  map Player.id (fst (join_all_r rnd render36 args w))
  = ids_drawn render36 (random w) (drawn w) args.
Proof.
  revert w. induction args as [|[[s n] c] rest IH]; intros w; [reflexivity|].
  rewrite join_all_r_cons. cbn [fst map ids_drawn].
  pose proof (this_join_r rnd render36 w s n c) as H. cbv zeta in H. destruct H as (_ & -> & _).
  f_equal. now rewrite IH, ids_drawn_after_join.
Qed.

Lemma join_all_r_keys (args : list (string * string * string)) (w : World) :
  JsMap.keys (GameRoom.players (this (exec (join_all_r rnd render36 args) w)))
  = fold_left JsSet.add (ids_drawn render36 (random w) (drawn w) args)
              (JsMap.keys (GameRoom.players (this w))).
Proof.
  revert w. induction args as [|[[s n] c] rest IH]; intros w; [reflexivity|].
  unfold exec. rewrite join_all_r_cons. cbn [snd].
  change (snd (join_all_r rnd render36 rest ?v)) with (exec (join_all_r rnd render36 rest) v).
  rewrite IH, ids_drawn_after_join. cbn [ids_drawn fold_left].
  pose proof (this_join_r rnd render36 w s n c) as H. cbv zeta in H. destruct H as (-> & -> & _).
  cbn [GameRoom.players GameRoom.with_players]. now rewrite JsMap_set_keys_add.
Qed.

Lemma join_all_r_keeps (args : list (string * string * string)) (w : World) (k : string) :
  ~ In k (ids_drawn render36 (random w) (drawn w) args) ->
  JsMap.get (GameRoom.players (this (exec (join_all_r rnd render36 args) w))) k
  = JsMap.get (GameRoom.players (this w)) k.
Proof.
  revert w. induction args as [|[[s n] c] rest IH]; intros w Hk; [reflexivity|].
  unfold exec. rewrite join_all_r_cons. cbn [snd].
  change (snd (join_all_r rnd render36 rest ?v)) with (exec (join_all_r rnd render36 rest) v).
  cbn [ids_drawn] in Hk.
  pose proof (this_join_r rnd render36 w s n c) as Ht. cbv zeta in Ht.
  destruct Ht as (Ht & Hid & _).
  rewrite IH.
  - rewrite Ht. cbn [GameRoom.players GameRoom.with_players].
    apply JsMap_get_set_other. rewrite Hid. intros ->. apply Hk. now left.
  - rewrite ids_drawn_after_join. intros Hin. apply Hk. now right.
Qed.

Lemma join_all_r_stored (args : list (string * string * string)) (w : World) :
  NoDup (ids_drawn render36 (random w) (drawn w) args) ->
  forall p, In p (fst (join_all_r rnd render36 args w)) ->
    JsMap.get (GameRoom.players (this (exec (join_all_r rnd render36 args) w))) (Player.id p)
    = Some p.
Proof.
  revert w. induction args as [|[[s n] c] rest IH]; intros w Hnd p Hin; [destruct Hin|].
  unfold exec. rewrite join_all_r_cons in *. cbn [fst snd] in *.
  change (snd (join_all_r rnd render36 rest ?v)) with (exec (join_all_r rnd render36 rest) v).
  cbn [ids_drawn] in Hnd. apply NoDup_cons_iff in Hnd. destruct Hnd as [Hnew Hnd].
  pose proof (this_join_r rnd render36 w s n c) as Ht. cbv zeta in Ht.
  destruct Ht as (Ht & Hid & _).
  destruct Hin as [<- | Hin].
  - rewrite join_all_r_keeps by (rewrite ids_drawn_after_join, Hid; exact Hnew).
    rewrite Ht. cbn [GameRoom.players GameRoom.with_players]. apply JsMap_get_set_same.
  - apply IH; [rewrite ids_drawn_after_join; exact Hnd | exact Hin].
Qed.

Lemma ids_drawn_length (random : nat -> Q) (args : list (string * string * string)) (k : nat) :
  forall i, In i (ids_drawn render36 random k args) -> (String.length i <= 7)%nat.
Proof.
  revert k. induction args as [|[[s n] c] rest IH]; intros k i; [intros []|].
  cbn [ids_drawn]. intros [<- | Hin]; [apply (slice_length 2 9) | now apply IH in Hin].
Qed.

End join_sequences.

(** C4, as the code has it: the id that each [join] of a sequence returns
    is the string [uid] derives from the value [Math.random] returns to it,
    at most seven characters of the rendering of that value in radix 36;
    the room then holds one player for each of these strings that is new to
    it.  When the strings are pairwise distinct, so are the ids returned,
    and every player returned is the one stored under its id when the
    sequence ends. *)
Theorem join_ids_follow_random_draws (args : list (string * string * string)) (w : World) :
  let ps := fst (join_all64 args w) in
  let w' := exec (join_all64 args) w in
  let ids := ids_drawn toString36_v8 (random w) (drawn w) args in
  map Player.id ps = ids
  /\ (forall i, In i ids -> (String.length i <= 7)%nat)
  /\ JsMap.keys (GameRoom.players (this w'))
     = fold_left JsSet.add ids (JsMap.keys (GameRoom.players (this w)))
  /\ (NoDup ids ->
      NoDup (map Player.id ps)
      /\ forall p, In p ps ->
           JsMap.get (GameRoom.players (this w')) (Player.id p) = Some p).
Proof.
  intros ps w' ids. subst ps w' ids. unfold join_all64.
  split; [apply join_all_r_ids|].
  split; [apply ids_drawn_length|].
  split; [apply join_all_r_keys|].
  intros Hnd. split; [now rewrite join_all_r_ids | now apply join_all_r_stored].
Qed.

Lemma join_ids_follow_random_draws_witness :
  let args := [("s1", "Ann", "red"); ("s2", "", "blue")] in
  let w := initial "main" halving in
  map Player.id (fst (join_all64 args w)) = ["i"; "4i"]
  /\ NoDup (map Player.id (fst (join_all64 args w)))
  /\ JsMap.keys (GameRoom.players (this (exec (join_all64 args) w))) = ["i"; "4i"]
  /\ forall p, In p (fst (join_all64 args w)) ->
       JsMap.get (GameRoom.players (this (exec (join_all64 args) w))) (Player.id p) = Some p.
Proof.
  cbv zeta.
  pose proof (join_ids_follow_random_draws
                [("s1", "Ann", "red"); ("s2", "", "blue")] (initial "main" halving)) as H.
  cbv zeta in H. destruct H as (Hids & _ & Hkeys & Hnd).
  assert (E : ids_drawn toString36_v8 (random (initial "main" halving))
                        (drawn (initial "main" halving))
                        [("s1", "Ann", "red"); ("s2", "", "blue")] = ["i"; "4i"])
    by (vm_compute; reflexivity).
  rewrite E in Hids, Hkeys, Hnd.
  destruct Hnd as (Hnd & Hst).
  - repeat constructor; cbn; intuition discriminate.
  - split; [exact Hids|]. split; [exact Hnd|]. split; [exact Hkeys | exact Hst].
Defined.

(** C4, as stated, fails: two [join] calls whose random values differ, but
    agree on the first seven digits of their rendering in radix 36, return
    the same id, and the second player replaces the first in the room. *)
Lemma join_ids_collide :
  let w := initial "main" close_draws in
  let args := [("s1", "Ann", "red"); ("s2", "Bob", "blue")] in
  let ps := fst (join_all64 args w) in
  ~ (close_draws 0 == close_draws 2)%Q
  /\ toString36_v8 (close_draws 0) = "0.i000000000q"
  /\ toString36_v8 (close_draws 2) = "0.i000000002j"
  /\ map Player.id ps = ["i000000"; "i000000"]
  /\ ~ NoDup (map Player.id ps)
  /\ map (fun kp => (fst kp, Player.name (snd kp)))
         (GameRoom.players (this (exec (join_all64 args) w)))
     = [("i000000", "Bob")].
Proof.
  cbv zeta. split; [discriminate|].
  split; [vm_compute; reflexivity|]. split; [vm_compute; reflexivity|].
  split; [vm_compute; reflexivity|].
  split; [| vm_compute; reflexivity].
  intros H.
  assert (E : map Player.id
                (fst (join_all64 [("s1", "Ann", "red"); ("s2", "Bob", "blue")]
                                 (initial "main" close_draws)))
              = ["i000000"; "i000000"]) by (vm_compute; reflexivity).
  rewrite E in H. apply NoDup_cons_iff in H. destruct H as [H _]. apply H. now left.
Qed.

(** The engine rounds the last digit it writes, so that two values can
    collide in their rendering where their exact expansions differ in the
    first seven digits. *)
Lemma uid_rounds_last_digit :
  ~ (near_draws 0 == near_draws 2)%Q
  /\ toString36_v8 (near_draws 0) = "0.yol1rwc"
  /\ toString36_v8 (near_draws 2) = "0.yol1rwc001"
  /\ uid_of (near_draws 0) = "yol1rwb"
  /\ uid_of (near_draws 2) = "yol1rwc"
  /\ map Player.id
       (fst (join_all64 [("s1", "Ann", "red"); ("s2", "Bob", "blue")] (initial "main" near_draws)))
     = ["yol1rwc"; "yol1rwc"].
Proof.
  split; [discriminate|]. repeat split; vm_compute; reflexivity.
Qed.

(** * Scoring a correct answer in the program *)

(** The amounts at streak 0 and countdown 20: the products and sums are
    binary64 numbers, and no rounding occurs. *)
Lemma amounts_at_full_countdown :
  speedBonus_r round64 20 = 12%Q
  /\ push_r round64 20 0 = 30%Q
  /\ points_r round64 20 0 = 160.
Proof. repeat split; vm_compute; reflexivity. Qed.

(** The bonus part of the points is an integer for every countdown, though
    the speed bonus itself is not always a multiple of [0.8]. *)
Lemma bonus_points_table (timeLeft : Z) :
  0 <= timeLeft <= 20 ->
  round64 (100 + round64 (speedBonus_r round64 timeLeft * 5))
  = inject_Z (100 + 4 * Z.max 0 (timeLeft - 5)).
Proof.
  intros H. replace timeLeft with (Z.of_nat (Z.to_nat timeLeft)) by lia.
  assert (Hn : (Z.to_nat timeLeft <= 20)%nat) by lia.
  set (n := Z.to_nat timeLeft) in *. clearbody n. clear H.
  do 21 (destruct n as [|n]; [vm_compute; reflexivity|]). lia.
Qed.

(** The points of a correct answer, computed in binary64, are the integer
    [100 + 4 * max(0, countdown - 5) + 10 * streak]. *)
Lemma points64_exact (timeLeft streak : Z) :
  0 <= timeLeft <= 20 -> 0 <= streak <= 2 ^ 40 ->
  points_r round64 timeLeft streak = 100 + 4 * Z.max 0 (timeLeft - 5) + 10 * streak.
Proof.
  intros Ht Hs. unfold points_r.
  rewrite (bonus_points_table timeLeft Ht).
  set (A := 100 + 4 * Z.max 0 (timeLeft - 5)).
  assert (HA : 100 <= A <= 160) by (unfold A; lia).
  assert (E1 : (inject_Z A + round64 (inject_Z (streak * 10))
                == inject_Z (A + 10 * streak))%Q).
  { rewrite (round64_int (streak * 10)) by lia.
    rewrite <- inject_Z_plus. now replace (A + streak * 10) with (A + 10 * streak) by lia. }
  rewrite (round64_compat _ _ E1).
  unfold Math_round.
  transitivity (Qfloor (inject_Z (A + 10 * streak) + (1 # 2))); [| apply Qfloor_half].
  apply Qfloor_comp. apply Qplus_comp; [| reflexivity].
  apply round64_int. lia.
Qed.

(** A sum short of 128 is rounded to a number within [2^-47] of it. *)
Lemma round64_near_below_128 (z : Q) :
  (0 <= z < 128)%Q -> (z - (1 # 2 ^ 47) <= round64 z <= z + (1 # 2 ^ 47))%Q.
Proof.
  intros [H0 H1].
  destruct (Qeq_dec z 0) as [E | E].
  - rewrite (round64_zero z E), E. split; discriminate.
  - assert (Hpos : (0 < z)%Q).
    { apply Qle_lteq in H0. destruct H0 as [H | H]; [exact H|].
      exfalso. apply E. now rewrite <- H. }
    pose proof (ulp_exponent_below z 7 Hpos H1 ltac:(lia)) as He.
    pose proof (round64_near z) as Hn. cbv zeta in Hn.
    pose proof (pow2_le _ _ He) as Hp. change (pow2 (7 - 53)) with (1 # 2 ^ 46)%Q in Hp.
    set (u := pow2 (ulp_exponent (Qred z))) in *. clearbody u.
    assert (Hh : ((1 # 2) * u <= 1 # 2 ^ 47)%Q).
    { apply (Qle_trans _ ((1 # 2) * (1 # 2 ^ 46))).
      - apply Qmult_le_l; [reflexivity | exact Hp].
      - discriminate. }
    lra.
Qed.

(** The progress after a push of 30, from a progress of at most 70. *)
Lemma progress_after_push_30 (x : Q) :
  (0 <= x <= 70)%Q ->
  (x + 30 - (1 # 2 ^ 47) <= clamp (round64 (x + 30)) 0 100 <= x + 30 + (1 # 2 ^ 47))%Q
  /\ ((round64 (x + 30) == x + 30)%Q -> (clamp (round64 (x + 30)) 0 100 == x + 30)%Q).
Proof.
  intros Hb. split.
  - set (z := (x + 30)%Q).
    assert (Hz : (0 <= z < 128)%Q) by (unfold z; lra).
    pose proof (round64_near_below_128 z Hz) as Hn.
    pose proof (round64_nonneg z ltac:(lra)) as Hnn.
    assert (Hz100 : (z <= 100)%Q) by (unfold z; lra).
    destruct (clamp_cases (round64 z)) as [(H100 & E) | (Hlt & _)].
    + rewrite E. lra.
    + rewrite (clamp_inside (round64 z)) by lra. exact Hn.
  - intros Hexact. rewrite (clamp_Qeq _ _ Hexact). apply clamp_inside. lra.
Qed.

(** C1, as the code has it: in a started room with current question [q], a
    correct answer of a player [p] who has not answered yet computes, each
    operation rounding its result to the nearest binary64 number,
    [speedBonus = max(0, countdown - 5) * 0.8] and
    [push = 18 + speedBonus + streak * 4], sets the progress to
    [progress + push] clamped to [0,100], adds
    [round(100 + speedBonus * 5 + streak * 10)] to the score, which is the
    integer [100 + 4 * max(0, countdown - 5) + 10 * streak], and one to the
    streak.  With streak 0 and countdown 20 the bonus is 12 and the push 30:
    the progress becomes the binary64 sum of the progress and 30, clamped;
    from a progress of at most 70 that is within [2^-47] of the progress
    plus 30, and exactly the progress plus 30 when that number is a
    binary64 number; the score grows by 160 and the streak becomes 1. *)
Theorem answer_correct_scores_rounded
    (w : World) (playerId : string) (choiceIndex : Z) (q : MCQ.t) (p : Player.t) :
  GameRoom.started (this w) = true ->
  at_index QUESTIONS (GameRoom.currentIndex (this w)) = Some q ->
  JsSet.has (GameRoom.answered (this w)) playerId = false ->
  JsMap.get (GameRoom.players (this w)) playerId = Some p ->
  choiceIndex = MCQ.answerIndex q ->
  let countdown := GameRoom.timeLeft (this w) in
  let speedBonus := round64 (inject_Z (Z.max 0 (countdown - 5)) * round64 0.8) in
  let push := round64 (round64 (18 + speedBonus) + round64 (inject_Z (Player.streak p * 4))) in
  exists p',
    JsMap.get (GameRoom.players (this (exec (answer64 playerId choiceIndex) w))) playerId
    = Some p'
    /\ Player.progress p' = clamp (round64 (Player.progress p + push)) 0 100
    /\ (0 <= Player.progress p' <= 100)%Q
    /\ Player.score p'
       = Player.score p
         + Math_round (round64 (round64 (100 + round64 (speedBonus * 5))
                                + round64 (inject_Z (Player.streak p * 10))))
    /\ (0 <= countdown <= 20 -> 0 <= Player.streak p <= 2 ^ 40 ->
        Player.score p'
        = Player.score p + (100 + 4 * Z.max 0 (countdown - 5) + 10 * Player.streak p))
    /\ Player.streak p' = Player.streak p + 1
    /\ (Player.streak p = 0 -> countdown = 20 ->
        speedBonus = 12%Q
        /\ push = 30%Q
        /\ Player.progress p' = clamp (round64 (Player.progress p + 30)) 0 100
        /\ ((0 <= Player.progress p <= 70)%Q ->
            (Player.progress p + 30 - (1 # 2 ^ 47) <= Player.progress p'
             <= Player.progress p + 30 + (1 # 2 ^ 47))%Q
            /\ ((round64 (Player.progress p + 30) == Player.progress p + 30)%Q ->
                (Player.progress p' == Player.progress p + 30)%Q))
        /\ Player.score p' = Player.score p + 160
        /\ Player.streak p' = 1).
Proof.
  intros Hs Hq Ha Hp Hc countdown speedBonus push.
  destruct (answer_r_correct_player round64 w playerId choiceIndex q p Hs Hq Ha Hp Hc)
    as (p' & Hget & Hprog & Hscore & Hstreak).
  fold countdown in Hprog, Hscore.
  exists p'. split; [exact Hget|].
  assert (Epush : push_r round64 countdown (Player.streak p) = push)
    by apply push_r_unfold.
  assert (Epoints : points_r round64 countdown (Player.streak p)
                    = Math_round (round64 (round64 (100 + round64 (speedBonus * 5))
                                           + round64 (inject_Z (Player.streak p * 10)))))
    by apply points_r_unfold.
  split; [rewrite Hprog, Epush; reflexivity|].
  split; [rewrite Hprog; apply clamp_bounds|].
  split; [rewrite Hscore, Epoints; reflexivity|].
  split.
  { intros Hcd Hst. rewrite Hscore, (points64_exact _ _ Hcd Hst). reflexivity. }
  split; [exact Hstreak|].
  intros Hst Hcd.
  destruct amounts_at_full_countdown as (Esb & Epush0 & Epts).
  assert (E1 : speedBonus = 12%Q) by (rewrite <- Esb, <- Hcd; reflexivity).
  assert (E2 : push_r round64 countdown (Player.streak p) = 30%Q)
    by (rewrite <- Epush0, Hcd, Hst; reflexivity).
  assert (E3 : points_r round64 countdown (Player.streak p) = 160)
    by (rewrite <- Epts, Hcd, Hst; reflexivity).
  rewrite E2 in Hprog. rewrite E3 in Hscore.
  split; [exact E1|]. split; [rewrite <- Epush; exact E2|].
  split; [exact Hprog|].
  split; [| split; [exact Hscore | lia]].
  intros Hb. rewrite Hprog. now apply progress_after_push_30.
Qed.

Lemma answer_correct_scores_rounded_witness :
  exists p',
    JsMap.get (GameRoom.players (this (exec (answer64 "i" 1) sample_started))) "i" = Some p'
    /\ (Player.progress p' == 30)%Q /\ Player.score p' = 160 /\ Player.streak p' = 1.
Proof.
  destruct (answer_correct_scores_rounded sample_started "i" 1 sample_question sample_player
              eq_refl eq_refl eq_refl eq_refl eq_refl)
    as (p' & Hget & _ & _ & _ & _ & _ & Hex).
  destruct (Hex eq_refl eq_refl) as (_ & _ & _ & Hprog & Hscore & Hstreak).
  exists p'. split; [exact Hget|]. split; [|split; [exact Hscore | exact Hstreak]].
  destruct Hprog as [_ Hprog]; [split; discriminate|].
  rewrite Hprog; [reflexivity | vm_compute; reflexivity].
Defined.

(** C1, as stated, fails: the sum of the progress and the push is rounded.
    Ann answers the first question with 6 seconds left, which brings her to
    18.8 (the nearest binary64 number), and misses the second; her correct
    answer to the third, at streak 0 and countdown 20, brings her to the
    binary64 number nearest to 48.8, which is not 30 more. *)
Lemma progress_gain_is_rounded :
  let w := run64 (initial "main" half)
                 ([Join "s1" "Ann" "red"; Start] ++ repeat Tick 14
                  ++ [Answer "i" 1; Next; Answer "i" 0; Next]) in
  let w' := exec (answer64 "i" 2) w in
  exists p p',
    GameRoom.started (this w) = true
    /\ GameRoom.timeLeft (this w) = 20
    /\ option_map MCQ.answerIndex (at_index QUESTIONS (GameRoom.currentIndex (this w))) = Some 2
    /\ JsSet.has (GameRoom.answered (this w)) "i" = false
    /\ JsMap.get (GameRoom.players (this w)) "i" = Some p
    /\ Player.streak p = 0
    /\ Player.progress p = round64 18.8
    /\ JsMap.get (GameRoom.players (this w')) "i" = Some p'
    /\ Player.progress p' = round64 48.8
    /\ (Player.progress p' < Player.progress p + 30)%Q
    /\ ~ (Player.progress p' == Player.progress p + 30)%Q
    /\ Player.score p' = Player.score p + 160
    /\ Player.streak p' = 1.
Proof.
  cbv zeta. eexists. eexists.
  do 4 (split; [vm_compute; reflexivity|]).
  split; [vm_compute; reflexivity|].
  do 2 (split; [vm_compute; reflexivity|]).
  split; [vm_compute; reflexivity|].
  split; [vm_compute; reflexivity|].
  split; [vm_compute; reflexivity|].
  split; [vm_compute; discriminate|].
  split; vm_compute; reflexivity.
Qed.

(** * Whole rounds of the program *)

(** X19: a player who answers all five questions of a round correctly
    reaches the finish line however late each answer comes: whatever the
    countdown shows at each of the five answers (any number of ticks before
    each of them), the player ends with progress 100, a streak five longer,
    at least 600 more points, and a place in the finish order unless three
    other players hold it already. *)
Theorem five_correct_answers_reach_the_line
    (w : World) (k : string) (p : Player.t) (n1 n2 n3 n4 n5 : nat) :
  reachable64 w ->
  GameRoom.started (this w) = true ->
  GameRoom.currentIndex (this w) = 0 ->
  JsSet.has (GameRoom.answered (this w)) k = false ->
  JsMap.get (GameRoom.players (this w)) k = Some p ->
  let w' := run64 w ((repeat Tick n1 ++ [Answer k 1; Next])
                     ++ (repeat Tick n2 ++ [Answer k 2; Next])
                     ++ (repeat Tick n3 ++ [Answer k 2; Next])
                     ++ (repeat Tick n4 ++ [Answer k 1; Next])
                     ++ (repeat Tick n5 ++ [Answer k 0])) in
  exists p',
    JsMap.get (GameRoom.players (this w')) k = Some p'
    /\ (Player.progress p' == 100)%Q
    /\ Player.streak p' = Player.streak p + 5
    /\ Player.score p + 600 <= Player.score p'
    /\ (In k (GameRoom.finishedOrder (this w'))
        \/ List.length (GameRoom.finishedOrder (this w')) = 3%nat).
Proof.
  intros Hr Hs Hi Ha Hg w'. subst w'. unfold run64.
  destruct (reachable64_invariants w Hr) as [Hok Hk].
  pose proof Hok as (_ & _ & Hp & _).
  pose proof (Hp _ _ (JsMap_get_In _ _ _ Hg)) as (Hpr & Hsc & Hst).
  assert (Hb0 : (100 <= Player.progress p \/ inject_Z 0 <= Player.progress p)%Q)
    by (right; apply Hpr).
  pose proof (correct_lap_r round64 toString36_v8 round64_ge_int) as lap.
  rewrite run_r_app.
  set (w1 := run_r round64 toString36_v8 w (repeat Tick n1 ++ [Answer k 1; Next])).
  destruct (lap w k 1 n1 _ p 0 0 Hok Hk Hs ltac:(rewrite Hi; reflexivity) eq_refl
              ltac:(lia) Ha Hg ltac:(lia) ltac:(lia) ltac:(lia) Hb0)
    as ((Hok1 & Hk1) & Hs1 & Hi1 & Ha1 & p1 & Hg1 & Hst1 & Hsc1 & Hb1).
  fold w1 in Hok1, Hk1, Hs1, Hi1, Ha1, Hg1. rewrite Hi in Hi1.
  rewrite run_r_app.
  set (w2 := run_r round64 toString36_v8 w1 (repeat Tick n2 ++ [Answer k 2; Next])).
  destruct (lap w1 k 2 n2 _ p1 (0 + (18 + 4 * 0)) 1 Hok1 Hk1 Hs1 ltac:(rewrite Hi1; reflexivity) eq_refl
              ltac:(lia) Ha1 Hg1 ltac:(lia) ltac:(lia) ltac:(lia) Hb1)
    as ((Hok2 & Hk2) & Hs2 & Hi2 & Ha2 & p2 & Hg2 & Hst2 & Hsc2 & Hb2).
  fold w2 in Hok2, Hk2, Hs2, Hi2, Ha2, Hg2. rewrite Hi1 in Hi2.
  rewrite run_r_app.
  set (w3 := run_r round64 toString36_v8 w2 (repeat Tick n3 ++ [Answer k 2; Next])).
  destruct (lap w2 k 2 n3 _ p2 (0 + (18 + 4 * 0) + (18 + 4 * 1)) 2 Hok2 Hk2 Hs2 ltac:(rewrite Hi2; reflexivity) eq_refl
              ltac:(lia) Ha2 Hg2 ltac:(lia) ltac:(lia) ltac:(lia) Hb2)
    as ((Hok3 & Hk3) & Hs3 & Hi3 & Ha3 & p3 & Hg3 & Hst3 & Hsc3 & Hb3).
  fold w3 in Hok3, Hk3, Hs3, Hi3, Ha3, Hg3. rewrite Hi2 in Hi3.
  rewrite run_r_app.
  set (w4 := run_r round64 toString36_v8 w3 (repeat Tick n4 ++ [Answer k 1; Next])).
  destruct (lap w3 k 1 n4 _ p3 (0 + (18 + 4 * 0) + (18 + 4 * 1) + (18 + 4 * 2)) 3 Hok3 Hk3 Hs3 ltac:(rewrite Hi3; reflexivity) eq_refl
              ltac:(lia) Ha3 Hg3 ltac:(lia) ltac:(lia) ltac:(lia) Hb3)
    as ((Hok4 & Hk4) & Hs4 & Hi4 & Ha4 & p4 & Hg4 & Hst4 & Hsc4 & Hb4).
  fold w4 in Hok4, Hk4, Hs4, Hi4, Ha4, Hg4. rewrite Hi3 in Hi4.
  rewrite run_r_app, run_r_ticks.
  destruct (invariants_run_r round64 toString36_v8 round64_ge_int (repeat Tick n5) w4
              (conj Hok4 Hk4)) as [Hok5 Hk5].
  rewrite run_r_ticks in Hok5, Hk5.
  destruct (ticks_frame w4 n5) as (T1 & T2 & T3 & _ & T5).
  set (w5 := run w4 (repeat Tick n5)) in *.
  rewrite <- T1 in Hs4. rewrite <- T2 in Hi4. rewrite <- T3 in Hg4. rewrite <- T5 in Ha4.
  cbn [run_r fold_left step_r].
  destruct (correct_answer_gain_r round64 round64_ge_int w5 k 0 _ p4
              (0 + (18 + 4 * 0) + (18 + 4 * 1) + (18 + 4 * 2) + (18 + 4 * 3)) 4 Hok5 Hk5 Hs4
              ltac:(rewrite Hi4; reflexivity) eq_refl Ha4 Hg4
              ltac:(lia) ltac:(lia) ltac:(lia) Hb4)
    as (_ & _ & p5 & Hg5 & Hst5 & Hsc5 & Hle5 & Hb5 & Hfin).
  assert (H100 : (100 <= Player.progress p5)%Q).
  { destruct Hb5 as [H | H]; [exact H|].
    apply (Qle_trans _ (inject_Z (0 + (18 + 4 * 0) + (18 + 4 * 1) + (18 + 4 * 2)
                                  + (18 + 4 * 3) + (18 + 4 * 4)))); [| exact H].
    discriminate. }
  exists p5. split; [exact Hg5|].
  split; [apply Qle_antisym; [exact Hle5 | exact H100]|].
  split; [lia|]. split; [lia|].
  now apply Hfin.
Qed.

Lemma five_correct_answers_reach_the_line_witness :
  exists p',
    JsMap.get (GameRoom.players
                 (this (run64 (run64 (initial "main" half) [Join "s1" "Ann" "red"; Start])
                              ((repeat Tick 19 ++ [Answer "i" 1; Next])
                               ++ (repeat Tick 3 ++ [Answer "i" 2; Next])
                               ++ (repeat Tick 0 ++ [Answer "i" 2; Next])
                               ++ (repeat Tick 17 ++ [Answer "i" 1; Next])
                               ++ (repeat Tick 30 ++ [Answer "i" 0]))))) "i" = Some p'
    /\ (Player.progress p' == 100)%Q
    /\ 600 <= Player.score p'.
Proof.
  destruct (five_correct_answers_reach_the_line
              (run64 (initial "main" half) [Join "s1" "Ann" "red"; Start])
              "i" sample_player 19 3 0 17 30)
    as (p' & Hg & Hp & _ & Hsc & _).
  - exists "main", half, [Join "s1" "Ann" "red"; Start]. reflexivity.
  - vm_compute. reflexivity.
  - vm_compute. reflexivity.
  - vm_compute. reflexivity.
  - vm_compute. reflexivity.
  - exists p'. split; [exact Hg|]. split; [exact Hp | exact Hsc].
Defined.

(** ** [join] in the program *)

(** X11: when [Math.random] returns binary64 numbers in [[0, 1)], [join]
    creates a player whose id is the string [uid] derives from the first
    value drawn, at most seven characters long, with progress, score and
    streak 0, the color and socket it was given, the name it was given or,
    for an empty name, ["Racer-N"] with [N] the floor of the binary64
    product of the next value and 99, which lies between 0 and 98, and an
    avatar that is one of [AVATARS]; it stores the player under the new id
    without touching players stored under other ids or any other field of
    the room, and sends one snapshot. *)
Theorem join_creates_player_rounded (w : World) (socketId name color : string) :
  (forall i, (round64 (random w i) == random w i)%Q /\ (0 <= random w i < 1)%Q) ->
  let p := fst (join64 socketId name color w) in
  let w' := exec (join64 socketId name color) w in
  Player.id p = uid64_of (random w (drawn w))
  /\ (String.length (Player.id p) <= 7)%nat
  /\ Player.progress p = 0%Q /\ Player.score p = 0 /\ Player.streak p = 0
  /\ Player.color p = color
  /\ Player.socketId p = Some socketId
  /\ (name <> "" -> Player.name p = name)
  /\ (name = "" ->
      let n := Qfloor (round64 (random w (S (drawn w)) * 99)) in
      0 <= n <= 98 /\ Player.name p = ("Racer-" ++ toString10 n)%string)
  /\ In (Player.avatar p) AVATARS
  /\ JsMap.get (GameRoom.players (this w')) (Player.id p) = Some p
  /\ (forall k, k <> Player.id p ->
        JsMap.get (GameRoom.players (this w')) k = JsMap.get (GameRoom.players (this w)) k)
  /\ this w' = GameRoom.with_players (GameRoom.players (this w')) (this w)
  /\ emitted w' = emitted w ++ [(GameRoom.id (this w'), GameRoom.wire (this w'))].
Proof.
  intros Hrnd p w'. unfold join64 in p, w'.
  assert (Hr : forall i, (0 <= random w i <= 1 - pow2 (-53))%Q).
  { intros i. destruct (Hrnd i) as [Hfix Hin].
    split; [apply Hin | now apply binary64_below_one]. }
  pose proof (this_join_r round64 toString36_v8 w socketId name color) as Ht. cbv zeta in Ht.
  pose proof (join_r_world round64 toString36_v8 w socketId name color) as Hw. cbv zeta in Hw.
  destruct Ht as (Ht & Hid & Hpr & Hsc & Hst). fold p in Ht, Hid, Hpr, Hsc, Hst.
  assert (Hfields :
            Player.color p = color /\ Player.socketId p = Some socketId
            /\ (name <> "" -> Player.name p = name)
            /\ (name = "" ->
                let n := Qfloor (round64 (random w (S (drawn w)) * 99)) in
                0 <= n <= 98 /\ Player.name p = ("Racer-" ++ toString10 n)%string)
            /\ In (Player.avatar p) AVATARS).
  { subst p. clear Ht Hid Hpr Hsc Hst Hw w' Hrnd.
    assert (Hav : forall r, (0 <= r <= 1 - pow2 (-53))%Q ->
                    In (List.nth
                          (Z.to_nat (Qfloor (round64
                                               (r * inject_Z (Z.of_nat (List.length AVATARS))))))
                          AVATARS "") AVATARS).
    { intros r Hr0. apply nth_In.
      pose proof (floor_round64_scaled r 8 2 ltac:(lia) ltac:(lia) Hr0) as H.
      change (Z.of_nat (List.length AVATARS)) with 8.
      change (List.length AVATARS) with 8%nat. lia. }
    destruct w as [[i st ci tl pl fo iv an] em its tos nt random0 dr]. cbn [random drawn] in *.
    js_eval_r. destruct (String.eqb name "") eqn:En; js_eval_r;
      cbn [Player.color Player.socketId Player.name Player.avatar].
    - apply String.eqb_eq in En.
      split; [reflexivity|]. split; [reflexivity|]. split; [congruence|].
      split; [| apply Hav, Hr].
      intros _. cbv zeta. split; [| reflexivity].
      apply (floor_round64_scaled (random0 (S dr)) 99 6 ltac:(lia) ltac:(lia) (Hr (S dr))).
    - apply String.eqb_neq in En.
      split; [reflexivity|]. split; [reflexivity|]. split; [reflexivity|].
      split; [congruence | apply Hav, Hr]. }
  destruct Hfields as (Hc & Hso & Hn1 & Hn2 & Hav).
  split; [exact Hid|].
  split; [rewrite Hid; apply (slice_length 2 9)|].
  do 3 (split; [assumption|]). do 5 (split; [assumption|]).
  subst w'. rewrite Ht. cbn [GameRoom.players GameRoom.with_players].
  split; [apply JsMap_get_set_same|].
  split; [intros k Hk; now apply JsMap_get_set_other|].
  split; [reflexivity|].
  rewrite Hw at 1. cbn [emitted]. now rewrite Ht.
Qed.

Lemma join_creates_player_rounded_witness :
  let p := fst (join64 "s1" "" "red" (initial "main" thirds)) in
  Player.id p = "c" /\ Player.name p = "Racer-33" /\ In (Player.avatar p) AVATARS.
Proof.
  pose proof (join_creates_player_rounded (initial "main" thirds) "s1" "" "red") as H.
  cbv zeta in *.
  destruct H as (Hid & _ & _ & _ & _ & _ & _ & _ & Hn & Hav & _).
  - intros i. split; [vm_compute; reflexivity | split; [discriminate | reflexivity]].
  - split; [rewrite Hid; vm_compute; reflexivity|].
    split; [| exact Hav].
    destruct (Hn eq_refl) as [_ ->]. vm_compute. reflexivity.
Defined.
